(** * OptionsPricer: Black-Scholes pricing, binomial lattice and
      implied-volatility surface reconstruction

    Shallow embedding of
    - [src/models/black_scholes.py]  ([black_scholes_price], [black_scholes_greeks]),
    - [src/ui/visualizations/volatility_surface.py]
      ([interpolate_volatility_surface]),
    - [src/ui/visualizations/surface_helpers.py]
      ([create_mesh_grid], [get_expiration_days]),
    - [src/data/fetch_data.py]  ([get_options_chain], over an abstract
      remote service),
    - [src/ui/visualizations/option_price_surface.py]
      ([create_option_price_surface], up to the arrays that it plots),
    - the binomial lattice pricer [american_option_binomial] that
      [src/ui/options_helpers.py] imports from [src/models/binomial_pricing.py],
      a file that is not among the sources: the pricer follows section 4.2 of
      the specification.

    Floating-point numbers are abstracted to exact reals extended with the
    IEEE 754 special values: rounding and overflow are not modelled, the
    propagation of infinities and NaN is.  Where a property depends on the
    sign of a zero, on rounding or on overflow, it is stated over a second
    embedding of [black_scholes_price], module [F64], that keeps them. *)

From Stdlib Require Import Reals Lra Lia ZArith List String Permutation Sorted.
From stdpp Require Import base list.
Import ListNotations.

Open Scope R_scope.

(** ** Python exceptions and the result monad *)

(** The built-in exceptions that the sources raise, and the failures that the
    specification names for the lattice pricer. *)
Inductive exn : Type :=
  | ValueError
  | ZeroDivisionError
  | OverflowError
  | InvalidOptionKind
  | InvalidStepCount
  | DegenerateLatticeError
  | IndexError.

(** The outcome of a call: a value, or an exception that reaches the caller. *)
Inductive result (A : Type) : Type :=
  | Ok (a : A)
  | Raise (e : exn).

Arguments Ok {A} a.
Arguments Raise {A} e.

#[global] Instance result_ret : MRet result := fun A a => Ok a.

#[global] Instance result_bind : MBind result := fun A B k m =>
  match m with
  | Ok a => k a
  | Raise e => Raise e
  end.

(** A Python [for] loop whose body may raise: the accumulator is threaded
    through the items in order, and the first exception ends the loop. *)
Fixpoint for_each {A St : Type} (body : St -> A -> result St)
    (items : list A) (st : St) : result St :=
  match items with
  | [] => Ok st
  | x :: rest => st' ← body st x; for_each body rest st'
  end.

(** ** Floats: reals extended with infinities and NaN *)

(** A float: a finite value, taken as an exact real, or one of the special
    values of IEEE 754.  The two zeros are not told apart. *)
Inductive xreal : Type :=
  | Fin (x : R)
  | PInf
  | NInf
  | NaN.

(** Comparisons of two finite values, as booleans. *)
Definition Rltb (x y : R) : bool := if Rlt_dec x y then true else false.

Definition Rleb (x y : R) : bool := if Rle_dec x y then true else false.

Definition Reqb (x y : R) : bool := if Req_dec_T x y then true else false.

Module XReal.

Definition opp (a : xreal) : xreal :=
  match a with
  | Fin x => Fin (- x)
  | PInf => NInf
  | NInf => PInf
  | NaN => NaN
  end.

Definition add (a b : xreal) : xreal :=
  match a, b with
  | NaN, _ | _, NaN => NaN
  | Fin x, Fin y => Fin (x + y)
  | PInf, NInf | NInf, PInf => NaN
  | PInf, _ | _, PInf => PInf
  | NInf, _ | _, NInf => NInf
  end.

Definition sub (a b : xreal) : xreal := add a (opp b).

(** The infinity whose sign is the sign of [x]; [0 * inf] is NaN. *)
Definition signed_inf (x : R) : xreal :=
  if Rlt_dec 0 x then PInf else if Rlt_dec x 0 then NInf else NaN.

Definition mul (a b : xreal) : xreal :=
  match a, b with
  | NaN, _ | _, NaN => NaN
  | Fin x, Fin y => Fin (x * y)
  | Fin x, PInf | PInf, Fin x => signed_inf x
  | Fin x, NInf | NInf, Fin x => signed_inf (- x)
  | PInf, PInf | NInf, NInf => PInf
  | PInf, NInf | NInf, PInf => NaN
  end.

(** numpy's true division: a zero denominator gives an infinity or NaN (and
    a warning), never an exception.  A zero is the positive zero ([F64.div]
    has the negative one). *)
Definition div (a b : xreal) : xreal :=
  match a, b with
  | NaN, _ | _, NaN => NaN
  | Fin x, Fin y => if Req_dec_T y 0 then signed_inf x else Fin (x / y)
  | Fin _, PInf | Fin _, NInf => Fin 0
  | PInf, Fin y => if Rlt_dec y 0 then NInf else PInf
  | NInf, Fin y => if Rlt_dec y 0 then PInf else NInf
  | PInf, PInf | PInf, NInf | NInf, PInf | NInf, NInf => NaN
  end.

(** [a ** 2], without the overflow on which Python raises ([F64.py_pow2]
    has it). *)
Definition pow2 (a : xreal) : xreal := mul a a.

(** [np.exp] *)
Definition exp (a : xreal) : xreal :=
  match a with
  | Fin x => Fin (Rtrigo_def.exp x)
  | PInf => PInf
  | NInf => Fin 0
  | NaN => NaN
  end.

(** [np.log] *)
Definition log (a : xreal) : xreal :=
  match a with
  | Fin x => if Rlt_dec 0 x then Fin (ln x)
             else if Req_dec_T x 0 then NInf else NaN
  | PInf => PInf
  | NInf => NaN
  | NaN => NaN
  end.

(** [np.sqrt] *)
Definition sqrt (a : xreal) : xreal :=
  match a with
  | Fin x => if Rle_dec 0 x then Fin (R_sqrt.sqrt x) else NaN
  | PInf => PInf
  | NInf => NaN
  | NaN => NaN
  end.

(** [a < b], [a <= b]: any comparison with NaN is false. *)
Definition ltb (a b : xreal) : bool :=
  match a, b with
  | NaN, _ | _, NaN => false
  | Fin x, Fin y => Rltb x y
  | _, NInf => false
  | NInf, _ => true
  | PInf, _ => false
  | _, PInf => true
  end.

Definition leb (a b : xreal) : bool :=
  match a, b with
  | NaN, _ | _, NaN => false
  | Fin x, Fin y => Rleb x y
  | NInf, _ => true
  | _, PInf => true
  | _, NInf => false
  | PInf, _ => false
  end.

(** [np.isnan] *)
Definition isnan (a : xreal) : bool :=
  match a with NaN => true | _ => false end.

(** Python's builtin [max(a, b)]: the first argument stays unless the
    second is strictly greater. *)
Definition py_max (a b : xreal) : xreal := if ltb a b then b else a.

(** Python's [a / b] on two Python floats raises on a zero divisor. *)
Definition py_div (a b : xreal) : result xreal :=
  match b with
  | Fin y => if Req_dec_T y 0 then Raise ZeroDivisionError else Ok (div a b)
  | _ => Ok (div a b)
  end.

End XReal.

(** ** The standard normal distribution ([scipy.stats.norm])

    [scipy.stats.norm] is an external library.  Its density is
    [exp (- t^2 / 2) / sqrt (2 * PI)]; its distribution function is one half
    plus the integral of the density from the origin, the kernel
    [exp (- t^2 / 2)] being normalised by its total mass, twice its mass over
    the half line (whose value is [sqrt (PI / 2)]: lemma
    [gauss_half_mass_square]). *)

(** The Gaussian kernel. *)
Definition gauss (t : R) : R := exp (- (t * t) / 2).

Lemma gauss_continuity : continuity gauss.
Proof. unfold gauss. reg. Qed.

Lemma gauss_integrable (a b : R) : Riemann_integrable gauss a b.
Proof.
  destruct (Rle_dec a b) as [H|H].
  - apply continuity_implies_RiemannInt; [exact H|]. intros x _. apply gauss_continuity.
  - apply RiemannInt_P1. apply continuity_implies_RiemannInt; [lra|]. intros x _. apply gauss_continuity.
Qed.

(** The integral of the kernel from [a] to [b]. *)
Definition gauss_int (a b : R) : R := RiemannInt (gauss_integrable a b).

Lemma exp_le_mono (x y : R) : x <= y -> exp x <= exp y.
Proof.
  intros [H|H]; [left; now apply exp_increasing | subst; right; reflexivity].
Qed.

(** The kernel lies below the exponential [exp (y^2 / 2 - y * t)], which
    touches it at [t = y] and has an elementary primitive. *)
Section Envelope.
Variable y : R.
Hypothesis y_pos : 0 < y.

Definition envelope (t : R) : R := exp (y * y / 2 - y * t).

Definition envelope_prim (t : R) : R := - exp (y * y / 2 - y * t) / y.

Lemma gauss_le_envelope (t : R) : gauss t <= envelope t.
Proof.
  unfold gauss, envelope. apply exp_le_mono.
  pose proof (Rle_0_sqr (t - y)) as Hsq. unfold Rsqr in Hsq. nra.
Qed.

Lemma envelope_prim_lim (t : R) : derivable_pt_lim envelope_prim t (envelope t).
Proof.
  unfold envelope_prim, envelope.
  replace (exp (y * y / 2 - y * t)) with (- (exp (y * y / 2 - y * t) * (0 - y * 1)) / y) at 1
    by (field; lra).
  apply derivable_pt_lim_div_scal.
  apply (derivable_pt_lim_opp (fun t => exp (y * y / 2 - y * t))).
  apply (derivable_pt_lim_comp (fun t => y * y / 2 - y * t) exp).
  - apply (derivable_pt_lim_minus (fct_cte (y * y / 2)) (fun t => y * t)).
    + apply derivable_pt_lim_const.
    + apply (derivable_pt_lim_scal id). apply derivable_pt_lim_id.
  - apply derivable_pt_lim_exp.
Qed.

Lemma envelope_prim_derivable : derivable envelope_prim.
Proof. intros t. exists (envelope t). apply envelope_prim_lim. Qed.

Lemma envelope_continuity : continuity envelope.
Proof. unfold envelope. reg. Qed.

Lemma envelope_prim_cont1 : continuity (derive envelope_prim envelope_prim_derivable).
Proof.
  intros t. apply (continuity_pt_locally_ext envelope _ 1 t); [lra | | apply envelope_continuity].
  intros u _. unfold derive. symmetry. apply derive_pt_eq_0. apply envelope_prim_lim.
Qed.

Definition envelope_C1 : C1_fun := mkC1 envelope_prim_cont1.

Lemma envelope_integrable (a b : R) : Riemann_integrable envelope a b.
Proof.
  destruct (Rle_dec a b) as [H|H].
  - apply continuity_implies_RiemannInt; [exact H|]. intros x _. apply envelope_continuity.
  - apply RiemannInt_P1. apply continuity_implies_RiemannInt; [lra|]. intros x _. apply envelope_continuity.
Qed.

Lemma envelope_integral (a b : R) : a <= b ->
  RiemannInt (envelope_integrable a b) = envelope_prim b - envelope_prim a.
Proof.
  intros Hab.
  assert (pr : Riemann_integrable (derive envelope_C1 (diff0 envelope_C1)) a b).
  { apply continuity_implies_RiemannInt; [exact Hab|]. intros x _. apply (cont1 envelope_C1). }
  change (envelope_prim b - envelope_prim a) with (envelope_C1 b - envelope_C1 a).
  rewrite <- (FTC_Riemann envelope_C1 pr).
  apply RiemannInt_P18; [exact Hab|].
  intros x _. unfold derive. symmetry. apply derive_pt_eq_0. apply envelope_prim_lim.
Qed.

Lemma gauss_int_envelope (a b : R) : a <= b ->
  gauss_int a b <= exp (y * y / 2 - y * a) / y.
Proof.
  intros Hab. unfold gauss_int.
  apply Rle_trans with (RiemannInt (envelope_integrable a b)).
  - apply RiemannInt_P19; [exact Hab|]. intros x _. apply gauss_le_envelope.
  - rewrite envelope_integral by exact Hab. unfold envelope_prim.
    assert (0 < exp (y * y / 2 - y * b)) by apply exp_pos.
    assert (0 < / y) by now apply Rinv_0_lt_compat.
    unfold Rdiv. nra.
Qed.
End Envelope.

Lemma gauss_int_chasles (a b c : R) : gauss_int a b + gauss_int b c = gauss_int a c.
Proof. unfold gauss_int. apply RiemannInt_P26. Qed.

Lemma gauss_int_refl (a : R) : gauss_int a a = 0.
Proof. unfold gauss_int. apply RiemannInt_P9. Qed.

Lemma gauss_int_const_below (c a b : R) :
  a <= b -> (forall t, a < t < b -> c <= gauss t) -> c * (b - a) <= gauss_int a b.
Proof.
  intros Hab Hc. unfold gauss_int.
  rewrite <- (RiemannInt_P15 (RiemannInt_P14 a b c)).
  apply RiemannInt_P19; [exact Hab|]. intros t Ht. unfold fct_cte. now apply Hc.
Qed.

Lemma gauss_int_nonneg (a b : R) : a <= b -> 0 <= gauss_int a b.
Proof.
  intros Hab. replace 0 with (0 * (b - a)) by ring.
  apply gauss_int_const_below; [exact Hab|]. intros t _. left. apply exp_pos.
Qed.

Lemma gauss_int_mono (a b c : R) : b <= c -> gauss_int a b <= gauss_int a c.
Proof.
  intros Hbc. rewrite <- (gauss_int_chasles a b c).
  pose proof (gauss_int_nonneg b c Hbc). lra.
Qed.

(** The integral is a primitive of the kernel in its upper limit. *)
Lemma gauss_int_derivative (a x : R) : derivable_pt_lim (gauss_int a) x (gauss x).
Proof.
  set (lo := Rmin a x - 1). set (hi := Rmax a x + 1).
  assert (Hlo : lo < a /\ lo < x).
  { unfold lo. pose proof (Rmin_l a x). pose proof (Rmin_r a x). lra. }
  assert (Hhi : a < hi /\ x < hi).
  { unfold hi. pose proof (Rmax_l a x). pose proof (Rmax_r a x). lra. }
  assert (h : lo <= hi) by lra.
  assert (C0 : forall t, lo <= t <= hi -> continuity_pt gauss t)
    by (intros t _; apply gauss_continuity).
  apply (derivable_pt_lim_locally_ext
           (fun z => primitive h (FTC_P1 h C0) z - gauss_int lo a) _ x lo hi); [lra | |].
  - intros z Hz. unfold primitive.
    destruct (Rle_dec lo z) as [Hl | Hl]; [| lra].
    destruct (Rle_dec z hi) as [Hu | Hu]; [| lra].
    rewrite (RiemannInt_P5 (FTC_P1 h C0 Hl Hu) (gauss_integrable lo z)).
    fold (gauss_int lo z). rewrite <- (gauss_int_chasles lo a z). ring.
  - replace (gauss x) with (gauss x - 0) by ring.
    apply (derivable_pt_lim_minus (primitive h (FTC_P1 h C0)) (fct_cte (gauss_int lo a))).
    + apply RiemannInt_P27. lra.
    + apply derivable_pt_lim_const.
Qed.

Lemma gauss_even (t : R) : gauss (- t) = gauss t.
Proof. unfold gauss. replace (- t * - t) with (t * t) by ring. reflexivity. Qed.

(** The kernel is even, so its integral from the origin is odd. *)
Lemma gauss_int_odd (x : R) : gauss_int 0 (- x) = - gauss_int 0 x.
Proof.
  set (H := fun t => gauss_int 0 t + gauss_int 0 (- t)).
  assert (Hlim : forall t, derivable_pt_lim H t 0).
  { intros t. replace 0 with (gauss t + - gauss (- t)) by (rewrite gauss_even; ring).
    apply (derivable_pt_lim_plus (gauss_int 0) (mirr_fct (gauss_int 0))).
    - apply gauss_int_derivative.
    - apply derivable_pt_lim_mirr_fwd. rewrite Ropp_involutive. apply gauss_int_derivative. }
  assert (pr : derivable H) by (intros t; exists 0; apply Hlim).
  assert (Hder : forall t, derive_pt H t (pr t) = 0)
    by (intros t; apply derive_pt_eq_0, Hlim).
  assert (Hinc : increasing H)
    by (apply (nonneg_derivative_1 H pr); intros t; rewrite Hder; lra).
  assert (Hdec : decreasing H)
    by (apply (nonpos_derivative_1 H pr); intros t; rewrite Hder; lra).
  assert (H0 : H 0 = 0) by (unfold H; rewrite Ropp_0, gauss_int_refl; ring).
  assert (Hx : H x = 0).
  { destruct (Rle_dec 0 x) as [Hle | Hgt].
    - pose proof (Hinc 0 x Hle). pose proof (Hdec 0 x Hle). lra.
    - pose proof (Hinc x 0 ltac:(lra)). pose proof (Hdec x 0 ltac:(lra)). lra. }
  unfold H in Hx. lra.
Qed.

(** The masses [gauss_int 0 x] of the kernel over the segments [[0, x]]. *)
Definition gauss_mass (m : R) : Prop := exists x : R, 0 <= x /\ m = gauss_int 0 x.

Lemma gauss_mass_bound : bound gauss_mass.
Proof.
  exists (exp (1 * 1 / 2 - 1 * 0) / 1). intros m [x [Hx ->]].
  apply gauss_int_envelope; lra.
Qed.

Lemma gauss_mass_inhabited : exists m : R, gauss_mass m.
Proof. exists (gauss_int 0 0), 0. split; [lra | reflexivity]. Qed.

(** The mass of the kernel over the half line: the least upper bound of the
    masses over its segments. *)
Definition gauss_half_mass : R :=
  proj1_sig (completeness gauss_mass gauss_mass_bound gauss_mass_inhabited).

Lemma gauss_half_mass_lub : is_lub gauss_mass gauss_half_mass.
Proof. unfold gauss_half_mass. apply proj2_sig. Qed.

Lemma gauss_int_le_half_mass (x : R) : 0 <= x -> gauss_int 0 x <= gauss_half_mass.
Proof.
  intros Hx. apply (proj1 gauss_half_mass_lub). exists x. auto.
Qed.

Lemma gauss_half_mass_tail (y : R) : 0 < y ->
  gauss_half_mass <= gauss_int 0 y + exp (- (y * y) / 2) / y.
Proof.
  intros Hy. apply (proj2 gauss_half_mass_lub). intros m [x [Hx ->]].
  destruct (Rle_dec x y) as [Hxy|Hxy].
  - pose proof (gauss_int_mono 0 x y Hxy).
    assert (0 < exp (- (y * y) / 2) / y) by (apply Rdiv_lt_0_compat; [apply exp_pos | exact Hy]).
    lra.
  - rewrite <- (gauss_int_chasles 0 y x).
    pose proof (gauss_int_envelope y Hy y x ltac:(lra)) as H.
    replace (y * y / 2 - y * y) with (- (y * y) / 2) in H by field. lra.
Qed.

Lemma gauss_half_mass_lower : exp (- / 2) <= gauss_half_mass.
Proof.
  apply Rle_trans with (gauss_int 0 1); [| apply gauss_int_le_half_mass; lra].
  replace (exp (- / 2)) with (exp (- / 2) * (1 - 0)) by ring.
  apply gauss_int_const_below; [lra|]. intros t Ht. unfold gauss.
  apply exp_le_mono. nra.
Qed.

Lemma gauss_half_mass_pos : 0 < gauss_half_mass.
Proof.
  apply Rlt_le_trans with (exp (- / 2)); [apply exp_pos | apply gauss_half_mass_lower].
Qed.

(** [Phi]: the standard normal distribution function on the reals, one half
    plus the normalised mass between the origin and [x] (negative for [x < 0]). *)
Definition Phi (x : R) : R := / 2 + gauss_int 0 x / (2 * gauss_half_mass).

(** [phi]: the standard normal density on the reals. *)
Definition phi (x : R) : R := gauss x / sqrt (2 * PI).

(** [stats.norm.cdf] and [stats.norm.pdf] on floats, without rounding: in
    doubles the distribution function reaches [1.0] and [0.0] on finite
    arguments. *)
Definition norm_cdf (a : xreal) : xreal :=
  match a with
  | Fin x => Fin (Phi x)
  | PInf => Fin 1
  | NInf => Fin 0
  | NaN => NaN
  end.

Definition norm_pdf (a : xreal) : xreal :=
  match a with
  | Fin x => Fin (phi x)
  | PInf | NInf => Fin 0
  | NaN => NaN
  end.

(** ** [src/models/black_scholes.py]

    The arguments are Python floats, as the docstrings say: [S / K] is
    Python's division, which raises on a zero divisor, while every operation
    on a result of [np.log] or [np.sqrt] is numpy's and follows IEEE 754. *)

Module BlackScholes.
Import XReal.

(** [black_scholes_price(S, K, T, r, sigma, option_type="call")] *)
Definition black_scholes_price (S K T r sigma : xreal) (option_type : string)
  : result xreal :=
  if leb T (Fin 0) then
    Ok (if String.eqb option_type "call"
        then py_max (Fin 0) (sub S K)
        else py_max (Fin 0) (sub K S))
  else
    q ← py_div S K;
    let d1 := div (add (log q) (mul (add r (mul (Fin (1 / 2)) (pow2 sigma))) T))
                  (mul sigma (sqrt T)) in
    let d2 := sub d1 (mul sigma (sqrt T)) in
    if String.eqb option_type "call" then
      Ok (sub (mul S (norm_cdf d1))
              (mul (mul K (exp (mul (opp r) T))) (norm_cdf d2)))
    else if String.eqb option_type "put" then
      Ok (sub (mul (mul K (exp (mul (opp r) T))) (norm_cdf (opp d2)))
              (mul S (norm_cdf (opp d1))))
    else Raise ValueError.

(** The dictionary [{"Delta": .., "Gamma": .., "Vega": .., "Theta": .., "Rho": ..}]. *)
Record greeks : Type := mk_greeks {
  Delta : xreal;
  Gamma : xreal;
  Vega : xreal;
  Theta : xreal;
  Rho : xreal
}.

(** [black_scholes_greeks(S, K, T, r, sigma, option_type="call")] *)
Definition black_scholes_greeks (S K T r sigma : xreal) (option_type : string)
  : result greeks :=
  if leb T (Fin 0) then
    Ok {| Delta := Fin 0; Gamma := Fin 0; Vega := Fin 0; Theta := Fin 0; Rho := Fin 0 |}
  else
    q ← py_div S K;
    let d1 := div (add (log q) (mul (add r (mul (Fin (1 / 2)) (pow2 sigma))) T))
                  (mul sigma (sqrt T)) in
    let d2 := sub d1 (mul sigma (sqrt T)) in
    let delta := if String.eqb option_type "call"
                 then norm_cdf d1 else sub (norm_cdf d1) (Fin 1) in
    let gamma := div (norm_pdf d1) (mul (mul S sigma) (sqrt T)) in
    let vega := mul (mul S (norm_pdf d1)) (sqrt T) in
    let theta :=
      sub (div (mul (mul (opp S) (norm_pdf d1)) sigma) (mul (Fin 2) (sqrt T)))
          (mul (mul (mul r K) (exp (mul (opp r) T)))
               (norm_cdf (if String.eqb option_type "call" then d2 else opp d2))) in
    let rho :=
      mul (mul (mul K T) (exp (mul (opp r) T)))
          (norm_cdf (if String.eqb option_type "call" then d2 else opp d2)) in
    Ok {| Delta := delta; Gamma := gamma; Vega := vega; Theta := theta; Rho := rho |}.

End BlackScholes.

(** ** The binomial lattice pricer
       ([american_option_binomial], imported by [src/ui/options_helpers.py]) *)

Module Lattice.

(** Modelled from the spec: [src/models/binomial_pricing.py] is missing.
    Intrinsic value [max(0, s - K)] of a call, [max(0, K - s)] of a put
    (section 4.2, step 2). *)
Definition intrinsic (call : bool) (K s : R) : R :=
  if call then Rmax 0 (s - K) else Rmax 0 (K - s).

(** Modelled from the spec: [src/models/binomial_pricing.py] is missing.
    Spot price of node [i] at step [step]: [spot * u^i * d^(step - i)]. *)
Definition node_price (spot u d : R) (step i : nat) : R :=
  spot * u ^ i * d ^ (step - i).

(** Modelled from the spec: [src/models/binomial_pricing.py] is missing.
    Payoffs of the [steps + 1] terminal nodes, [i] from 0 to [steps]
    (section 4.2, step 2). *)
Definition terminal_layer (call : bool) (spot K u d : R) (steps : nat) : list R :=
  map (fun i => intrinsic call K (node_price spot u d steps i)) (seq 0 (S steps)).

(** Modelled from the spec: [src/models/binomial_pricing.py] is missing.
    One step of backward induction, from the layer at [step + 1] to the layer
    at [step] (section 4.2, step 3).  With [american] the node value is the
    larger of continuation and intrinsic value; without it, the continuation
    value alone. *)
Definition induct_layer (american call : bool) (spot K u d disc p : R)
    (step : nat) (next : list R) : list R :=
  map (fun i =>
         let continuation :=
           disc * (p * nth (S i) next 0 + (1 - p) * nth i next 0) in
         if american
         then Rmax continuation (intrinsic call K (node_price spot u d step i))
         else continuation)
      (seq 0 (S step)).

(** Modelled from the spec: [src/models/binomial_pricing.py] is missing.
    Backward induction from the layer at step [n] down to the layer at step 0,
    layer by layer. *)
Fixpoint backward_induction (american call : bool) (spot K u d disc p : R)
    (n : nat) (layer : list R) : list R :=
  match n with
  | O => layer
  | S m =>
      backward_induction american call spot K u d disc p m
        (induct_layer american call spot K u d disc p m layer)
  end.

(** Modelled from the spec: the source of [american_option_binomial]
    ([src/models/binomial_pricing.py]) is missing; this is the
    Cox-Ross-Rubinstein lattice of section 4.2 of the specification, with
    its failures [InvalidOptionKind], [InvalidStepCount] and
    [DegenerateLatticeError]. *)
Definition lattice_price (american : bool) (spot K r T vol : R) (steps : Z)
    (option_type : string) : result R :=
  if negb (String.eqb option_type "call" || String.eqb option_type "put")
  then Raise InvalidOptionKind
  else if (steps <? 1)%Z then Raise InvalidStepCount
  else
    let call := String.eqb option_type "call" in
    let n := Z.to_nat steps in
    let dt := T / INR n in
    let u := exp (vol * sqrt dt) in
    let d := 1 / u in
    if Req_dec_T u d then Raise DegenerateLatticeError
    else
      let p := (exp (r * dt) - d) / (u - d) in
      let disc := exp (- r * dt) in
      Ok (nth 0
            (backward_induction american call spot K u d disc p n
               (terminal_layer call spot K u d n))
            0).

(** Modelled from the spec: [american_option_binomial(S, K, r, T, sigma, N,
    option_type)], argument order as at its call site in
    [src/ui/options_helpers.py]; the node value is the larger of
    continuation and intrinsic value. *)
Definition american_option_binomial (S K r T sigma : R) (N : Z)
    (option_type : string) : result R :=
  lattice_price true S K r T sigma N option_type.

(** Modelled from the spec: the European valuation on the same lattice,
    which takes the continuation value at every node (section 4.2, step 3). *)
Definition european_option_binomial (S K r T sigma : R) (N : Z)
    (option_type : string) : result R :=
  lattice_price false S K r T sigma N option_type.

End Lattice.

(** ** [src/ui/visualizations/volatility_surface.py] *)

Module VolSurface.

(** One row of a quote table; the builder reads [row['strike']] and
    [row['impliedVolatility']] only.  A strike is a finite number; the
    implied volatility may be NaN or infinite. *)
Record row : Type := mk_row { strike : R; impliedVolatility : xreal }.

(** [options_data[exp_date]]: the [{"calls": .., "puts": ..}] tables. *)
Record chain : Type := mk_chain { calls : list row; puts : list row }.

(** [options_data] in the iteration order of its keys.  A key ['%Y-%m-%d']
    is represented by the ordinal of the date it parses to; the keys of a
    dictionary are distinct, and distinct keys denote distinct dates. *)
Definition options_data : Type := list (Z * chain).

(** A [datetime]: the ordinal of its date and the microseconds elapsed
    since midnight. *)
Record datetime : Type := mk_datetime { ordinal : Z; microsecond_of_day : Z }.

(** The microseconds of a day, the resolution of a [timedelta]. *)
Definition microseconds_per_day : Z := 86400000000.

(** [(expiry - today).days] for [expiry] at midnight of [exp_date]:
    a [timedelta] is normalised with its day count rounded down. *)
Definition days_until (today : datetime) (exp_date : Z) : Z :=
  (((exp_date - ordinal today) * microseconds_per_day - microsecond_of_day today)
     / microseconds_per_day)%Z.

(** The dictionary [iv_data], keyed by [(days, strike)], in insertion order. *)
Definition iv_dict : Type := list ((Z * R) * xreal).

(** Equality of two keys: tuples are equal component by component. *)
Definition key_eqb (k1 k2 : Z * R) : bool :=
  (k1.1 =? k2.1)%Z && Reqb k1.2 k2.2.

(** [k in iv_data] and [iv_data[k]] *)
Fixpoint dict_get (k : Z * R) (d : iv_dict) : option xreal :=
  match d with
  | [] => None
  | (k', v) :: rest => if key_eqb k k' then Some v else dict_get k rest
  end.

(** [iv_data[k] = v]: an existing key keeps its place and takes the new value. *)
Fixpoint dict_set (k : Z * R) (v : xreal) (d : iv_dict) : iv_dict :=
  match d with
  | [] => [(k, v)]
  | (k', v') :: rest =>
      if key_eqb k k' then (k', v) :: rest else (k', v') :: dict_set k v rest
  end.

(** [all_strikes.add(x)] on a set held as a list without repetition. *)
Definition set_add (x : R) (s : list R) : list R :=
  if existsb (Reqb x) s then s else s ++ [x].

(** The three structures filled by the extraction loop. *)
Record extraction : Type := mk_extraction {
  all_strikes : list R;
  all_days : list Z;
  iv_data : iv_dict
}.

(** [strike_range and (strike < strike_range[0] or strike > strike_range[1])] *)
Definition outside_range (strike_range : option (R * R)) (k : R) : bool :=
  match strike_range with
  | None => false
  | Some (lo, hi) => Rltb k lo || Rltb hi k
  end.

(** [not np.isnan(iv) and iv > 0] *)
Definition valid_iv (iv : xreal) : bool :=
  negb (XReal.isnan iv) && XReal.ltb (Fin 0) iv.

(** Body of the loop over the rows of one table. *)
Definition add_row (strike_range : option (R * R)) (days : Z)
    (st : extraction) (rw : row) : extraction :=
  if outside_range strike_range (strike rw) then st
  else if valid_iv (impliedVolatility rw) then
    {| all_strikes := set_add (strike rw) (all_strikes st);
       all_days := all_days st;
       iv_data := dict_set (days, strike rw) (impliedVolatility rw) (iv_data st) |}
  else st.

(** Python's [sorted] is a stable sort; it is modelled by insertion: [x] goes
    before the first item that is not smaller. *)
Fixpoint insert_sorted {A : Type} (le : A -> A -> bool) (x : A) (l : list A) : list A :=
  match l with
  | [] => [x]
  | y :: rest => if le x y then x :: y :: rest else y :: insert_sorted le x rest
  end.

(** [sorted(l)] *)
Definition sorted {A : Type} (le : A -> A -> bool) (l : list A) : list A :=
  fold_right (insert_sorted le) [] l.

(** Python's [min(l, key=..)] : the first item whose key is minimal;
    [ValueError] on an empty sequence. *)
Definition min_by {A : Type} (key : A -> R) (l : list A) : result A :=
  match l with
  | [] => Raise ValueError
  | x :: rest =>
      Ok (fold_left (fun best y => if Rltb (key y) (key best) then y else best) rest x)
  end.

(** Python's [max(l)] : the first maximal item. *)
Definition max_by {A : Type} (key : A -> R) (l : list A) : result A :=
  match l with
  | [] => Raise ValueError
  | x :: rest =>
      Ok (fold_left (fun best y => if Rltb (key best) (key y) then y else best) rest x)
  end.

(** [np.linspace(start, stop, num)]: [num] evenly spaced samples, both
    end points included. *)
Definition linspace (start stop : R) (num : nat) : list R :=
  map (fun i => start + INR i * ((stop - start) / INR (num - 1))) (seq 0 num).

(** [np.mean] of a list of floats; NaN (and a warning) on the empty list. *)
Definition np_mean (l : list xreal) : xreal :=
  XReal.div (fold_left XReal.add l (Fin 0)) (Fin (INR (length l))).

(** [enumerate(l)] *)
Definition enumerate {A : Type} (l : list A) : list (nat * A) :=
  combine (seq 0 (length l)) l.

(** [m[i, j] = v] on a two-dimensional array. *)
Definition set_cell (m : list (list xreal)) (i j : nat) (v : xreal)
  : result (list (list xreal)) :=
  match m !! i with
  | Some r => if decide (j < length r)%nat then Ok (<[i := <[j := v]> r]> m)
              else Raise IndexError
  | None => Raise IndexError
  end.

(** [m.T] of an array with [ncols] columns. *)
Definition transpose (ncols : nat) (m : list (list xreal)) : list (list xreal) :=
  map (fun j => map (fun r => default (Fin 0) (r !! j)) m) (seq 0 ncols).

(** [np.meshgrid(xs, ys)] with the default ['xy'] indexing. *)
Definition meshgrid (xs ys : list R) : list (list R) * list (list R) :=
  (map (fun _ => xs) ys, map (fun y => map (fun _ => y) xs) ys).

Section Builder.

(** The interpreter state the function reads besides its arguments: the
    value of [datetime.now()] and the order in which a [set] of floats is
    iterated. *)
Variable today : datetime.
Variable set_iter : list R -> list R.

(** Body of the loop over the expirations. *)
Definition add_expiration (strike_range : option (R * R))
    (st : extraction) (e : Z * chain) : extraction :=
  let days := days_until today e.1 in
  if (days <=? 0)%Z then st
  else
    let st1 := {| all_strikes := all_strikes st;
                  all_days := all_days st ++ [days];
                  iv_data := iv_data st |} in
    fold_left (fun st2 options => fold_left (add_row strike_range days) options st2)
              [calls e.2; puts e.2] st1.

(** The extraction loop, followed by the two [sorted] calls. *)
Definition extract (data : options_data) (strike_range : option (R * R))
  : extraction :=
  let st := fold_left (add_expiration strike_range) data
              {| all_strikes := []; all_days := []; iv_data := [] |} in
  {| all_strikes := sorted Rleb (set_iter (all_strikes st));
     all_days := sorted Z.leb (all_days st);
     iv_data := iv_data st |}.

(** Value of the grid node [(d, s)]: the body of the two nested loops. *)
Definition node_value (ex : extraction) (current_price d s : R) : result xreal :=
  closest_day ← min_by (fun x => Rabs (IZR x - d)) (all_days ex);
  closest_strike ← min_by (fun x => Rabs (x - s)) (all_strikes ex);
  match dict_get (closest_day, closest_strike) (iv_data ex) with
  | Some v => Ok v
  | None =>
      atm_strike ← min_by (fun x => Rabs (x - current_price)) (all_strikes ex);
      match dict_get (closest_day, atm_strike) (iv_data ex) with
      | Some v => Ok v
      | None =>
          Ok (np_mean (map snd
                 (List.filter (fun kv => (kv.1.1 =? closest_day)%Z) (iv_data ex))))
      end
  end.

(** The two nested loops filling [volatility_surface]. *)
Definition fill_surface (ex : extraction) (current_price : R)
    (days strikes : list R) (surface : list (list xreal))
  : result (list (list xreal)) :=
  for_each
    (fun surf '(i, d) =>
       for_each
         (fun surf' '(j, s) =>
            v ← node_value ex current_price d s;
            set_cell surf' i j v)
         (enumerate strikes) surf)
    (enumerate days) surface.

(** [interpolate_volatility_surface(options_data, current_price, strike_range=None)] *)
Definition interpolate_volatility_surface (data : options_data)
    (current_price : R) (strike_range : option (R * R))
  : result (list (list R) * list (list R) * list (list xreal)) :=
  let ex := extract data strike_range in
  range ← match strike_range with
          | Some rg => Ok rg
          | None =>
              lo ← min_by id (all_strikes ex);
              hi ← max_by id (all_strikes ex);
              Ok (lo, hi)
          end;
  let strike_points := 50%nat in
  let day_points := Nat.min 50 (length (all_days ex) * 5) in
  let strikes := linspace range.1 range.2 strike_points in
  first_day ← min_by IZR (all_days ex);
  last_day ← max_by IZR (all_days ex);
  let days := linspace (IZR first_day) (IZR last_day) day_points in
  let zeros := replicate (length days) (replicate (length strikes) (Fin 0)) in
  surface ← fill_surface ex current_price days strikes zeros;
  let '(Dm, Sm) := meshgrid days strikes in
  Ok (Dm, Sm, transpose (length strikes) surface).

End Builder.

End VolSurface.

(** ** [src/ui/visualizations/surface_helpers.py] *)

Module SurfaceHelpers.
Import VolSurface.

(** [create_mesh_grid(x_range, y_range, x_points=50, y_points=50)] *)
Definition create_mesh_grid (x_range y_range : R * R) (x_points y_points : nat)
  : list (list R) * list (list R) :=
  let x := linspace x_range.1 x_range.2 x_points in
  let y := linspace y_range.1 y_range.2 y_points in
  meshgrid x y.

(** [get_expiration_days(options_data)]; [today] is the value that
    [datetime.now()] returns. *)
Definition get_expiration_days (today : datetime) (data : options_data) : list Z :=
  let days_list :=
    fold_left (fun days_list e =>
                 let days := days_until today e.1 in
                 if (0 <? days)%Z then days_list ++ [days] else days_list)
              data [] in
  sorted Z.leb days_list.

End SurfaceHelpers.

(** ** [src/data/fetch_data.py] *)

Module FetchData.
Import VolSurface.

(** [options_data[exp] = c]: an existing key keeps its place. *)
Fixpoint chain_set (exp : Z) (c : chain) (d : options_data) : options_data :=
  match d with
  | [] => [(exp, c)]
  | (exp', c') :: rest =>
      if (exp =? exp')%Z then (exp', c) :: rest else (exp', c') :: chain_set exp c rest
  end.

Section Service.

(** The remote service behind [yf.Ticker(ticker)]: its state, the read of
    [stock.options] and the request [stock.option_chain(exp)] for the stock
    of a ticker.  Either may raise, and either may change the state. *)
Variable world : Type.
Variable options : string -> world -> result (list Z) * world.
Variable option_chain : string -> Z -> world -> result chain * world.

(** What the loop has built: the dictionary, the expirations whose error
    line was printed, and the state of the service. *)
Record fetched : Type := mk_fetched {
  options_data_of : options_data;
  printed : list Z;
  world_of : world
}.

(** Body of the loop over the expirations: the chain is requested twice,
    once for the calls and once for the puts; an exception of either
    request is caught and reported. *)
Definition fetch_expiration (ticker : string) (st : fetched) (exp : Z) : fetched :=
  let '(first, w1) := option_chain ticker exp (world_of st) in
  match first with
  | Raise _ =>
      {| options_data_of := options_data_of st;
         printed := printed st ++ [exp];
         world_of := w1 |}
  | Ok c1 =>
      let '(second, w2) := option_chain ticker exp w1 in
      match second with
      | Raise _ =>
          {| options_data_of := options_data_of st;
             printed := printed st ++ [exp];
             world_of := w2 |}
      | Ok c2 =>
          {| options_data_of :=
               chain_set exp {| calls := calls c1; puts := puts c2 |} (options_data_of st);
             printed := printed st;
             world_of := w2 |}
      end
  end.

(** [get_options_chain(ticker)] *)
Definition get_options_chain (ticker : string) (w : world) : result fetched * world :=
  let '(expirations, w0) := options ticker w in
  match expirations with
  | Raise e => (Raise e, w0)
  | Ok [] => (Raise ValueError, w0)
  | Ok exps =>
      let st := fold_left (fetch_expiration ticker) exps
                  {| options_data_of := []; printed := []; world_of := w0 |} in
      (Ok st, world_of st)
  end.

End Service.

End FetchData.

(** ** [src/ui/visualizations/option_price_surface.py] *)

Module PriceSurface.
Import XReal VolSurface.

(** [black_scholes_price] as the loop below runs it: the spot is an element
    of a numpy array, so that [S / K] is numpy's division, which returns an
    infinity or NaN on a zero divisor where Python's division raises.  The
    rest of the function is as in [BlackScholes.black_scholes_price]. *)
Definition black_scholes_price_np (S K T r sigma : xreal) (option_type : string)
  : result xreal :=
  if leb T (Fin 0) then
    Ok (if String.eqb option_type "call"
        then py_max (Fin 0) (sub S K)
        else py_max (Fin 0) (sub K S))
  else
    let q := div S K in
    let d1 := div (add (log q) (mul (add r (mul (Fin (1 / 2)) (pow2 sigma))) T))
                  (mul sigma (sqrt T)) in
    let d2 := sub d1 (mul sigma (sqrt T)) in
    if String.eqb option_type "call" then
      Ok (sub (mul S (norm_cdf d1))
              (mul (mul K (exp (mul (opp r) T))) (norm_cdf d2)))
    else if String.eqb option_type "put" then
      Ok (sub (mul (mul K (exp (mul (opp r) T))) (norm_cdf (opp d2)))
              (mul S (norm_cdf (opp d1))))
    else Raise ValueError.

(** [m[i, j]] *)
Definition get_cell (m : list (list R)) (i j : nat) : result R :=
  match m !! i ≫= (fun r => r !! j) with
  | Some v => Ok v
  | None => Raise IndexError
  end.

(** [m.shape[1]] of a two-dimensional array *)
Definition shape1 (m : list (list R)) : nat :=
  match m with
  | [] => 0
  | r :: _ => length r
  end.

(** [np.zeros_like(m)] *)
Definition zeros_like (m : list (list R)) : list (list xreal) :=
  map (map (fun _ => Fin 0)) m.

(** [create_option_price_surface(current_price, days_range, strike_range,
    volatility, risk_free_rate, option_type='call')], up to the arrays
    [x=S], [y=D] and [z=Z] of the surface trace: the plotly figure drawn from
    them is not modelled. *)
Definition create_option_price_surface (current_price : R)
    (days_range strike_range : R * R) (volatility risk_free_rate : R)
    (option_type : string)
  : result (list (list R) * list (list R) * list (list xreal)) :=
  let price_min := current_price * (7 / 10) in
  let price_max := current_price * (13 / 10) in
  let stock_prices := linspace price_min price_max 50 in
  let days := linspace days_range.1 days_range.2 50 in
  let '(Sm, Dm) := meshgrid stock_prices days in
  Zm ← for_each
         (fun Zm i =>
            for_each
              (fun Zm' j =>
                 stock_price ← get_cell Sm i j;
                 days_to_expiry ← get_cell Dm i j;
                 let years_to_expiry := days_to_expiry / 365 in
                 let strike_price :=
                   strike_range.1 + (strike_range.2 - strike_range.1) / 2 in
                 v ← black_scholes_price_np (Fin stock_price) (Fin strike_price)
                       (Fin years_to_expiry) (Fin risk_free_rate) (Fin volatility)
                       option_type;
                 set_cell Zm' i j v)
              (seq 0 (shape1 Sm)) Zm)
         (seq 0 (length Sm)) (zeros_like Sm);
  Ok (Sm, Dm, Zm).

End PriceSurface.

(** ** [src/models/black_scholes.py] over IEEE 754 doubles

    A second embedding of [black_scholes_price], over floats that keep what
    the reals above forget: the sign of a zero, rounding, overflow and
    underflow.  The properties that depend on these are stated over it. *)

Module F64.

(** A double: a finite number ([Finite 0] is [+0.0]), the negative zero
    [-0.0], an infinity with its sign, or NaN. *)
Inductive float : Type :=
  | Finite (x : R)
  | MinusZero
  | Infinity (negative : bool)
  | NotANumber.

Definition zero (negative : bool) : float :=
  if negative then MinusZero else Finite 0.

Definition is_zero (a : float) : bool :=
  match a with
  | Finite x => Reqb x 0
  | MinusZero => true
  | _ => false
  end.

(** The sign bit; that of NaN is never looked at. *)
Definition signbit (a : float) : bool :=
  match a with
  | Finite x => Rltb x 0
  | MinusZero => true
  | Infinity negative => negative
  | NotANumber => false
  end.

(** The number that a finite float stands for. *)
Definition value (a : float) : R :=
  match a with
  | Finite x => x
  | _ => 0
  end.

(** The sign of a float that is neither a zero nor NaN: [Some true] for a
    negative one. *)
Definition sign (a : float) : option bool :=
  match a with
  | Finite x => if Reqb x 0 then None else Some (Rltb x 0)
  | Infinity negative => Some negative
  | MinusZero | NotANumber => None
  end.

(** What the processor and the libraries return on finite operands, with the
    facts about them that the properties below use.  [round] takes the exact
    result of an addition, a multiplication or a division, when it is not
    zero, to the double that is returned: the nearest one, a zero on
    underflow, an infinity on overflow; it keeps the sign, and what it
    returns is a double.  [sqrt_fl], [log_fl], [exp_fl] and [cdf_fl] are
    [np.sqrt] and [np.log] on a positive double, [np.exp] and
    [stats.norm.cdf] on a finite one: a positive root, [log(1.0) = 0.0], and
    an exponential that is not negative and may overflow. *)
Record arithmetic : Type := {
  round : R -> float;
  sqrt_fl : R -> R;
  log_fl : R -> R;
  exp_fl : R -> float;
  cdf_fl : R -> R;
  round_one : round 1 = Finite 1;
  round_idem : forall x y : R, round x = Finite y -> round y = Finite y;
  round_range : forall x : R, 0 < x ->
    round x = Infinity false \/ exists y : R, round x = Finite y /\ 0 <= y;
  sqrt_fl_pos : forall x : R, 0 < x -> 0 < sqrt_fl x;
  log_fl_one : log_fl 1 = 0;
  exp_fl_range : forall x : R,
    exp_fl x = Infinity false \/ exists y : R, exp_fl x = Finite y /\ 0 <= y
}.

Section Operations.
Variable A : arithmetic.

(** [- a] *)
Definition opp (a : float) : float :=
  match a with
  | Finite x => if Reqb x 0 then MinusZero else Finite (- x)
  | MinusZero => Finite 0
  | Infinity negative => Infinity (negb negative)
  | NotANumber => NotANumber
  end.

(** [a + b]: a zero added to a number leaves it, two zeros give [-0.0] only
    when both are negative, and an exact sum that cancels is [+0.0]. *)
Definition add (a b : float) : float :=
  match a, b with
  | NotANumber, _ | _, NotANumber => NotANumber
  | Infinity s, Infinity t => if Bool.eqb s t then Infinity s else NotANumber
  | Infinity s, _ | _, Infinity s => Infinity s
  | _, _ =>
      if is_zero a then
        if is_zero b then zero (signbit a && signbit b) else b
      else if is_zero b then a
      else if Reqb (value a + value b) 0 then Finite 0
      else round A (value a + value b)
  end.

(** [a - b] *)
Definition sub (a b : float) : float := add a (opp b).

(** [a * b]: the sign of a zero or infinite product is the product of the
    signs, and [0 * inf] is NaN. *)
Definition mul (a b : float) : float :=
  match a, b with
  | NotANumber, _ | _, NotANumber => NotANumber
  | Infinity s, c | c, Infinity s =>
      if is_zero c then NotANumber else Infinity (xorb s (signbit c))
  | _, _ =>
      if is_zero a || is_zero b then zero (xorb (signbit a) (signbit b))
      else round A (value a * value b)
  end.

(** numpy's [a / b]: a zero divisor gives a signed infinity, or NaN under a
    zero, and never an exception. *)
Definition div (a b : float) : float :=
  match a, b with
  | NotANumber, _ | _, NotANumber => NotANumber
  | Infinity _, Infinity _ => NotANumber
  | Infinity s, _ => Infinity (xorb s (signbit b))
  | _, Infinity t => zero (xorb (signbit a) t)
  | _, _ =>
      if is_zero b then
        if is_zero a then NotANumber else Infinity (xorb (signbit a) (signbit b))
      else if is_zero a then zero (xorb (signbit a) (signbit b))
      else round A (value a / value b)
  end.

(** Python's [a / b] on two Python floats: a zero divisor, of either sign,
    raises. *)
Definition py_div (a b : float) : result float :=
  if is_zero b then Raise ZeroDivisionError else Ok (div a b).

(** Python's [a ** 2] on a Python float: an overflow raises. *)
Definition py_pow2 (a : float) : result float :=
  match a with
  | Finite x =>
      if Reqb x 0 then Ok (Finite 0)
      else match round A (x * x) with
           | Infinity _ => Raise OverflowError
           | v => Ok v
           end
  | MinusZero => Ok (Finite 0)
  | Infinity _ => Ok (Infinity false)
  | NotANumber => Ok NotANumber
  end.

(** [np.sqrt] *)
Definition sqrt (a : float) : float :=
  match a with
  | Finite x =>
      if Rltb x 0 then NotANumber
      else if Reqb x 0 then Finite 0
      else Finite (sqrt_fl A x)
  | MinusZero => MinusZero
  | Infinity negative => if negative then NotANumber else Infinity false
  | NotANumber => NotANumber
  end.

(** [np.log] *)
Definition log (a : float) : float :=
  match a with
  | Finite x =>
      if Rltb x 0 then NotANumber
      else if Reqb x 0 then Infinity true
      else Finite (log_fl A x)
  | MinusZero => Infinity true
  | Infinity negative => if negative then NotANumber else Infinity false
  | NotANumber => NotANumber
  end.

(** [np.exp] *)
Definition exp (a : float) : float :=
  match a with
  | Finite x => if Reqb x 0 then Finite 1 else exp_fl A x
  | MinusZero => Finite 1
  | Infinity negative => if negative then Finite 0 else Infinity false
  | NotANumber => NotANumber
  end.

(** [stats.norm.cdf] *)
Definition norm_cdf (a : float) : float :=
  match a with
  | Finite x => Finite (cdf_fl A x)
  | MinusZero => Finite (cdf_fl A 0)
  | Infinity negative => if negative then Finite 0 else Finite 1
  | NotANumber => NotANumber
  end.

(** [a < b], [a <= b]: false on NaN, and the two zeros are equal. *)
Definition ltb (a b : float) : bool :=
  match a, b with
  | NotANumber, _ | _, NotANumber => false
  | Infinity s, Infinity t => s && negb t
  | Infinity s, _ => s
  | _, Infinity t => negb t
  | _, _ => Rltb (value a) (value b)
  end.

Definition leb (a b : float) : bool :=
  match a, b with
  | NotANumber, _ | _, NotANumber => false
  | Infinity s, Infinity t => s || negb t
  | Infinity s, _ => s
  | _, Infinity t => negb t
  | _, _ => Rleb (value a) (value b)
  end.

(** Python's builtin [max(a, b)] *)
Definition py_max (a b : float) : float := if ltb a b then b else a.

(** [black_scholes_price(S, K, T, r, sigma, option_type="call")] on Python
    floats, as the docstring has it: [S / K] and [sigma ** 2] are Python's
    and may raise, in this order; the other operations of lines 22 to 28
    never raise.  (On numpy scalars these two do not raise either.) *)
Definition black_scholes_price (S K T r sigma : float) (option_type : string)
  : result float :=
  if leb T (Finite 0) then
    Ok (if String.eqb option_type "call"
        then py_max (Finite 0) (sub S K)
        else py_max (Finite 0) (sub K S))
  else
    q ← py_div S K;
    sigma2 ← py_pow2 sigma;
    let d1 := div (add (log q) (mul (add r (mul (Finite (1 / 2)) sigma2)) T))
                  (mul sigma (sqrt T)) in
    let d2 := sub d1 (mul sigma (sqrt T)) in
    if String.eqb option_type "call" then
      Ok (sub (mul S (norm_cdf d1))
              (mul (mul K (exp (mul (opp r) T))) (norm_cdf d2)))
    else if String.eqb option_type "put" then
      Ok (sub (mul (mul K (exp (mul (opp r) T))) (norm_cdf (opp d2)))
              (mul S (norm_cdf (opp d1))))
    else Raise ValueError.

End Operations.

(** Exact arithmetic: no rounding, no overflow, and the library functions
    are the real ones. *)
Definition exact : arithmetic.
Proof.
  refine {| round := Finite;
            sqrt_fl := R_sqrt.sqrt;
            log_fl := ln;
            exp_fl := fun x => Finite (Rtrigo_def.exp x);
            cdf_fl := Phi |}.
  - reflexivity.
  - intros x y H. reflexivity.
  - intros x Hx. right. exists x. split; [reflexivity | lra].
  - intros x Hx. now apply sqrt_lt_R0.
  - apply ln_1.
  - intros x. right. exists (Rtrigo_def.exp x). split; [reflexivity |].
    left. apply exp_pos.
Defined.

End F64.

(** * Properties *)

(** ** The normal distribution *)

Lemma Rdiv_nonneg (a b : R) : 0 <= a -> 0 < b -> 0 <= a / b.
Proof. intros Ha Hb. unfold Rdiv. now apply Rle_mult_inv_pos. Qed.

Lemma Phi_opp (x : R) : Phi (- x) = / 2 - gauss_int 0 x / (2 * gauss_half_mass).
Proof. unfold Phi. rewrite gauss_int_odd. unfold Rdiv. ring. Qed.

(** The mass ratio [gauss_int 0 x / (2 * gauss_half_mass)] lies in [[0, 1/2]]. *)
Lemma gauss_ratio_bounds (x : R) :
  0 <= x -> 0 <= gauss_int 0 x / (2 * gauss_half_mass) <= / 2.
Proof.
  intros Hx.
  pose proof gauss_half_mass_pos as HG.
  pose proof (gauss_int_nonneg 0 x Hx) as H0.
  pose proof (gauss_int_le_half_mass x Hx) as H1.
  split.
  - apply Rdiv_nonneg; lra.
  - apply Rmult_le_reg_r with (2 * gauss_half_mass); [lra|].
    unfold Rdiv. rewrite Rmult_assoc, Rinv_l by lra. lra.
Qed.

(** Symmetry: [Phi x + Phi (- x) = 1]. *)
Lemma Phi_symmetry (x : R) : Phi x + Phi (- x) = 1.
Proof. rewrite Phi_opp. unfold Phi. lra. Qed.

(** [Phi] is a probability. *)
Lemma Phi_range (x : R) : 0 <= Phi x <= 1.
Proof.
  destruct (Rle_dec 0 x) as [Hx | Hx].
  - unfold Phi. pose proof (gauss_ratio_bounds x Hx). lra.
  - rewrite <- (Ropp_involutive x), Phi_opp.
    pose proof (gauss_ratio_bounds (- x)). lra.
Qed.

Lemma Phi_ge_half (x : R) : 0 <= x -> / 2 <= Phi x.
Proof. intros Hx. unfold Phi. pose proof (gauss_ratio_bounds x Hx). lra. Qed.

(** Mills-type bound on the lower tail: [Phi (- y)] is at most
    [exp (- y^2 / 2) / (2 * gauss_half_mass * y)]. *)
Lemma Phi_lower_tail (y : R) :
  0 < y -> Phi (- y) <= exp (- (y * y) / 2) / y / (2 * gauss_half_mass).
Proof.
  intros Hy. rewrite Phi_opp.
  pose proof gauss_half_mass_pos as HG.
  pose proof (gauss_half_mass_tail y Hy) as Ht.
  apply Rmult_le_reg_r with (2 * gauss_half_mass); [lra|].
  unfold Rdiv. rewrite Rmult_minus_distr_r.
  rewrite !Rmult_assoc, !Rinv_l by lra. unfold Rdiv in Ht. lra.
Qed.

Lemma phi_nonneg (x : R) : 0 <= phi x.
Proof.
  unfold phi, gauss. apply Rdiv_nonneg.
  - left. apply exp_pos.
  - apply sqrt_lt_R0. pose proof PI_RGT_0. lra.
Qed.

(** ** Black-Scholes on finite inputs *)

Module BlackScholesFacts.
Import BlackScholes.

(** The auxiliary quantities [d1] and [d2] as real numbers. *)
Definition d1_of (S K T r sigma : R) : R :=
  (ln (S / K) + (r + 1 / 2 * (sigma * sigma)) * T) / (sigma * sqrt T).

Definition d2_of (S K T r sigma : R) : R :=
  d1_of S K T r sigma - sigma * sqrt T.

(** Evaluation of the float operations on finite arguments. *)
Lemma Rleb_true (x y : R) : x <= y -> Rleb x y = true.
Proof. intros H. unfold Rleb. destruct (Rle_dec x y); [reflexivity | lra]. Qed.

Lemma Rleb_false (x y : R) : y < x -> Rleb x y = false.
Proof. intros H. unfold Rleb. destruct (Rle_dec x y); [lra | reflexivity]. Qed.

Lemma Rltb_true (x y : R) : x < y -> Rltb x y = true.
Proof. intros H. unfold Rltb. destruct (Rlt_dec x y); [reflexivity | lra]. Qed.

Lemma Rltb_false (x y : R) : y <= x -> Rltb x y = false.
Proof. intros H. unfold Rltb. destruct (Rlt_dec x y); [lra | reflexivity]. Qed.

Lemma div_fin (x y : R) : y <> 0 -> XReal.div (Fin x) (Fin y) = Fin (x / y).
Proof. intros H. cbn. destruct (Req_dec_T y 0); [contradiction | reflexivity]. Qed.

Lemma py_div_fin (x y : R) : y <> 0 -> XReal.py_div (Fin x) (Fin y) = Ok (Fin (x / y)).
Proof.
  intros H. unfold XReal.py_div. rewrite div_fin by exact H.
  destruct (Req_dec_T y 0); [contradiction | reflexivity].
Qed.

Lemma log_fin (x : R) : 0 < x -> XReal.log (Fin x) = Fin (ln x).
Proof. intros H. cbn. destruct (Rlt_dec 0 x); [reflexivity | lra]. Qed.

Lemma sqrt_fin (x : R) : 0 <= x -> XReal.sqrt (Fin x) = Fin (sqrt x).
Proof. intros H. cbn. destruct (Rle_dec 0 x); [reflexivity | lra]. Qed.

Lemma py_max_fin (x y : R) : XReal.py_max (Fin x) (Fin y) = Fin (if Rltb x y then y else x).
Proof. unfold XReal.py_max. cbn. destruct (Rltb x y); reflexivity. Qed.

Ltac eval_floats :=
  repeat first
    [ progress cbn [XReal.leb XReal.ltb XReal.mul XReal.add XReal.sub XReal.opp
                    XReal.pow2 XReal.exp XReal.isnan norm_cdf norm_pdf
                    mbind result_bind]
    | rewrite py_max_fin
    | rewrite sqrt_fin by lra
    | rewrite log_fin by lra
    | rewrite div_fin by lra
    | rewrite py_div_fin by lra
    | rewrite Rleb_true by lra
    | rewrite Rleb_false by lra
    | rewrite Rltb_true by lra
    | rewrite Rltb_false by lra ].

Lemma price_expired (S K : R) (T r sigma : xreal) (option_type : string) :
  XReal.leb T (Fin 0) = true ->
  black_scholes_price (Fin S) (Fin K) T r sigma option_type =
  Ok (Fin (if String.eqb option_type "call" then Rmax 0 (S - K) else Rmax 0 (K - S))).
Proof.
  intros HT. unfold black_scholes_price. rewrite HT.
  destruct (String.eqb option_type "call"); eval_floats;
    unfold Rltb, Rmax, Rminus;
    repeat match goal with
      | |- context [Rle_dec ?a ?b] => destruct (Rle_dec a b)
      | |- context [Rlt_dec ?a ?b] => destruct (Rlt_dec a b)
      end; do 2 f_equal; lra.
Qed.

Lemma price_live (S K T r sigma : R) (option_type : string) :
  0 < S -> 0 < K -> 0 < T -> 0 < sigma ->
  black_scholes_price (Fin S) (Fin K) (Fin T) (Fin r) (Fin sigma) option_type =
  if String.eqb option_type "call" then
    Ok (Fin (S * Phi (d1_of S K T r sigma)
             - K * exp (- r * T) * Phi (d2_of S K T r sigma)))
  else if String.eqb option_type "put" then
    Ok (Fin (K * exp (- r * T) * Phi (- d2_of S K T r sigma)
             - S * Phi (- d1_of S K T r sigma)))
  else Raise ValueError.
Proof.
  intros HS HK HT Hsig.
  assert (0 < S / K) by now apply Rdiv_lt_0_compat.
  assert (0 < sigma * sqrt T)
    by (apply Rmult_lt_0_compat; [exact Hsig | now apply sqrt_lt_R0]).
  unfold black_scholes_price. eval_floats.
  destruct (String.eqb option_type "call"); [reflexivity|].
  destruct (String.eqb option_type "put"); reflexivity.
Qed.

Lemma greeks_expired (S K T r sigma : xreal) (option_type : string) :
  XReal.leb T (Fin 0) = true ->
  black_scholes_greeks S K T r sigma option_type =
  Ok {| Delta := Fin 0; Gamma := Fin 0; Vega := Fin 0; Theta := Fin 0; Rho := Fin 0 |}.
Proof. intros HT. unfold black_scholes_greeks. now rewrite HT. Qed.

Lemma greeks_live (S K T r sigma : R) (option_type : string) :
  0 < S -> 0 < K -> 0 < T -> 0 < sigma ->
  let call := String.eqb option_type "call" in
  let d1 := d1_of S K T r sigma in
  let d2 := d2_of S K T r sigma in
  black_scholes_greeks (Fin S) (Fin K) (Fin T) (Fin r) (Fin sigma) option_type =
  Ok {| Delta := Fin (if call then Phi d1 else Phi d1 - 1);
        Gamma := Fin (phi d1 / (S * sigma * sqrt T));
        Vega := Fin (S * phi d1 * sqrt T);
        Theta := Fin (- S * phi d1 * sigma / (2 * sqrt T)
                      - r * K * exp (- r * T) * Phi (if call then d2 else - d2));
        Rho := Fin (K * T * exp (- r * T) * Phi (if call then d2 else - d2)) |}.
Proof.
  intros HS HK HT Hsig call d1 d2. subst call d1 d2.
  assert (0 < S / K) by now apply Rdiv_lt_0_compat.
  assert (0 < sqrt T) by now apply sqrt_lt_R0.
  assert (0 < sigma * sqrt T) by now apply Rmult_lt_0_compat.
  assert (0 < S * sigma * sqrt T)
    by (rewrite Rmult_assoc; now apply Rmult_lt_0_compat).
  unfold black_scholes_greeks. eval_floats.
  destruct (String.eqb option_type "call"); eval_floats; reflexivity.
Qed.

End BlackScholesFacts.

Import BlackScholes BlackScholesFacts.

(** ** Doubles: zero volatility and NaN *)

Module F64Facts.
Import F64.

Lemma Reqb_true (x : R) : Reqb x x = true.
Proof. unfold Reqb. destruct (Req_dec_T x x); congruence. Qed.

Lemma Reqb_false (x y : R) : x <> y -> Reqb x y = false.
Proof. intros H. unfold Reqb. destruct (Req_dec_T x y); congruence. Qed.

(** Case analysis on the comparisons of reals that a goal tests. *)
Ltac real_tests :=
  repeat (cbn; unfold Reqb, Rltb, Rleb;
          match goal with
          | |- context [Req_dec_T ?a ?b] => destruct (Req_dec_T a b)
          | |- context [Rlt_dec ?a ?b] => destruct (Rlt_dec a b)
          | |- context [Rle_dec ?a ?b] => destruct (Rle_dec a b)
          end; try lra);
  cbn; try reflexivity; try lra; try (f_equal; lra).

Lemma opp_zero (negative : bool) : opp (zero negative) = zero (negb negative).
Proof. destruct negative; real_tests. Qed.

Section Arithmetic.
Variable A : arithmetic.

Lemma leb_live (T : R) : 0 < T -> leb (Finite T) (Finite 0) = false.
Proof. intros H. real_tests. Qed.

Lemma py_div_live (S K : R) :
  K <> 0 -> py_div A (Finite S) (Finite K) = Ok (div A (Finite S) (Finite K)).
Proof. intros H. unfold py_div. cbn [is_zero]. now rewrite Reqb_false. Qed.

Lemma py_pow2_zero (negative : bool) : py_pow2 A (zero negative) = Ok (Finite 0).
Proof. destruct negative; real_tests. Qed.

Lemma mul_zero_r (x : R) : 0 <= x -> mul A (Finite x) (Finite 0) = Finite 0.
Proof. intros H. real_tests. Qed.

Lemma mul_zero_l_pos (x : R) : 0 <= x -> mul A (Finite 0) (Finite x) = Finite 0.
Proof. intros H. real_tests. Qed.

Lemma add_zero_r (x : R) : add A (Finite x) (Finite 0) = Finite x.
Proof. real_tests. Qed.

Lemma mul_one_r (x : R) : round A x = Finite x -> mul A (Finite x) (Finite 1) = Finite x.
Proof. intros H. real_tests. rewrite Rmult_1_r. exact H. Qed.

Lemma sub_zero_zero : sub A (Finite 0) (Finite 0) = Finite 0.
Proof. unfold sub. real_tests. Qed.

Lemma sqrt_live (T : R) : 0 < T -> sqrt A (Finite T) = Finite (sqrt_fl A T).
Proof. intros H. real_tests. Qed.

(** A zero volatility makes the divisor of [d1] a zero of the same sign. *)
Lemma zero_times_sqrt (negative : bool) (T : R) :
  0 < T -> mul A (zero negative) (sqrt A (Finite T)) = zero negative.
Proof.
  intros H. rewrite sqrt_live by exact H.
  pose proof (sqrt_fl_pos A T H) as Ht.
  destruct negative; real_tests.
Qed.

(** A division by a zero: NaN under a zero or NaN, otherwise the infinity
    whose sign is the product of the two signs. *)
Lemma div_by_zero (n : float) (negative : bool) :
  div A n (zero negative) =
  match sign n with
  | None => NotANumber
  | Some s => Infinity (xorb s negative)
  end.
Proof.
  destruct n as [x | | s |], negative; real_tests.
Qed.

(** The discounted strike, when it is finite, is a double that is not
    negative. *)
Lemma exp_range (e : float) :
  exp A e = NotANumber \/ exp A e = Infinity false \/
  exists y : R, exp A e = Finite y /\ 0 <= y.
Proof.
  destruct e as [x | | s |]; cbn.
  - destruct (Reqb x 0); [right; right; exists 1; split; [reflexivity | lra] |].
    right. apply exp_fl_range.
  - right. right. exists 1. split; [reflexivity | lra].
  - destruct s; [right; right; exists 0; split; [reflexivity | lra] | right; now left].
  - now left.
Qed.

Lemma discounted_strike_finite (K f : R) (e : float) :
  0 < K -> mul A (Finite K) (exp A e) = Finite f ->
  0 <= f /\ mul A (Finite f) (Finite 1) = Finite f.
Proof.
  intros HK HF.
  destruct (exp_range e) as [He | [He | (y & He & Hy)]]; rewrite He in HF.
  - discriminate.
  - cbn in HF. destruct (Reqb K 0); discriminate.
  - cbn in HF. rewrite (Reqb_false K 0) in HF by lra. cbn [orb] in HF.
    unfold Reqb in HF. destruct (Req_dec_T y 0) as [-> | Hy0].
    + rewrite !Rltb_false in HF by lra. cbn in HF. injection HF as <-.
      split; [lra |]. apply mul_zero_l_pos. lra.
    + assert (0 < K * y) by (apply Rmult_lt_0_compat; lra).
      destruct (round_range A (K * y)) as [Hr | (z & Hr & Hz)]; [assumption | congruence |].
      assert (z = f) by congruence. subst z. split; [exact Hz |].
      apply mul_one_r. exact (round_idem A _ _ HF).
Qed.

(** NaN is absorbing. *)
Lemma add_nan_r (a : float) : add A a NotANumber = NotANumber.
Proof. destruct a; reflexivity. Qed.

Lemma mul_nan_l (b : float) : mul A NotANumber b = NotANumber.
Proof. reflexivity. Qed.

Lemma mul_nan_r (a : float) : mul A a NotANumber = NotANumber.
Proof. destruct a; reflexivity. Qed.

Lemma div_nan_r (a : float) : div A a NotANumber = NotANumber.
Proof. destruct a; reflexivity. Qed.

Lemma sub_nan_l (b : float) : sub A NotANumber b = NotANumber.
Proof. reflexivity. Qed.

Lemma sub_nan_r (a : float) : sub A a NotANumber = NotANumber.
Proof. unfold sub. cbn [opp]. apply add_nan_r. Qed.

(** [sigma ** 2] either overflows or returns, NaN on NaN. *)
Lemma py_pow2_cases (sigma : float) :
  py_pow2 A sigma = Raise OverflowError \/
  exists v : float, py_pow2 A sigma = Ok v /\ (sigma = NotANumber -> v = NotANumber).
Proof.
  destruct sigma as [x | | s |]; cbn.
  - destruct (Reqb x 0); [right; eexists; split; [reflexivity | discriminate] |].
    destruct (round A (x * x)); try (right; eexists; split; [reflexivity | discriminate]).
    now left.
  - right; eexists; split; [reflexivity | discriminate].
  - right; eexists; split; [reflexivity | discriminate].
  - right; eexists; split; [reflexivity | reflexivity].
Qed.

(** The prices under a zero volatility: [d1] and [d2] are the quotient of the
    numerator by the zero. *)
Lemma price_at_zero_volatility (S K T r : R) (negative : bool) (option_type : string) :
  0 < K -> 0 < T ->
  let n := add A (log A (div A (Finite S) (Finite K))) (mul A (Finite r) (Finite T)) in
  let F := mul A (Finite K) (exp A (mul A (opp (Finite r)) (Finite T))) in
  let d := match sign n with
           | None => NotANumber
           | Some s => Infinity (xorb s negative)
           end in
  black_scholes_price A (Finite S) (Finite K) (Finite T) (Finite r) (zero negative)
    option_type =
  if String.eqb option_type "call" then
    Ok (sub A (mul A (Finite S) (norm_cdf A d)) (mul A F (norm_cdf A d)))
  else if String.eqb option_type "put" then
    Ok (sub A (mul A F (norm_cdf A (opp d))) (mul A (Finite S) (norm_cdf A (opp d))))
  else Raise ValueError.
Proof.
  intros HK HT n F d. unfold black_scholes_price.
  rewrite leb_live by exact HT.
  rewrite py_div_live by lra. cbn [mbind result_bind].
  rewrite py_pow2_zero. cbn [mbind result_bind].
  rewrite (mul_zero_r (1 / 2)) by lra. rewrite add_zero_r.
  rewrite zero_times_sqrt by exact HT.
  fold n. fold F. rewrite div_by_zero. fold d.
  assert (Hd : sub A d (zero negative) = d).
  { unfold sub. rewrite opp_zero. unfold d.
    destruct (sign n) as [s |]; destruct negative; reflexivity. }
  rewrite Hd. reflexivity.
Qed.

(** With the spot at the strike and a zero rate the numerator of [d1] is
    [+0.0]. *)
Lemma numerator_at_the_money (K T : R) :
  0 < K -> 0 < T ->
  add A (log A (div A (Finite K) (Finite K))) (mul A (Finite 0) (Finite T)) = Finite 0.
Proof.
  intros HK HT.
  assert (Hq : div A (Finite K) (Finite K) = Finite 1).
  { cbn. rewrite Reqb_false by lra. cbn.
    replace (K / K) with 1 by (field; lra). apply round_one. }
  assert (Hl : log A (Finite 1) = Finite 0).
  { cbn. rewrite Rltb_false, Reqb_false by lra. now rewrite log_fl_one. }
  rewrite Hq, Hl, mul_zero_l_pos by lra. real_tests.
Qed.

End Arithmetic.

(** *** Exact arithmetic

    Without rounding, and away from the zero divisors, the two embeddings
    of [black_scholes_price] return the same number. *)

Definition of_xreal (a : xreal) : float :=
  match a with
  | Fin x => Finite x
  | PInf => Infinity false
  | NInf => Infinity true
  | NaN => NotANumber
  end.

Lemma exact_add (x y : R) : add exact (Finite x) (Finite y) = Finite (x + y).
Proof. real_tests. Qed.

Lemma exact_sub (x y : R) : sub exact (Finite x) (Finite y) = Finite (x - y).
Proof. unfold sub. real_tests. Qed.

Lemma exact_mul (x y : R) :
  x <> 0 \/ 0 <= y -> y <> 0 \/ 0 <= x -> mul exact (Finite x) (Finite y) = Finite (x * y).
Proof. intros Hx Hy. real_tests; f_equal; nra. Qed.

Lemma exact_div (x y : R) : 0 < y -> div exact (Finite x) (Finite y) = Finite (x / y).
Proof. intros Hy. real_tests. f_equal. subst x. field. lra. Qed.

Lemma exact_discount (r T : R) :
  0 < T ->
  exp exact (mul exact (opp (Finite r)) (Finite T)) = Finite (Rtrigo_def.exp (- r * T)).
Proof.
  intros HT. destruct (Req_dec_T r 0) as [-> | Hr].
  - replace (- 0 * T) with 0 by ring. rewrite exp_0. real_tests.
  - assert (- r * T <> 0) by nra.
    cbn [opp]. rewrite Reqb_false by exact Hr.
    rewrite exact_mul by (first [left; lra | right; lra]). cbn. now rewrite Reqb_false.
Qed.

Lemma exact_cdf_opp (x : R) : norm_cdf exact (opp (Finite x)) = Finite (Phi (- x)).
Proof.
  cbn. unfold Reqb. destruct (Req_dec_T x 0) as [-> | _]; [| reflexivity].
  cbn. now rewrite Ropp_0.
Qed.

Lemma exact_arithmetic_agrees (S K T r sigma : R) (option_type : string) :
  0 < S -> 0 < K -> 0 < T -> 0 < sigma ->
  F64.black_scholes_price exact (Finite S) (Finite K) (Finite T) (Finite r) (Finite sigma)
    option_type =
  v ← BlackScholes.black_scholes_price (Fin S) (Fin K) (Fin T) (Fin r) (Fin sigma)
        option_type;
  Ok (of_xreal v).
Proof.
  intros HS HK HT Hsig.
  rewrite price_live by assumption.
  assert (0 < S / K) by now apply Rdiv_lt_0_compat.
  assert (0 < R_sqrt.sqrt T) by now apply sqrt_lt_R0.
  assert (0 < sigma * R_sqrt.sqrt T) by now apply Rmult_lt_0_compat.
  assert (0 < K * Rtrigo_def.exp (- r * T))
    by (apply Rmult_lt_0_compat; [exact HK | apply exp_pos]).
  unfold F64.black_scholes_price.
  rewrite leb_live by exact HT.
  rewrite py_div_live, exact_div by lra. cbn [mbind result_bind].
  assert (Hp : py_pow2 exact (Finite sigma) = Ok (Finite (sigma * sigma))).
  { cbn. now rewrite Reqb_false by lra. }
  rewrite Hp. cbn [mbind result_bind].
  assert (Hl : log exact (Finite (S / K)) = Finite (ln (S / K))).
  { cbn. now rewrite Rltb_false, Reqb_false by lra. }
  rewrite Hl, sqrt_live by exact HT. cbn [sqrt_fl exact].
  rewrite (exact_mul (1 / 2)) by (first [left; lra | right; lra]).
  rewrite exact_add.
  rewrite (exact_mul _ T) by (first [left; lra | right; lra]).
  rewrite exact_add.
  rewrite (exact_mul sigma) by (first [left; lra | right; lra]).
  rewrite exact_div by assumption.
  rewrite exact_sub, exact_discount by exact HT.
  rewrite (exact_mul K) by (first [left; lra | right; lra]).
  rewrite !exact_cdf_opp. cbn [norm_cdf cdf_fl exact].
  rewrite !(exact_mul S), !(exact_mul (K * _)) by (first [left; lra | right; lra]).
  rewrite !exact_sub.
  destruct (String.eqb option_type "call"); [reflexivity |].
  destruct (String.eqb option_type "put"); reflexivity.
Qed.

End F64Facts.

(** ** C1: put-call parity *)

(** C1, as stated, fails for an expiry in the past: at [T = -1] with rate 5%
    both prices are intrinsic values, whose difference [spot - strike] is not
    [spot - strike * exp (- rate * T)]. *)
Lemma put_call_parity_fails_for_negative_time :
  exists c p : R,
    black_scholes_price (Fin 100) (Fin 100) (Fin (-1)) (Fin (5 / 100)) (Fin (2 / 10)) "call"
      = Ok (Fin c) /\
    black_scholes_price (Fin 100) (Fin 100) (Fin (-1)) (Fin (5 / 100)) (Fin (2 / 10)) "put"
      = Ok (Fin p) /\
    c - p <> 100 - 100 * exp (- (5 / 100) * -1).
Proof.
  exists (Rmax 0 (100 - 100)), (Rmax 0 (100 - 100)).
  split; [| split].
  - apply (price_expired 100 100). cbn. apply Rleb_true. lra.
  - apply (price_expired 100 100). cbn. apply Rleb_true. lra.
  - assert (1 + 5 / 100 < exp (- (5 / 100) * -1)).
    { replace (- (5 / 100) * -1) with (5 / 100) by lra. apply exp_ineq1. lra. }
    lra.
Qed.

(** C1 (amended): for spot, strike and volatility positive and [T >= 0] (or
    a zero rate when [T < 0]) the call and put prices for identical inputs
    satisfy [call - put = spot - strike * exp (- rate * T)]. *)
Theorem put_call_parity (S K T r sigma : R) :
  0 < S -> 0 < K -> 0 < sigma -> 0 <= T \/ r = 0 ->
  exists c p : R,
    black_scholes_price (Fin S) (Fin K) (Fin T) (Fin r) (Fin sigma) "call" = Ok (Fin c) /\
    black_scholes_price (Fin S) (Fin K) (Fin T) (Fin r) (Fin sigma) "put" = Ok (Fin p) /\
    c - p = S - K * exp (- r * T).
Proof.
  intros HS HK Hsig HT.
  destruct (Rlt_dec 0 T) as [Hlive | Hdead].
  - eexists _, _. split; [| split].
    + rewrite (price_live S K T r sigma "call") by assumption. reflexivity.
    + rewrite (price_live S K T r sigma "put") by assumption. reflexivity.
    + pose proof (Phi_symmetry (d1_of S K T r sigma)).
      pose proof (Phi_symmetry (d2_of S K T r sigma)).
      nra.
  - exists (Rmax 0 (S - K)), (Rmax 0 (K - S)). split; [| split].
    + apply (price_expired S K). cbn. apply Rleb_true. lra.
    + apply (price_expired S K). cbn. apply Rleb_true. lra.
    + replace (- r * T) with 0 by (destruct HT; [assert (T = 0) by lra |]; subst; ring).
      rewrite exp_0. unfold Rmax.
      destruct (Rle_dec 0 (S - K)), (Rle_dec 0 (K - S)); lra.
Qed.

Lemma put_call_parity_witness :
  exists c p : R,
    black_scholes_price (Fin 150) (Fin 160) (Fin (1 / 2)) (Fin (2 / 100)) (Fin (25 / 100)) "call"
      = Ok (Fin c) /\
    black_scholes_price (Fin 150) (Fin 160) (Fin (1 / 2)) (Fin (2 / 100)) (Fin (25 / 100)) "put"
      = Ok (Fin p) /\
    c - p = 150 - 160 * exp (- (2 / 100) * (1 / 2)).
Proof.
  apply (put_call_parity 150 160 (1 / 2) (2 / 100) (25 / 100)); lra.
Defined.

(** ** C2: the zero-time boundary *)

(** C2: with [T <= 0] the price is the intrinsic value, whatever the rate and
    the volatility. *)
Theorem zero_time_intrinsic (S K T : R) (r sigma : xreal) :
  0 < S -> 0 < K -> T <= 0 ->
  black_scholes_price (Fin S) (Fin K) (Fin T) r sigma "call" = Ok (Fin (Rmax 0 (S - K))) /\
  black_scholes_price (Fin S) (Fin K) (Fin T) r sigma "put" = Ok (Fin (Rmax 0 (K - S))).
Proof.
  intros _ _ HT. split; apply (price_expired S K); cbn; apply Rleb_true; exact HT.
Qed.

(** The two boundary examples: strike 160 at [T = 0] is worth 0 at spot 150
    and 10 at spot 170. *)
Lemma zero_time_intrinsic_examples :
  black_scholes_price (Fin 150) (Fin 160) (Fin 0) (Fin (2 / 100)) (Fin (25 / 100)) "call"
    = Ok (Fin 0) /\
  black_scholes_price (Fin 170) (Fin 160) (Fin 0) (Fin (2 / 100)) (Fin (25 / 100)) "call"
    = Ok (Fin 10).
Proof.
  split.
  - rewrite (proj1 (zero_time_intrinsic 150 160 0 (Fin (2 / 100)) (Fin (25 / 100))
                      ltac:(lra) ltac:(lra) ltac:(lra))).
    do 2 f_equal. unfold Rmax. destruct (Rle_dec 0 (150 - 160)); lra.
  - rewrite (proj1 (zero_time_intrinsic 170 160 0 (Fin (2 / 100)) (Fin (25 / 100))
                      ltac:(lra) ltac:(lra) ltac:(lra))).
    do 2 f_equal. unfold Rmax. destruct (Rle_dec 0 (170 - 160)); lra.
Defined.

(** ** C3: zero volatility *)

(** The value of [d1] when the volatility is zero: an infinity or NaN. *)
Lemma price_zero_volatility (S K T r : R) (option_type : string) :
  0 < S -> 0 < K -> 0 < T ->
  let d1 := XReal.signed_inf (ln (S / K) + (r + 1 / 2 * (0 * 0)) * T) in
  let d2 := XReal.sub d1 (Fin (0 * sqrt T)) in
  let F := Fin (K * exp (- r * T)) in
  black_scholes_price (Fin S) (Fin K) (Fin T) (Fin r) (Fin 0) option_type =
  if String.eqb option_type "call" then
    Ok (XReal.sub (XReal.mul (Fin S) (norm_cdf d1)) (XReal.mul F (norm_cdf d2)))
  else if String.eqb option_type "put" then
    Ok (XReal.sub (XReal.mul F (norm_cdf (XReal.opp d2)))
                  (XReal.mul (Fin S) (norm_cdf (XReal.opp d1))))
  else Raise ValueError.
Proof.
  intros HS HK HT d1 d2 F. subst d1 d2 F.
  assert (0 < S / K) by now apply Rdiv_lt_0_compat.
  unfold black_scholes_price.
  cbn [XReal.leb]. rewrite Rleb_false by lra.
  rewrite py_div_fin by lra. cbn [mbind result_bind].
  rewrite log_fin, sqrt_fin by lra.
  cbn [XReal.pow2 XReal.mul XReal.add XReal.opp XReal.exp].
  assert (Hdiv : forall x, XReal.div (Fin x) (Fin (0 * sqrt T)) = XReal.signed_inf x).
  { intros x. cbn. destruct (Req_dec_T (0 * sqrt T) 0); [reflexivity | lra]. }
  rewrite Hdiv. reflexivity.
Qed.

(** C3, as stated, fails: at the money forward ([spot = strike], rate 0) a zero
    volatility makes [d1 = 0 / 0], and the NaN reaches the returned price. *)
Lemma zero_volatility_returns_nan :
  black_scholes_price (Fin 100) (Fin 100) (Fin 1) (Fin 0) (Fin 0) "call" = Ok NaN.
Proof.
  rewrite (price_zero_volatility 100 100 1 0 "call") by lra.
  cbn [String.eqb Ascii.eqb Bool.eqb].
  replace (ln (100 / 100) + (0 + 1 / 2 * (0 * 0)) * 1) with 0.
  - unfold XReal.signed_inf.
    destruct (Rlt_dec 0 0); [lra|]. reflexivity.
  - replace (100 / 100) with 1 by lra. rewrite ln_1. lra.
Qed.

(** C3 (amended): with a volatility that is zero, of either sign, and [T > 0]
    no branch handles the case and no exception is raised: the division by
    zero in [d1] follows IEEE 754.  Let the spot be a double (one that
    [round] leaves as it is), let [n] be the numerator [log(S / K) + r * T]
    as computed, and let the discounted strike, as computed, be a finite
    [f].  When [n] is a zero or NaN, as it is whenever [S = K] and [r = 0],
    both prices are NaN.  Otherwise [d1 = d2] is the infinity whose sign is
    that of [n] for [+0.0] and the opposite for [-0.0]: under [+inf] the
    call is [S - f] and the put is zero, under [-inf] the call is zero and
    the put is [f - S]. *)
Theorem zero_volatility_price (A : F64.arithmetic) (S K T r f : R) (negative : bool) :
  0 < S -> 0 < K -> 0 < T ->
  F64.round A S = F64.Finite S ->
  F64.mul A (F64.Finite K) (F64.exp A (F64.mul A (F64.opp (F64.Finite r)) (F64.Finite T)))
    = F64.Finite f ->
  let sigma := F64.zero negative in
  let n := F64.add A (F64.log A (F64.div A (F64.Finite S) (F64.Finite K)))
             (F64.mul A (F64.Finite r) (F64.Finite T)) in
  exists c p : F64.float,
    F64.black_scholes_price A (F64.Finite S) (F64.Finite K) (F64.Finite T) (F64.Finite r)
      sigma "call" = Ok c /\
    F64.black_scholes_price A (F64.Finite S) (F64.Finite K) (F64.Finite T) (F64.Finite r)
      sigma "put" = Ok p /\
    match F64.sign n with
    | None => c = F64.NotANumber /\ p = F64.NotANumber
    | Some s =>
        if xorb s negative
        then c = F64.Finite 0 /\ p = F64.sub A (F64.Finite f) (F64.Finite S)
        else c = F64.sub A (F64.Finite S) (F64.Finite f) /\ p = F64.Finite 0
    end /\
    (S = K -> r = 0 -> F64.sign n = None).
Proof.
  intros HS HK HT HrS HF sigma n. subst sigma.
  rewrite (F64Facts.price_at_zero_volatility A S K T r negative "call"),
          (F64Facts.price_at_zero_volatility A S K T r negative "put") by assumption.
  cbn [String.eqb Ascii.eqb Bool.eqb]. cbv zeta. fold n. rewrite HF.
  destruct (F64Facts.discounted_strike_finite A K f _ HK HF) as [Hf Hf1].
  eexists _, _. split; [reflexivity |]. split; [reflexivity |]. split.
  - destruct (F64.sign n) as [s |]; [| split; reflexivity].
    destruct (xorb s negative); cbn [F64.norm_cdf F64.opp negb].
    + rewrite !F64Facts.mul_zero_r by lra. rewrite F64Facts.sub_zero_zero.
      rewrite Hf1, F64Facts.mul_one_r by exact HrS. split; reflexivity.
    + rewrite !F64Facts.mul_zero_r by lra. rewrite F64Facts.sub_zero_zero.
      rewrite Hf1, F64Facts.mul_one_r by exact HrS. split; reflexivity.
  - intros -> ->. unfold n. rewrite F64Facts.numerator_at_the_money by assumption.
    cbn. now rewrite F64Facts.Reqb_true.
Qed.

Lemma zero_volatility_price_witness :
  F64.black_scholes_price F64.exact (F64.Finite 110) (F64.Finite 100) (F64.Finite 1)
    (F64.Finite (1 / 20)) F64.MinusZero "call" = Ok (F64.Finite 0) /\
  F64.black_scholes_price F64.exact (F64.Finite 110) (F64.Finite 100) (F64.Finite 1)
    (F64.Finite (1 / 20)) F64.MinusZero "put"
    = Ok (F64.Finite (100 * exp (- (1 / 20) * 1) - 110)).
Proof.
  assert (He : 0 < exp (- (1 / 20) * 1)) by apply exp_pos.
  destruct (zero_volatility_price F64.exact 110 100 1 (1 / 20)
              (100 * exp (- (1 / 20) * 1)) true)
    as (c & p & Hc & Hp & Hn & _).
  - lra.
  - lra.
  - lra.
  - reflexivity.
  - rewrite F64Facts.exact_discount by lra.
    apply F64Facts.exact_mul; left; lra.
  - change (F64.zero true) with F64.MinusZero in Hc, Hp.
    rewrite Hc, Hp. clear Hc Hp.
    assert (H0 : 0 < ln (110 / 100)).
    { rewrite <- ln_1. apply ln_increasing; lra. }
    assert (Hs : F64.sign
              (F64.add F64.exact
                 (F64.log F64.exact (F64.div F64.exact (F64.Finite 110) (F64.Finite 100)))
                 (F64.mul F64.exact (F64.Finite (1 / 20)) (F64.Finite 1))) = Some false).
    { rewrite F64Facts.exact_div by lra.
      assert (Hl : F64.log F64.exact (F64.Finite (110 / 100))
                   = F64.Finite (ln (110 / 100))) by F64Facts.real_tests.
      rewrite Hl, F64Facts.exact_mul, F64Facts.exact_add by (left; lra).
      cbn. rewrite F64Facts.Reqb_false, Rltb_false by lra. reflexivity. }
    rewrite Hs in Hn. cbn [xorb] in Hn. destruct Hn as [-> ->].
    split; [reflexivity |]. f_equal. apply F64Facts.exact_sub.
Defined.

(** ** C4: sign invariants of the Greeks *)

(** C4: for spot, strike and volatility positive and [T >= 0], the Greeks are
    returned with [Gamma >= 0], [Vega >= 0], a call [Delta] in [[0, 1]] and a
    put [Delta] in [[-1, 0]]. *)
Theorem greeks_sign_invariants (S K T r sigma : R) (option_type : string) :
  0 < S -> 0 < K -> 0 < sigma -> 0 <= T ->
  exists (g : greeks) (delta gamma vega : R),
    black_scholes_greeks (Fin S) (Fin K) (Fin T) (Fin r) (Fin sigma) option_type = Ok g /\
    Delta g = Fin delta /\ Gamma g = Fin gamma /\ Vega g = Fin vega /\
    0 <= gamma /\ 0 <= vega /\
    (option_type = "call"%string -> 0 <= delta <= 1) /\
    (option_type = "put"%string -> -1 <= delta <= 0).
Proof.
  intros HS HK Hsig HT.
  destruct (Rlt_dec 0 T) as [Hlive | Hdead].
  - rewrite (greeks_live S K T r sigma option_type) by assumption.
    eexists _, _, _, _. repeat split; cbn [Delta Gamma Vega].
    + pose proof (phi_nonneg (d1_of S K T r sigma)).
      assert (0 < sqrt T) by now apply sqrt_lt_R0.
      apply Rdiv_nonneg; [assumption|].
      apply Rmult_lt_0_compat; [now apply Rmult_lt_0_compat | assumption].
    + pose proof (phi_nonneg (d1_of S K T r sigma)).
      pose proof (sqrt_pos T).
      apply Rmult_le_pos; [apply Rmult_le_pos; lra | assumption].
    + subst option_type. cbn. apply Phi_range.
    + subst option_type. cbn. apply Phi_range.
    + subst option_type. cbn. pose proof (Phi_range (d1_of S K T r sigma)). lra.
    + subst option_type. cbn. pose proof (Phi_range (d1_of S K T r sigma)). lra.
  - rewrite greeks_expired by (cbn; apply Rleb_true; lra).
    eexists _, 0, 0, 0. repeat split; cbn [Delta Gamma Vega]; lra.
Qed.

Lemma greeks_sign_invariants_witness :
  exists (g : greeks) (delta gamma vega : R),
    black_scholes_greeks (Fin 150) (Fin 160) (Fin (1 / 2)) (Fin (2 / 100)) (Fin (25 / 100))
      "put" = Ok g /\
    Delta g = Fin delta /\ Gamma g = Fin gamma /\ Vega g = Fin vega /\
    0 <= gamma /\ 0 <= vega /\
    ("put"%string = "call"%string -> 0 <= delta <= 1) /\
    ("put"%string = "put"%string -> -1 <= delta <= 0).
Proof.
  apply (greeks_sign_invariants 150 160 (1 / 2) (2 / 100) (25 / 100) "put"); lra.
Defined.

(** ** C5: an option kind that is neither call nor put *)

(** On the live branch of [black_scholes_price] an unknown kind is rejected. *)
Lemma invalid_kind_rejected_when_live (S K T r sigma : R) (option_type : string) :
  0 < S -> 0 < K -> 0 < T -> 0 < sigma ->
  option_type <> "call"%string -> option_type <> "put"%string ->
  black_scholes_price (Fin S) (Fin K) (Fin T) (Fin r) (Fin sigma) option_type
  = Raise ValueError.
Proof.
  intros HS HK HT Hsig Hc Hp. rewrite price_live by assumption.
  apply String.eqb_neq in Hc, Hp. now rewrite Hc, Hp.
Qed.

(** Everywhere else an unknown kind is read as a put. *)
Lemma invalid_kind_read_as_put (S K T r sigma : xreal) (option_type : string) :
  option_type <> "call"%string ->
  black_scholes_greeks S K T r sigma option_type
  = black_scholes_greeks S K T r sigma "put" /\
  (XReal.leb T (Fin 0) = true ->
   black_scholes_price S K T r sigma option_type
   = black_scholes_price S K T r sigma "put").
Proof.
  intros Hc. apply String.eqb_neq in Hc.
  unfold black_scholes_greeks, black_scholes_price. rewrite Hc. cbn [String.eqb Ascii.eqb Bool.eqb].
  split; [reflexivity |]. intros HT. now rewrite HT.
Qed.

(** C5 (the code departs from the claim): with the kind ["straddle"] the
    expired branch of [black_scholes_price] returns the put intrinsic value
    and [black_scholes_greeks] returns the Greeks of a put; neither raises. *)
Theorem invalid_kind_not_surfaced :
  black_scholes_price (Fin 90) (Fin 100) (Fin 0) (Fin (5 / 100)) (Fin (2 / 10)) "straddle"
    = Ok (Fin 10) /\
  exists g : greeks,
    black_scholes_greeks (Fin 90) (Fin 100) (Fin 1) (Fin (5 / 100)) (Fin (2 / 10)) "straddle"
      = Ok g /\
    black_scholes_greeks (Fin 90) (Fin 100) (Fin 1) (Fin (5 / 100)) (Fin (2 / 10)) "put"
      = Ok g.
Proof.
  split.
  - rewrite (price_expired 90 100) by (cbn; apply Rleb_true; lra).
    cbn [String.eqb Ascii.eqb Bool.eqb]. do 2 f_equal.
    unfold Rmax. destruct (Rle_dec 0 (100 - 90)); lra.
  - rewrite (proj1 (invalid_kind_read_as_put _ _ _ _ _ "straddle" ltac:(discriminate))).
    rewrite (greeks_live 90 100 1 (5 / 100) (2 / 10) "put") by lra.
    eexists. split; reflexivity.
Qed.

(** ** C9: the American lattice price against the European prices *)

Module LatticeFacts.
Import Lattice.

(** Reading a layer built by [map] over the node indices. *)
Lemma nth_map_seq (f : nat -> R) (n i : nat) :
  nth i (map f (seq 0 n)) 0 = if lt_dec i n then f i else 0.
Proof.
  destruct (lt_dec i n) as [Hi | Hi].
  - rewrite (nth_indep _ 0 (f 0%nat)) by (rewrite length_map, length_seq; exact Hi).
    rewrite map_nth, seq_nth by exact Hi. reflexivity.
  - apply nth_overflow. rewrite length_map, length_seq. lia.
Qed.

(** A layer [lo] lies below a layer [hi] when it does so node by node. *)
Definition layer_le (lo hi : list R) : Prop :=
  forall i : nat, nth i lo 0 <= nth i hi 0.

Section Dominance.
Variables (call : bool) (spot K u d disc p : R).
Hypothesis disc_nonneg : 0 <= disc.
Hypothesis p_range : 0 <= p <= 1.

(** One induction step keeps the American layer above the European one. *)
Lemma induct_layer_dominates (step : nat) (lo hi : list R) :
  layer_le lo hi ->
  layer_le (induct_layer false call spot K u d disc p step lo)
           (induct_layer true call spot K u d disc p step hi).
Proof using disc_nonneg p_range.
  intros Hle i. unfold induct_layer. rewrite !nth_map_seq.
  destruct (lt_dec i (S step)); [| lra].
  pose proof (Hle i) as H0. pose proof (Hle (S i)) as H1.
  eapply Rle_trans; [| apply Rmax_l].
  apply Rmult_le_compat_l; [exact disc_nonneg |]. nra.
Qed.

Lemma backward_induction_dominates (n : nat) (lo hi : list R) :
  layer_le lo hi ->
  layer_le (backward_induction false call spot K u d disc p n lo)
           (backward_induction true call spot K u d disc p n hi).
Proof using disc_nonneg p_range.
  revert lo hi. induction n as [| n IH]; intros lo hi Hle; cbn [backward_induction].
  - exact Hle.
  - apply IH. now apply induct_layer_dominates.
Qed.

End Dominance.

(** With one step or more, the American value at the root is at least the
    value of immediate exercise. *)
Lemma root_at_least_intrinsic (call : bool) (spot K u d disc p : R)
    (n : nat) (layer : list R) :
  (0 < n)%nat ->
  intrinsic call K spot
  <= nth 0 (backward_induction true call spot K u d disc p n layer) 0.
Proof.
  revert layer. induction n as [| n IH]; intros layer Hn; [lia |].
  cbn [backward_induction]. destruct n as [| n].
  - cbn [backward_induction]. unfold induct_layer. cbn [seq map nth].
    unfold node_price. cbn [Nat.sub pow].
    replace (spot * 1 * 1) with spot by ring. apply Rmax_r.
  - apply IH. lia.
Qed.

(** The lattice parameters of a live option with positive volatility. *)
Lemma up_factor_gt_1 (T sigma : R) (n : nat) :
  0 < T -> 0 < sigma -> (0 < n)%nat -> 1 < exp (sigma * sqrt (T / INR n)).
Proof.
  intros HT Hsig Hn. rewrite <- exp_0. apply exp_increasing.
  apply Rmult_lt_0_compat; [exact Hsig |]. apply sqrt_lt_R0.
  apply Rdiv_lt_0_compat; [exact HT |]. now apply lt_0_INR.
Qed.

Lemma lattice_price_live (american : bool) (S K r T sigma : R) (N : Z) :
  0 < T -> 0 < sigma -> (1 <= N)%Z ->
  let n := Z.to_nat N in
  let dt := T / INR n in
  let u := exp (sigma * sqrt dt) in
  let d := 1 / u in
  lattice_price american S K r T sigma N "put" =
  Ok (nth 0
        (backward_induction american false S K u d (exp (- r * dt))
           ((exp (r * dt) - d) / (u - d)) n (terminal_layer false S K u d n))
        0).
Proof.
  intros HT Hsig HN n dt u d. unfold lattice_price.
  cbn [String.eqb Ascii.eqb Bool.eqb orb negb].
  destruct (N <? 1)%Z eqn:E; [apply Z.ltb_lt in E; lia |].
  fold n. fold dt. fold u. fold d.
  destruct (Req_dec_T u d) as [Hud | Hud]; [| reflexivity].
  exfalso. pose proof (up_factor_gt_1 T sigma n HT Hsig ltac:(lia)) as Hu.
  fold dt in Hu. fold u in Hu.
  assert (d < 1).
  { unfold d. apply Rmult_lt_reg_r with u; [lra |]. field_simplify; lra. }
  lra.
Qed.

End LatticeFacts.

(** Elementary bounds on the exponential. *)
Lemma exp_INR_bounds (n : nat) : 2 ^ n <= exp (INR n) <= 3 ^ n.
Proof.
  induction n as [| n IH].
  - cbn. rewrite exp_0. lra.
  - rewrite S_INR, exp_plus. cbn [pow].
    pose proof exp_le_3 as H3. pose proof (exp_ineq1 1 ltac:(lra)) as H2.
    assert (0 < 2 ^ n) by (apply pow_lt; lra).
    destruct IH as [IHl IHu]. split; nra.
Qed.

Lemma exp_half_lt_2 : exp (/ 2) < 2.
Proof.
  pose proof exp_le_3 as H3. pose proof (exp_pos (/ 2)) as Hp.
  replace 1 with (/ 2 + / 2) in H3 by lra. rewrite exp_plus in H3. nra.
Qed.

(** [d1^2 - d2^2 = 2 * (ln (S / K) + r * T)]. *)
Lemma d1_d2_squares (S K T r sigma : R) :
  0 < T -> 0 < sigma ->
  let d1 := d1_of S K T r sigma in
  let d2 := d2_of S K T r sigma in
  d1 * d1 - d2 * d2 = 2 * (ln (S / K) + r * T).
Proof.
  intros HT Hsig d1 d2.
  assert (Hs : 0 < sqrt T) by now apply sqrt_lt_R0.
  assert (Hss : sqrt T * sqrt T = T) by (apply sqrt_sqrt; lra).
  assert (Hb : d1 * (sigma * sqrt T) = ln (S / K) + (r + 1 / 2 * (sigma * sigma)) * T).
  { unfold d1, d1_of. field. split; lra. }
  unfold d2, d2_of. fold d1. nra.
Qed.

(** A put that is out of the money by more than half of the total variance
    has a positive Black-Scholes price as soon as [d1 >= 2]. *)
Lemma bs_put_positive (S K T r sigma : R) :
  0 < S -> 0 < K -> 0 < T -> 0 < sigma ->
  d2_of S K T r sigma <= 0 -> 2 <= d1_of S K T r sigma ->
  0 < K * exp (- r * T) * Phi (- d2_of S K T r sigma)
      - S * Phi (- d1_of S K T r sigma).
Proof.
  intros HS HK HT Hsig Hd2 Hd1.
  pose proof (d1_d2_squares S K T r sigma HT Hsig) as Hsq. cbv zeta in Hsq.
  set (d1 := d1_of S K T r sigma) in *. set (d2 := d2_of S K T r sigma) in *.
  pose proof (Phi_ge_half (- d2) ltac:(lra)) as Hhalf.
  pose proof (Phi_lower_tail d1 ltac:(lra)) as Htail.
  pose proof gauss_half_mass_pos as HG. pose proof gauss_half_mass_lower as HGl.
  set (F := K * exp (- r * T)).
  assert (HF : 0 < F) by (apply Rmult_lt_0_compat; [exact HK | apply exp_pos]).
  assert (HSK : 0 < S / K) by now apply Rdiv_lt_0_compat.
  assert (Hid : S * exp (- (d1 * d1) / 2) = F * exp (- (d2 * d2) / 2)).
  { replace (- (d1 * d1) / 2) with (- (d2 * d2) / 2 + (- ln (S / K) + - r * T)) by lra.
    rewrite !exp_plus, exp_Ropp, exp_ln by exact HSK. unfold F. field. lra. }
  assert (Hle1 : exp (- (d2 * d2) / 2) <= 1).
  { rewrite <- exp_0. apply exp_le_mono. nra. }
  assert (HGd : 1 < gauss_half_mass * d1).
  { assert (/ 2 < exp (- / 2)).
    { rewrite exp_Ropp. apply Rinv_lt_contravar; [| apply exp_half_lt_2].
      pose proof (exp_pos (/ 2)). lra. }
    nra. }
  assert (Hq : S * (exp (- (d1 * d1) / 2) / d1 / (2 * gauss_half_mass))
               = F * exp (- (d2 * d2) / 2) / (2 * (gauss_half_mass * d1))).
  { rewrite <- Hid. field. split; lra. }
  set (q := F * exp (- (d2 * d2) / 2) / (2 * (gauss_half_mass * d1))) in *.
  assert (Hq2 : q * (2 * (gauss_half_mass * d1)) = F * exp (- (d2 * d2) / 2)).
  { unfold q. field. split; lra. }
  assert (Hlt : 2 * q < F) by nra.
  assert (S * Phi (- d1) <= q) by (rewrite <- Hq; apply Rmult_le_compat_l; lra).
  nra.
Qed.

Import Lattice LatticeFacts.

(** C9, as stated, fails: a one-step lattice gives a far out-of-the-money put
    the value 0 (both terminal nodes lie above the strike), below the positive
    Black-Scholes price. *)
Lemma american_lattice_below_black_scholes :
  exists a p : R,
    american_option_binomial 10000 100 (5 / 100) 1 4 1 "put" = Ok a /\
    black_scholes_price (Fin 10000) (Fin 100) (Fin 1) (Fin (5 / 100)) (Fin 4) "put"
      = Ok (Fin p) /\
    a < p.
Proof.
  eexists _, _. split; [| split].
  - unfold american_option_binomial.
    rewrite (lattice_price_live true 10000 100 (5 / 100) 1 4 1) by (lra || lia).
    reflexivity.
  - rewrite (price_live 10000 100 1 (5 / 100) 4 "put") by lra. reflexivity.
  - change (Z.to_nat 1) with 1%nat. cbn [INR].
    replace (1 / 1) with 1 by lra. rewrite sqrt_1, Rmult_1_r.
    cbn [backward_induction terminal_layer induct_layer map seq nth intrinsic].
    unfold node_price. cbn [Nat.sub pow].
    pose proof (exp_INR_bounds 4) as [_ Hu]. cbn [pow] in Hu.
    replace (INR 4) with 4 in Hu by (cbn; lra).
    pose proof (exp_INR_bounds 7) as [Hl7 _]. cbn [pow] in Hl7.
    replace (INR 7) with 7 in Hl7 by (cbn; lra).
    pose proof (exp_pos 4) as Hpos.
    assert (Hd : 100 <= 10000 * (1 / exp 4)).
    { apply Rmult_le_reg_r with (exp 4); [exact Hpos |]. field_simplify; lra. }
    assert (Hu1 : 1 < exp 4) by (rewrite <- exp_0; apply exp_increasing; lra).
    rewrite !(Rmax_left 0) by nra.
    replace (exp (- (5 / 100) * 1) * ((exp (5 / 100 * 1) - 1 / exp 4) / (exp 4 - 1 / exp 4) * 0
               + (1 - (exp (5 / 100 * 1) - 1 / exp 4) / (exp 4 - 1 / exp 4)) * 0)) with 0 by ring.
    rewrite Rmax_left by lra.
    assert (Hln : 0 < ln (10000 / 100) < 7).
    { replace (10000 / 100) with 100 by lra. split.
      - rewrite <- ln_1. apply ln_increasing; lra.
      - rewrite <- (ln_exp 7). apply ln_increasing; lra. }
    apply bs_put_positive; try lra.
    + unfold d2_of, d1_of. rewrite sqrt_1.
      replace (4 * 1) with 4 by lra. unfold Rdiv at 1. lra.
    + unfold d1_of. rewrite sqrt_1. replace (4 * 1) with 4 by lra. unfold Rdiv at 1. lra.
Qed.

(** C9 (amended): for a put with positive rate, volatility and time, at least
    one step, and [rate * dt <= vol * sqrt dt] (so that the risk-neutral
    probability is at most 1), the American lattice price is at least the
    European price computed on the same lattice, and at least the value
    [max(0, strike - spot)] of immediate exercise. *)
Theorem american_lattice_dominates_european_lattice (S K r T sigma : R) (N : Z) :
  0 < r -> 0 < T -> 0 < sigma -> (1 <= N)%Z ->
  r * (T / IZR N) <= sigma * sqrt (T / IZR N) ->
  exists a e : R,
    american_option_binomial S K r T sigma N "put" = Ok a /\
    european_option_binomial S K r T sigma N "put" = Ok e /\
    e <= a /\ Rmax 0 (K - S) <= a.
Proof.
  intros Hr HT Hsig HN Hp.
  unfold american_option_binomial, european_option_binomial.
  rewrite !lattice_price_live by assumption.
  eexists _, _. split; [reflexivity | split; [reflexivity |]].
  split; [| apply (root_at_least_intrinsic false); lia].
  assert (Hn : INR (Z.to_nat N) = IZR N) by (rewrite INR_IZR_INZ, Z2Nat.id; [reflexivity | lia]).
  pose proof (up_factor_gt_1 T sigma (Z.to_nat N) HT Hsig ltac:(lia)) as Hu.
  rewrite Hn in *.
  set (dt := T / IZR N) in *. set (u := exp (sigma * sqrt dt)) in *.
  assert (Hdt : 0 < dt) by (apply Rdiv_lt_0_compat; [exact HT | apply IZR_lt; lia]).
  assert (Hd : 0 < 1 / u < 1).
  { split; [apply Rdiv_lt_0_compat; lra |].
    apply Rmult_lt_reg_r with u; [lra |]. field_simplify; lra. }
  assert (HE : 1 < exp (r * dt) <= u).
  { split; [rewrite <- exp_0; apply exp_increasing; nra | now apply exp_le_mono]. }
  apply backward_induction_dominates.
  - left. apply exp_pos.
  - split.
    + apply Rdiv_nonneg; lra.
    + assert (Hinv : 0 < / (u - 1 / u)) by (apply Rinv_0_lt_compat; lra).
      apply Rle_trans with ((u - 1 / u) / (u - 1 / u)).
      * unfold Rdiv at 1 3. apply Rmult_le_compat_r; lra.
      * right. unfold Rdiv at 1. apply Rinv_r. lra.
  - intros i. lra.
Qed.

Lemma american_lattice_dominates_european_lattice_witness :
  exists a e : R,
    american_option_binomial 100 100 (5 / 100) 1 (2 / 10) 4 "put" = Ok a /\
    european_option_binomial 100 100 (5 / 100) 1 (2 / 10) 4 "put" = Ok e /\
    e <= a /\ Rmax 0 (100 - 100) <= a.
Proof.
  apply (american_lattice_dominates_european_lattice 100 100 (5 / 100) 1 (2 / 10) 4);
    try lra; try lia.
  replace (1 / 4) with (/ 2 * / 2) by lra.
  rewrite sqrt_square by lra. lra.
Defined.

(** ** The volatility surface builder *)

Module SurfaceFacts.
Import VolSurface.

(** *** [min] and [max] with a key *)

(** [x] is the first item of [l] whose key is minimal. *)
Definition first_min {A : Type} (key : A -> R) (l : list A) (x : A) : Prop :=
  exists l1 l2 : list A,
    l = l1 ++ x :: l2 /\
    (forall y, In y l1 -> key x < key y) /\
    (forall y, In y l2 -> key x <= key y).

(** [x] is an item of [l] whose key is maximal. *)
Definition is_max {A : Type} (key : A -> R) (l : list A) (x : A) : Prop :=
  In x l /\ forall y, In y l -> key y <= key x.

Lemma first_min_fold {A : Type} (key : A -> R) (rest pre : list A) (best : A) :
  first_min key pre best ->
  first_min key (pre ++ rest)
    (fold_left (fun best y => if Rltb (key y) (key best) then y else best) rest best).
Proof.
  revert pre best. induction rest as [| y rest IH]; intros pre best Hbest.
  - rewrite app_nil_r. exact Hbest.
  - cbn [fold_left]. replace (pre ++ y :: rest) with ((pre ++ [y]) ++ rest)
      by (rewrite <- app_assoc; reflexivity).
    apply IH. destruct Hbest as (l1 & l2 & -> & H1 & H2).
    unfold Rltb. destruct (Rlt_dec (key y) (key best)) as [Hlt | Hge].
    + exists (l1 ++ best :: l2), []. split; [reflexivity |]. split.
      * intros z Hz. apply in_app_or in Hz. destruct Hz as [Hz | [<- | Hz]].
        -- specialize (H1 z Hz). lra.
        -- exact Hlt.
        -- specialize (H2 z Hz). lra.
      * intros z [].
    + exists l1, (l2 ++ [y]). split; [now rewrite <- app_assoc |]. split.
      * exact H1.
      * intros z Hz. apply in_app_or in Hz. destruct Hz as [Hz | [<- | []]].
        -- now apply H2.
        -- lra.
Qed.

(** [min(l, key=..)] returns the first minimal item. *)
Lemma min_by_first_min {A : Type} (key : A -> R) (l : list A) (x : A) :
  min_by key l = Ok x -> first_min key l x.
Proof.
  destruct l as [| a rest]; [discriminate |]. cbn [min_by]. intros [= <-].
  apply (first_min_fold key rest [a] a).
  exists [], []. split; [reflexivity |]. split; intros z [].
Qed.

Lemma first_min_In {A : Type} (key : A -> R) (l : list A) (x : A) :
  first_min key l x -> In x l /\ forall y, In y l -> key x <= key y.
Proof.
  intros (l1 & l2 & -> & H1 & H2). split.
  - apply in_or_app. right. now left.
  - intros y Hy. apply in_app_or in Hy. destruct Hy as [Hy | [<- | Hy]].
    + left. now apply H1.
    + lra.
    + now apply H2.
Qed.

Lemma is_max_fold {A : Type} (key : A -> R) (rest pre : list A) (best : A) :
  is_max key pre best ->
  is_max key (pre ++ rest)
    (fold_left (fun best y => if Rltb (key best) (key y) then y else best) rest best).
Proof.
  revert pre best. induction rest as [| y rest IH]; intros pre best Hbest.
  - rewrite app_nil_r. exact Hbest.
  - cbn [fold_left]. replace (pre ++ y :: rest) with ((pre ++ [y]) ++ rest)
      by (rewrite <- app_assoc; reflexivity).
    apply IH. destruct Hbest as [Hin Hmax].
    unfold Rltb. destruct (Rlt_dec (key best) (key y)) as [Hlt | Hge]; split.
    + apply in_or_app. right. now left.
    + intros z Hz. apply in_app_or in Hz. destruct Hz as [Hz | [<- | []]].
      * specialize (Hmax z Hz). lra.
      * lra.
    + apply in_or_app. now left.
    + intros z Hz. apply in_app_or in Hz. destruct Hz as [Hz | [<- | []]].
      * now apply Hmax.
      * lra.
Qed.

Lemma max_by_is_max {A : Type} (key : A -> R) (l : list A) (x : A) :
  max_by key l = Ok x -> is_max key l x.
Proof.
  destruct l as [| a rest]; [discriminate |]. cbn [max_by]. intros [= <-].
  apply (is_max_fold key rest [a] a). split; [now left |].
  intros z [<- | []]. lra.
Qed.

Lemma min_by_nonempty {A : Type} (key : A -> R) (l : list A) :
  l <> [] -> exists x, min_by key l = Ok x.
Proof. destruct l; [congruence |]. intros _. eexists. reflexivity. Qed.

Lemma max_by_nonempty {A : Type} (key : A -> R) (l : list A) :
  l <> [] -> exists x, max_by key l = Ok x.
Proof. destruct l; [congruence |]. intros _. eexists. reflexivity. Qed.

(** *** [sorted] *)

Lemma insert_sorted_perm {A : Type} (le : A -> A -> bool) (x : A) (l : list A) :
  Permutation (insert_sorted le x l) (x :: l).
Proof.
  induction l as [| y l IH]; cbn [insert_sorted]; [reflexivity |].
  destruct (le x y); [reflexivity |].
  rewrite IH. apply perm_swap.
Qed.

Lemma sorted_perm {A : Type} (le : A -> A -> bool) (l : list A) :
  Permutation (sorted le l) l.
Proof.
  induction l as [| x l IH]; cbn; [reflexivity |].
  fold (sorted le l). rewrite insert_sorted_perm. now constructor.
Qed.

(** On the reals, insertions commute: the order of the insertions does not
    show in the sorted list. *)
Lemma insert_sorted_comm (a b : R) (l : list R) :
  insert_sorted Rleb a (insert_sorted Rleb b l)
  = insert_sorted Rleb b (insert_sorted Rleb a l).
Proof.
  induction l as [| y l IH].
  - cbn. unfold Rleb. destruct (Rle_dec a b), (Rle_dec b a); try reflexivity.
    + assert (a = b) by lra. now subst.
    + lra.
  - cbn [insert_sorted]. unfold Rleb in *.
    destruct (Rle_dec b y), (Rle_dec a y); cbn [insert_sorted]; unfold Rleb;
      repeat match goal with
        | |- context [Rle_dec ?u ?v] => destruct (Rle_dec u v)
        end;
      try reflexivity; try lra.
    + assert (a = b) by lra. now subst.
    + now rewrite IH.
Qed.

(** The sorted list of a set of reals does not depend on the order in which the
    set is iterated. *)
Lemma sorted_order_irrelevant (l l' : list R) :
  Permutation l l' -> sorted Rleb l = sorted Rleb l'.
Proof.
  induction 1 as [| x l l' _ IH | x y l | l l' l'' _ IH1 _ IH2].
  - reflexivity.
  - cbn. fold (sorted Rleb l) (sorted Rleb l'). now rewrite IH.
  - cbn. fold (sorted Rleb l). apply insert_sorted_comm.
  - now rewrite IH1.
Qed.

(** [sorted] returns its items in increasing order. *)
Section Sortedness.
Context {A : Type} (le : A -> A -> bool) (rel : A -> A -> Prop).
Hypothesis le_rel : forall a b, le a b = true -> rel a b.
Hypothesis le_total : forall a b, le a b = false -> rel b a.
Hypothesis rel_trans : forall a b c, rel a b -> rel b c -> rel a c.

Lemma insert_sorted_increasing (x : A) (l : list A) :
  StronglySorted rel l -> StronglySorted rel (insert_sorted le x l).
Proof using le_rel le_total rel_trans.
  induction l as [| y l IH]; intros Hl; cbn [insert_sorted].
  - constructor; constructor.
  - apply StronglySorted_inv in Hl. destruct Hl as [Hl Hy].
    rewrite List.Forall_forall in Hy.
    destruct (le x y) eqn:E.
    + constructor; [now constructor; [| apply List.Forall_forall] |].
      apply List.Forall_forall. intros z [<- | Hz].
      * now apply le_rel.
      * apply rel_trans with y; [now apply le_rel | now apply Hy].
    + constructor; [now apply IH |].
      apply List.Forall_forall. intros z Hz.
      apply (Permutation_in _ (insert_sorted_perm le x l)) in Hz.
      destruct Hz as [<- | Hz]; [now apply le_total | now apply Hy].
Qed.

Lemma sorted_increasing (l : list A) : StronglySorted rel (sorted le l).
Proof using le_rel le_total rel_trans.
  induction l as [| x l IH]; cbn; [constructor |].
  now apply insert_sorted_increasing.
Qed.

End Sortedness.

Lemma sorted_Rleb_increasing (l : list R) : StronglySorted Rle (sorted Rleb l).
Proof.
  apply sorted_increasing; unfold Rleb; intros a b;
    try destruct (Rle_dec a b); intros; try discriminate; lra.
Qed.

Lemma sorted_Zleb_increasing (l : list Z) : StronglySorted Z.le (sorted Z.leb l).
Proof.
  apply sorted_increasing.
  - intros a b H. now apply Z.leb_le.
  - intros a b H. apply Z.leb_gt in H. lia.
  - intros a b c. lia.
Qed.

(** *** The extraction loop *)

(** The days to expiry of the expirations still to come, in input order. *)
Definition future_days (today : datetime) (data : options_data) : list Z :=
  List.filter (fun d => negb (d <=? 0)%Z) (map (fun e => days_until today e.1) data).

(** The rows of a table that the loop records under strike [k]. *)
Definition quote_at (strike_range : option (R * R)) (k : R) (rw : row) : bool :=
  negb (outside_range strike_range (strike rw))
  && valid_iv (impliedVolatility rw)
  && Reqb (strike rw) k.

(** The implied volatility of the last row recorded under strike [k], [acc]
    when there is none. *)
Definition last_quote (strike_range : option (R * R)) (k : R)
    (rows : list row) (acc : option xreal) : option xreal :=
  fold_left (fun acc rw => if quote_at strike_range k rw
                           then Some (impliedVolatility rw) else acc) rows acc.

Lemma days_until_spec (today : datetime) (e : Z) :
  days_until today e
  = (e - ordinal today + (- microsecond_of_day today) / microseconds_per_day)%Z.
Proof.
  unfold days_until.
  replace ((e - ordinal today) * microseconds_per_day - microsecond_of_day today)%Z
    with ((e - ordinal today) * microseconds_per_day + - microsecond_of_day today)%Z by lia.
  apply Z.div_add_l. unfold microseconds_per_day. lia.
Qed.

Lemma days_until_inj (today : datetime) (a b : Z) :
  days_until today a = days_until today b -> a = b.
Proof. rewrite !days_until_spec. lia. Qed.

Lemma Reqb_eq (x y : R) : Reqb x y = true <-> x = y.
Proof. unfold Reqb. destruct (Req_dec_T x y); split; congruence. Qed.

Lemma key_eqb_eq (k1 k2 : Z * R) : key_eqb k1 k2 = true <-> k1 = k2.
Proof.
  destruct k1 as [d1 s1], k2 as [d2 s2]. unfold key_eqb. cbn [fst snd].
  rewrite andb_true_iff, Z.eqb_eq, Reqb_eq. split.
  - intros [-> ->]. reflexivity.
  - intros [= -> ->]. split; reflexivity.
Qed.

Lemma key_eqb_refl (k : Z * R) : key_eqb k k = true.
Proof. now apply key_eqb_eq. Qed.

Lemma key_eqb_neq (k1 k2 : Z * R) : k1 <> k2 -> key_eqb k1 k2 = false.
Proof.
  intros Hne. destruct (key_eqb k1 k2) eqn:E; [| reflexivity].
  apply key_eqb_eq in E. contradiction.
Qed.

Lemma dict_get_set_eq (k : Z * R) (v : xreal) (d : iv_dict) :
  dict_get k (dict_set k v d) = Some v.
Proof.
  induction d as [| [k' v'] d IH]; cbn [dict_set dict_get].
  - now rewrite key_eqb_refl.
  - destruct (key_eqb k k') eqn:E; cbn [dict_get]; rewrite E; [reflexivity | exact IH].
Qed.

Lemma dict_get_set_ne (k k' : Z * R) (v : xreal) (d : iv_dict) :
  k <> k' -> dict_get k' (dict_set k v d) = dict_get k' d.
Proof.
  intros Hne. induction d as [| [k0 v0] d IH]; cbn [dict_set dict_get].
  - rewrite key_eqb_neq by congruence. reflexivity.
  - destruct (key_eqb k k0) eqn:E; cbn [dict_get].
    + apply key_eqb_eq in E. subst k0. rewrite key_eqb_neq by congruence. reflexivity.
    + now rewrite IH.
Qed.

Section Extraction.
Variable today : datetime.
Variable strike_range : option (R * R).

Lemma add_row_all_days (d : Z) (st : extraction) (rw : row) :
  all_days (add_row strike_range d st rw) = all_days st.
Proof.
  unfold add_row. destruct (outside_range _ _); [reflexivity |].
  destruct (valid_iv _); reflexivity.
Qed.

Lemma rows_all_days (d : Z) (rows : list row) (st : extraction) :
  all_days (fold_left (add_row strike_range d) rows st) = all_days st.
Proof.
  revert st. induction rows as [| rw rows IH]; intros st; cbn [fold_left]; [reflexivity |].
  now rewrite IH, add_row_all_days.
Qed.

(** The two tables of an expiration are read as one sequence of rows,
    calls first. *)
Lemma add_expiration_unfold (st : extraction) (e : Z * chain) :
  add_expiration today strike_range st e =
  let days := days_until today e.1 in
  if (days <=? 0)%Z then st
  else fold_left (add_row strike_range days) (calls e.2 ++ puts e.2)
         {| all_strikes := all_strikes st;
            all_days := all_days st ++ [days];
            iv_data := iv_data st |}.
Proof.
  unfold add_expiration. cbv zeta. destruct (_ <=? 0)%Z; [reflexivity |].
  cbn [fold_left]. now rewrite fold_left_app.
Qed.

Lemma extraction_all_days (data : options_data) (st : extraction) :
  all_days (fold_left (add_expiration today strike_range) data st)
  = all_days st ++ future_days today data.
Proof.
  revert st. induction data as [| e data IH]; intros st; cbn [fold_left].
  - unfold future_days. cbn. now rewrite app_nil_r.
  - rewrite IH, add_expiration_unfold. cbv zeta. unfold future_days.
    cbn [map List.filter]. destruct (days_until today e.1 <=? 0)%Z; cbn [negb].
    + reflexivity.
    + rewrite rows_all_days. cbn [all_days]. now rewrite <- app_assoc.
Qed.

(** What the rows of one expiration leave in the dictionary. *)
Lemma rows_dict_get (d : Z) (k : R) (rows : list row) (st : extraction) :
  dict_get (d, k) (iv_data (fold_left (add_row strike_range d) rows st))
  = last_quote strike_range k rows (dict_get (d, k) (iv_data st)).
Proof.
  revert st. induction rows as [| rw rows IH]; intros st; [reflexivity |].
  cbn [fold_left]. unfold last_quote in *. cbn [fold_left]. rewrite IH. f_equal.
  unfold add_row, quote_at.
  destruct (outside_range strike_range (strike rw)); cbn [negb andb]; [reflexivity |].
  destruct (valid_iv (impliedVolatility rw)); cbn [andb iv_data]; [| reflexivity].
  destruct (Reqb (strike rw) k) eqn:E.
  - apply Reqb_eq in E. subst k. apply dict_get_set_eq.
  - apply dict_get_set_ne. intros [= Heq]. apply Reqb_eq in Heq. congruence.
Qed.

Lemma rows_dict_get_other_day (d d' : Z) (k : R) (rows : list row) (st : extraction) :
  d' <> d ->
  dict_get (d', k) (iv_data (fold_left (add_row strike_range d) rows st))
  = dict_get (d', k) (iv_data st).
Proof.
  intros Hne. revert st. induction rows as [| rw rows IH]; intros st; [reflexivity |].
  cbn [fold_left]. rewrite IH. unfold add_row.
  destruct (outside_range _ _); [reflexivity |].
  destruct (valid_iv _); [| reflexivity]. cbn [iv_data].
  apply dict_get_set_ne. congruence.
Qed.

Lemma add_expiration_dict_get_other (d : Z) (k : R) (st : extraction) (e : Z * chain) :
  days_until today e.1 <> d ->
  dict_get (d, k) (iv_data (add_expiration today strike_range st e))
  = dict_get (d, k) (iv_data st).
Proof.
  intros Hne. rewrite add_expiration_unfold. cbv zeta.
  destruct (_ <=? 0)%Z; [reflexivity |].
  rewrite rows_dict_get_other_day by congruence. reflexivity.
Qed.

Lemma add_expiration_dict_get_same (k : R) (st : extraction) (e : Z * chain) :
  (0 < days_until today e.1)%Z ->
  dict_get (days_until today e.1, k) (iv_data (add_expiration today strike_range st e))
  = last_quote strike_range k (calls e.2 ++ puts e.2)
      (dict_get (days_until today e.1, k) (iv_data st)).
Proof.
  intros Hpos. rewrite add_expiration_unfold. cbv zeta.
  destruct (_ <=? 0)%Z eqn:E; [apply Z.leb_le in E; lia |].
  now rewrite rows_dict_get.
Qed.

Lemma extraction_dict_get_other (d : Z) (k : R) (data : options_data) (st : extraction) :
  (forall e, In e data -> days_until today e.1 <> d) ->
  dict_get (d, k) (iv_data (fold_left (add_expiration today strike_range) data st))
  = dict_get (d, k) (iv_data st).
Proof.
  revert st. induction data as [| e data IH]; intros st Hne; [reflexivity |].
  cbn [fold_left]. rewrite IH by (intros e' He'; apply Hne; now right).
  apply add_expiration_dict_get_other. apply Hne. now left.
Qed.

(** With one entry per expiration date, the dictionary holds under
    [(days, k)] the last quote of that expiration at strike [k]. *)
Lemma extraction_dict_get (k : R) (data : options_data) (st : extraction) (e : Z * chain) :
  List.NoDup (map fst data) -> In e data -> (0 < days_until today e.1)%Z ->
  dict_get (days_until today e.1, k)
    (iv_data (fold_left (add_expiration today strike_range) data st))
  = last_quote strike_range k (calls e.2 ++ puts e.2)
      (dict_get (days_until today e.1, k) (iv_data st)).
Proof.
  revert st. induction data as [| e0 data IH]; intros st Hnd Hin Hpos; [destruct Hin |].
  cbn [map] in Hnd. apply NoDup_cons_iff in Hnd. destruct Hnd as [Hfresh Hnd].
  cbn [fold_left]. destruct Hin as [-> | Hin].
  - rewrite extraction_dict_get_other.
    + now apply add_expiration_dict_get_same.
    + intros e' He' Heq. apply days_until_inj in Heq.
      apply Hfresh. rewrite <- Heq. now apply in_map.
  - rewrite IH by assumption. f_equal.
    apply add_expiration_dict_get_other.
    intros Heq. apply days_until_inj in Heq.
    apply Hfresh. rewrite Heq. now apply in_map.
Qed.

End Extraction.

(** *** Strikes and days that the extraction finds *)

(** Some expiration still to come has a row that the loop records. *)
Definition has_quote (today : datetime) (strike_range : option (R * R))
    (data : options_data) : Prop :=
  exists (e : Z * chain) (rw : row),
    In e data /\ (0 < days_until today e.1)%Z /\
    In rw (calls e.2 ++ puts e.2) /\
    outside_range strike_range (strike rw) = false /\
    valid_iv (impliedVolatility rw) = true.

Lemma set_add_nonempty (x : R) (s : list R) : set_add x s <> [].
Proof.
  unfold set_add. destruct (existsb (Reqb x) s) eqn:E.
  - destruct s; [discriminate | congruence].
  - destruct s; discriminate.
Qed.

Section Observed.
Variable today : datetime.
Variable strike_range : option (R * R).

Lemma add_row_strikes_kept (d : Z) (st : extraction) (rw : row) :
  all_strikes st <> [] -> all_strikes (add_row strike_range d st rw) <> [].
Proof.
  intros Hne. unfold add_row. destruct (outside_range _ _); [exact Hne |].
  destruct (valid_iv _); [| exact Hne]. apply set_add_nonempty.
Qed.

Lemma rows_strikes_kept (d : Z) (rows : list row) (st : extraction) :
  all_strikes st <> [] -> all_strikes (fold_left (add_row strike_range d) rows st) <> [].
Proof.
  revert st. induction rows as [| rw rows IH]; intros st Hne; [exact Hne |].
  cbn [fold_left]. apply IH. now apply add_row_strikes_kept.
Qed.

Lemma rows_strikes_found (d : Z) (rows : list row) (st : extraction) (rw : row) :
  In rw rows ->
  outside_range strike_range (strike rw) = false ->
  valid_iv (impliedVolatility rw) = true ->
  all_strikes (fold_left (add_row strike_range d) rows st) <> [].
Proof.
  revert st. induction rows as [| r0 rows IH]; intros st Hin Hrange Hvalid; [destruct Hin |].
  cbn [fold_left]. destruct Hin as [-> | Hin].
  - apply rows_strikes_kept. unfold add_row. rewrite Hrange, Hvalid.
    apply set_add_nonempty.
  - now apply IH.
Qed.

Lemma add_expiration_strikes_kept (st : extraction) (e : Z * chain) :
  all_strikes st <> [] -> all_strikes (add_expiration today strike_range st e) <> [].
Proof.
  intros Hne. rewrite add_expiration_unfold. cbv zeta.
  destruct (_ <=? 0)%Z; [exact Hne |]. now apply rows_strikes_kept.
Qed.

Lemma extraction_strikes_kept (data : options_data) (st : extraction) :
  all_strikes st <> [] ->
  all_strikes (fold_left (add_expiration today strike_range) data st) <> [].
Proof.
  revert st. induction data as [| e data IH]; intros st Hne; [exact Hne |].
  cbn [fold_left]. apply IH. now apply add_expiration_strikes_kept.
Qed.

Lemma extraction_strikes_found (data : options_data) (st : extraction) :
  has_quote today strike_range data ->
  all_strikes (fold_left (add_expiration today strike_range) data st) <> [].
Proof.
  intros (e & rw & Hin & Hpos & Hrow & Hrange & Hvalid).
  revert st. induction data as [| e0 data IH]; intros st; [destruct Hin |].
  cbn [fold_left]. destruct Hin as [-> | Hin].
  - apply extraction_strikes_kept. rewrite add_expiration_unfold. cbv zeta.
    destruct (_ <=? 0)%Z eqn:E; [apply Z.leb_le in E; lia |].
    now apply (rows_strikes_found _ _ _ rw).
  - now apply IH.
Qed.

Lemma future_days_found (data : options_data) :
  has_quote today strike_range data -> future_days today data <> [].
Proof.
  intros (e & rw & Hin & Hpos & _).
  assert (Hd : In (days_until today e.1) (future_days today data)).
  { unfold future_days. apply filter_In. split.
    - apply (in_map (fun e => days_until today e.1)). exact Hin.
    - destruct (_ <=? 0)%Z eqn:E; [apply Z.leb_le in E; lia | reflexivity]. }
  intros Hnil. rewrite Hnil in Hd. destruct Hd.
Qed.

End Observed.

Lemma perm_nonempty {A : Type} (l l' : list A) : Permutation l l' -> l' <> [] -> l <> [].
Proof.
  intros Hp Hne ->. apply Permutation_nil in Hp. contradiction.
Qed.

(** The extraction of a collection with a quote has days and strikes. *)
Lemma extract_nonempty (today : datetime) (set_iter : list R -> list R)
    (data : options_data) (strike_range : option (R * R)) :
  (forall l, Permutation (set_iter l) l) ->
  has_quote today strike_range data ->
  all_days (extract today set_iter data strike_range) <> [] /\
  all_strikes (extract today set_iter data strike_range) <> [].
Proof.
  intros Hiter Hq. unfold extract. cbn [all_days all_strikes]. split.
  - apply (perm_nonempty _ _ (sorted_perm _ _)).
    rewrite extraction_all_days. cbn [all_days app].
    now apply (future_days_found today strike_range).
  - apply (perm_nonempty _ _ (sorted_perm _ _)).
    apply (perm_nonempty _ _ (Hiter _)).
    now apply extraction_strikes_found.
Qed.

Lemma extract_all_days (today : datetime) (set_iter : list R -> list R)
    (data : options_data) (strike_range : option (R * R)) :
  all_days (extract today set_iter data strike_range)
  = sorted Z.leb (future_days today data).
Proof.
  unfold extract. cbn [all_days]. now rewrite extraction_all_days.
Qed.

(** *** The loops that fill the surface *)

Lemma lookup_map {A B : Type} (f : A -> B) (l : list A) (i : nat) :
  map f l !! i = f <$> (l !! i).
Proof.
  revert i. induction l as [| x l IH]; intros [| i]; cbn; try reflexivity. apply IH.
Qed.

Lemma enumerate_from {A : Type} (k : nat) (x : A) (l : list A) :
  combine (seq k (S (length l))) (x :: l) = (k, x) :: combine (seq (S k) (length l)) l.
Proof. reflexivity. Qed.

Lemma set_cell_ok (m : list (list xreal)) (i j : nat) (v : xreal) (r : list xreal) :
  m !! i = Some r -> (j < length r)%nat ->
  set_cell m i j v = Ok (<[i := <[j := v]> r]> m).
Proof.
  intros Hr Hj. unfold set_cell. rewrite Hr.
  destruct (decide (j < length r)%nat); [reflexivity | contradiction].
Qed.

Section Fill.
Variable ex : extraction.
Variable current_price : R.

(** The node values are all defined; [cell d s] is the value of node [(d, s)]. *)
Variable cell : R -> R -> xreal.
Hypothesis node_value_cell : forall d s, node_value ex current_price d s = Ok (cell d s).

(** The inner loop writes the cells of one row from left to right. *)
Lemma fill_row (i : nat) (d : R) (l : list R) (k : nat)
    (surf : list (list xreal)) (r : list xreal) :
  surf !! i = Some r -> (k + length l <= length r)%nat ->
  for_each
    (fun surf' '(j, s) => v ← node_value ex current_price d s; set_cell surf' i j v)
    (combine (seq k (length l)) l) surf
  = Ok (<[i := take k r ++ map (cell d) l ++ drop (k + length l) r]> surf).
Proof using node_value_cell.
  revert k surf r. induction l as [| s l IH]; intros k surf r Hr Hlen.
  - cbn [length seq combine for_each map app]. rewrite Nat.add_0_r, take_drop.
    now rewrite list_insert_id.
  - cbn [length] in *. rewrite enumerate_from. cbn [for_each].
    rewrite node_value_cell. cbn [mbind result_bind].
    rewrite (set_cell_ok surf i k (cell d s) r) by (assumption || lia).
    cbn [mbind result_bind].
    assert (Hi : (i < length surf)%nat) by (eapply lookup_lt_Some; eassumption).
    rewrite (IH (S k) _ (<[k := cell d s]> r)).
    + rewrite list_insert_insert_eq. do 2 f_equal.
      rewrite (take_S_r _ _ (cell d s)) by (apply list_lookup_insert_eq; lia).
      rewrite take_insert_ge by lia.
      rewrite drop_insert_lt by lia.
      cbn [map]. rewrite <- app_assoc. cbn [app].
      replace (k + S (length l))%nat with (S k + length l)%nat by lia. reflexivity.
    + apply list_lookup_insert_eq. exact Hi.
    + rewrite length_insert. lia.
Qed.

(** The outer loop writes the rows from top to bottom. *)
Lemma fill_rows (strikes : list R) (l : list R) (k : nat) (surf : list (list xreal)) :
  (forall i r, surf !! i = Some r -> length r = length strikes) ->
  (k + length l <= length surf)%nat ->
  for_each
    (fun surf0 '(i, d) =>
       for_each
         (fun surf' '(j, s) => v ← node_value ex current_price d s; set_cell surf' i j v)
         (enumerate strikes) surf0)
    (combine (seq k (length l)) l) surf
  = Ok (take k surf ++ map (fun d => map (cell d) strikes) l ++ drop (k + length l) surf).
Proof using node_value_cell.
  revert k surf. induction l as [| d l IH]; intros k surf Hrows Hlen.
  - cbn [length seq combine for_each map app]. now rewrite Nat.add_0_r, take_drop.
  - cbn [length] in *. rewrite enumerate_from. cbn [for_each].
    destruct (lookup_lt_is_Some_2 surf k ltac:(lia)) as [r Hr].
    pose proof (Hrows k r Hr) as Hlr.
    unfold enumerate. rewrite (fill_row k d strikes 0 surf r Hr) by lia.
    cbn [mbind result_bind].
    rewrite take_0, Nat.add_0_l, (drop_ge r), app_nil_r by lia. cbn [app].
    fold (enumerate strikes).
    rewrite (IH (S k)).
    + f_equal.
      rewrite (take_S_r _ _ (map (cell d) strikes)) by (apply list_lookup_insert_eq; lia).
      rewrite take_insert_ge by lia.
      rewrite drop_insert_lt by lia.
      cbn [map]. rewrite <- app_assoc. cbn [app].
      replace (k + S (length l))%nat with (S k + length l)%nat by lia. reflexivity.
    + intros i r' Hr'. destruct (decide (i = k)) as [-> | Hne].
      * rewrite list_lookup_insert_eq in Hr' by lia. injection Hr' as <-.
        apply length_map.
      * rewrite list_lookup_insert_ne in Hr' by congruence. now apply (Hrows i).
    + rewrite length_insert. lia.
Qed.

(** The nested loops over the zero array compute every node value. *)
Lemma fill_surface_cells (days strikes : list R) :
  fill_surface ex current_price days strikes
    (replicate (length days) (replicate (length strikes) (Fin 0)))
  = Ok (map (fun d => map (cell d) strikes) days).
Proof using node_value_cell.
  unfold fill_surface, enumerate at 2.
  rewrite (fill_rows strikes days 0).
  - rewrite take_0, Nat.add_0_l. cbn [app].
    rewrite drop_ge by (rewrite length_replicate; lia). now rewrite app_nil_r.
  - intros i r Hr. apply lookup_replicate in Hr. destruct Hr as [-> _].
    apply length_replicate.
  - rewrite length_replicate. lia.
Qed.

End Fill.

(** The transposed surface, indexed by strike and then by day. *)
Lemma transpose_cells (cell : R -> R -> xreal) (days strikes : list R) :
  transpose (length strikes) (map (fun d => map (cell d) strikes) days)
  = map (fun s => map (fun d => cell d s) days) strikes.
Proof.
  unfold transpose. apply list_eq. intros j.
  rewrite !lookup_map. destruct (strikes !! j) as [s |] eqn:Hs.
  - rewrite lookup_seq_lt by (eapply lookup_lt_Some; eassumption).
    cbn. f_equal. rewrite map_map. apply map_ext. intros d.
    rewrite lookup_map, Hs. reflexivity.
  - rewrite lookup_seq_ge by (now apply lookup_ge_None). reflexivity.
Qed.

(** *** The value of a grid node *)

(** The quotes of the dictionary that share the day [d]. *)
Definition day_group (ex : extraction) (d : Z) : list xreal :=
  map snd (List.filter (fun kv => (kv.1.1 =? d)%Z) (iv_data ex)).

(** The nearest-neighbour rule in the words of the specification: [v] is the
    quote at the nearest day and the nearest strike when there is one, else
    the quote at the nearest day and the strike nearest the current price,
    else the mean of the quotes of the nearest day.  Nearest is by absolute
    difference, the first candidate winning a tie. *)
Definition nearest_neighbour (ex : extraction) (current_price d s : R) (v : xreal) : Prop :=
  exists (d' : Z) (s' : R),
    first_min (fun x => Rabs (IZR x - d)) (all_days ex) d' /\
    first_min (fun x => Rabs (x - s)) (all_strikes ex) s' /\
    match dict_get (d', s') (iv_data ex) with
    | Some q => v = q
    | None =>
        exists atm : R,
          first_min (fun x => Rabs (x - current_price)) (all_strikes ex) atm /\
          match dict_get (d', atm) (iv_data ex) with
          | Some q => v = q
          | None => v = np_mean (day_group ex d')
          end
    end.

(** The value that [node_value] returns, NaN standing for an exception. *)
Definition node_cell (ex : extraction) (current_price d s : R) : xreal :=
  match node_value ex current_price d s with
  | Ok v => v
  | Raise _ => NaN
  end.

Lemma node_value_total (ex : extraction) (current_price d s : R) :
  all_days ex <> [] -> all_strikes ex <> [] ->
  node_value ex current_price d s = Ok (node_cell ex current_price d s).
Proof.
  intros Hd Hs. unfold node_cell.
  destruct (min_by_nonempty (fun x => Rabs (IZR x - d)) _ Hd) as [d' Hd'].
  destruct (min_by_nonempty (fun x => Rabs (x - s)) _ Hs) as [s' Hs'].
  destruct (min_by_nonempty (fun x => Rabs (x - current_price)) _ Hs) as [atm Hatm].
  unfold node_value. rewrite Hd', Hs'. cbn [mbind result_bind].
  destruct (dict_get (d', s') (iv_data ex)); [reflexivity |].
  rewrite Hatm. cbn [mbind result_bind].
  destruct (dict_get (d', atm) (iv_data ex)); reflexivity.
Qed.

Lemma node_value_rule (ex : extraction) (current_price d s : R) (v : xreal) :
  node_value ex current_price d s = Ok v -> nearest_neighbour ex current_price d s v.
Proof.
  unfold node_value, nearest_neighbour.
  destruct (min_by _ (all_days ex)) as [d' |] eqn:Hd'; [| discriminate].
  destruct (min_by (fun x => Rabs (x - s)) (all_strikes ex)) as [s' |] eqn:Hs'; [| discriminate].
  cbn [mbind result_bind]. intros Hv.
  exists d', s'. split; [now apply min_by_first_min |]. split; [now apply min_by_first_min |].
  destruct (dict_get (d', s') (iv_data ex)); [congruence |].
  destruct (min_by (fun x => Rabs (x - current_price)) (all_strikes ex)) as [atm |] eqn:Hatm;
    [| discriminate].
  cbn [mbind result_bind] in Hv. exists atm. split; [now apply min_by_first_min |].
  destruct (dict_get (d', atm) (iv_data ex)); unfold day_group; congruence.
Qed.

Lemma length_linspace (a b : R) (n : nat) : length (linspace a b n) = n.
Proof. unfold linspace. now rewrite length_map, length_seq. Qed.

(** [np.linspace] starts at [start] and, with two points or more, ends at [stop]. *)
Lemma linspace_first (a b : R) (n : nat) : linspace a b (S n) !! 0%nat = Some a.
Proof. unfold linspace. cbn. f_equal. lra. Qed.

Lemma linspace_last (a b : R) (n : nat) : linspace a b (S (S n)) !! S n = Some b.
Proof.
  unfold linspace. rewrite lookup_map, lookup_seq_lt by lia. cbn [fmap option_fmap option_map].
  f_equal. replace (S (S n) - 1)%nat with (S n) by lia. cbn [Nat.add].
  assert (INR (S n) <> 0) by (apply not_0_INR; lia). field. assumption.
Qed.

(** *** The function as a whole *)

(** The result of the builder in closed form, for an extraction that has days
    and strikes. *)
Lemma interpolate_cells (today : datetime) (set_iter : list R -> list R)
    (data : options_data) (current_price : R) (strike_range : option (R * R)) :
  let ex := extract today set_iter data strike_range in
  all_days ex <> [] -> all_strikes ex <> [] ->
  exists (lo hi : R) (first_day last_day : Z),
    match strike_range with
    | Some rg => rg = (lo, hi)
    | None => min_by id (all_strikes ex) = Ok lo /\ max_by id (all_strikes ex) = Ok hi
    end /\
    min_by IZR (all_days ex) = Ok first_day /\
    max_by IZR (all_days ex) = Ok last_day /\
    let strikes := linspace lo hi 50 in
    let days := linspace (IZR first_day) (IZR last_day)
                  (Nat.min 50 (length (all_days ex) * 5)) in
    interpolate_volatility_surface today set_iter data current_price strike_range
    = Ok (map (fun _ => days) strikes,
          map (fun s => map (fun _ => s) days) strikes,
          map (fun s => map (fun d => node_cell ex current_price d s) days) strikes).
Proof.
  intros ex Hd Hs.
  destruct (min_by_nonempty IZR _ Hd) as [first_day Hfirst].
  destruct (max_by_nonempty IZR _ Hd) as [last_day Hlast].
  assert (Hrange : exists lo hi,
             match strike_range with
             | Some rg => rg = (lo, hi)
             | None => min_by id (all_strikes ex) = Ok lo /\ max_by id (all_strikes ex) = Ok hi
             end).
  { destruct strike_range as [[lo hi] |].
    - now exists lo, hi.
    - destruct (min_by_nonempty id _ Hs) as [lo Hlo].
      destruct (max_by_nonempty id _ Hs) as [hi Hhi]. now exists lo, hi. }
  destruct Hrange as (lo & hi & Hrange).
  exists lo, hi, first_day, last_day.
  split; [exact Hrange |]. split; [exact Hfirst |]. split; [exact Hlast |].
  cbv zeta. unfold interpolate_volatility_surface. fold ex.
  assert (Hrg : match strike_range with
                | Some rg => Ok rg
                | None => min_by id (all_strikes ex) ≫= λ lo0,
                          max_by id (all_strikes ex) ≫= λ hi0, Ok (lo0, hi0)
                end = Ok (lo, hi)).
  { destruct strike_range as [rg |]; [now subst rg |].
    destruct Hrange as [-> ->]. reflexivity. }
  rewrite Hrg, Hfirst, Hlast. cbn [mbind result_bind fst snd].
  rewrite (fill_surface_cells ex current_price (node_cell ex current_price))
    by (intros d s; now apply node_value_total).
  cbn [mbind result_bind]. unfold meshgrid.
  now rewrite transpose_cells.
Qed.

(** [x] is an item of [l] whose key is minimal. *)
Definition is_min {A : Type} (key : A -> R) (l : list A) (x : A) : Prop :=
  In x l /\ forall y, In y l -> key x <= key y.

Lemma min_by_is_min {A : Type} (key : A -> R) (l : list A) (x : A) :
  min_by key l = Ok x -> is_min key l x.
Proof. intros H. apply first_min_In. now apply min_by_first_min. Qed.

Lemma extract_days_count (today : datetime) (set_iter : list R -> list R)
    (data : options_data) (strike_range : option (R * R)) :
  length (all_days (extract today set_iter data strike_range))
  = length (future_days today data).
Proof. rewrite extract_all_days. apply Permutation_length, sorted_perm. Qed.

(** *** Quotes of one expiration under one strike *)

Lemma last_quote_app (strike_range : option (R * R)) (k : R)
    (l1 l2 : list row) (acc : option xreal) :
  last_quote strike_range k (l1 ++ l2) acc
  = last_quote strike_range k l2 (last_quote strike_range k l1 acc).
Proof. unfold last_quote. apply fold_left_app. Qed.

Lemma last_quote_none (strike_range : option (R * R)) (k : R)
    (l : list row) (acc : option xreal) :
  (forall rw, In rw l -> quote_at strike_range k rw = false) ->
  last_quote strike_range k l acc = acc.
Proof.
  revert acc. induction l as [| rw l IH]; intros acc Hnone; [reflexivity |].
  unfold last_quote in *. cbn [fold_left].
  rewrite (Hnone rw) by now left. apply IH. intros r Hr. apply Hnone. now right.
Qed.

(** The last recorded row of a table at its strike decides the entry. *)
Lemma last_quote_found (strike_range : option (R * R))
    (before after : list row) (rw : row) (acc : option xreal) :
  outside_range strike_range (strike rw) = false ->
  valid_iv (impliedVolatility rw) = true ->
  (forall r, In r after -> quote_at strike_range (strike rw) r = false) ->
  last_quote strike_range (strike rw) (before ++ rw :: after) acc
  = Some (impliedVolatility rw).
Proof.
  intros Hrange Hvalid Hafter. rewrite last_quote_app.
  unfold last_quote at 1. cbn [fold_left]. fold (last_quote strike_range (strike rw) after).
  assert (Hq : quote_at strike_range (strike rw) rw = true).
  { unfold quote_at. rewrite Hrange, Hvalid. cbn. now apply Reqb_eq. }
  rewrite Hq. now apply last_quote_none.
Qed.

End SurfaceFacts.

Import VolSurface SurfaceFacts.

(** Sample inputs: a clock reading, and a collection with one expiration
    thirty days later holding one call quote. *)
Definition sample_today : datetime := {| ordinal := 739000; microsecond_of_day := 0 |}.

Definition sample_next_day : datetime := {| ordinal := 739001; microsecond_of_day := 0 |}.

Definition one_expiration : options_data :=
  [(739030%Z, {| calls := [mk_row 100 (Fin (2 / 10))]; puts := [] |})].

Lemma valid_iv_fin (x : R) : 0 < x -> valid_iv (Fin x) = true.
Proof. intros Hx. unfold valid_iv. cbn. now apply Rltb_true. Qed.

Lemma one_expiration_has_quote (today : datetime) :
  (0 < days_until today 739030)%Z -> has_quote today None one_expiration.
Proof.
  intros Hpos. eexists _, _. split; [now left |]. split; [exact Hpos |].
  split; [now left |]. split; [reflexivity |]. apply valid_iv_fin. lra.
Qed.

(** Without any expiration the builder fails on [min] of an empty sequence. *)
Lemma empty_collection_raises (today : datetime) (current_price : R)
    (strike_range : option (R * R)) :
  interpolate_volatility_surface today (fun l => l) [] current_price strike_range
  = Raise ValueError.
Proof.
  unfold interpolate_volatility_surface, extract.
  cbn [fold_left all_strikes all_days sorted fold_right min_by mbind result_bind].
  destruct strike_range; reflexivity.
Qed.

(** ** C6: reconstruction of the surface *)

(** C6, as stated, fails on the resolution: with a single expiration the day
    axis of the grid has 5 points, not 50. *)
Lemma day_axis_has_five_points :
  exists (Dm Sm : list (list R)) (V : list (list xreal)) (day_axis : list R),
    interpolate_volatility_surface sample_today (fun l => l) one_expiration 100 None
      = Ok (Dm, Sm, V) /\
    Dm !! 0%nat = Some day_axis /\ length day_axis = 5%nat.
Proof.
  destruct (extract_nonempty sample_today (fun l => l) one_expiration None) as [Hd Hs].
  { intros l. reflexivity. }
  { now apply one_expiration_has_quote. }
  destruct (interpolate_cells sample_today (fun l => l) one_expiration 100 None Hd Hs)
    as (lo & hi & first_day & last_day & _ & _ & _ & Hrun).
  cbv zeta in Hrun. rewrite Hrun. eexists _, _, _, _. split; [reflexivity |]. split.
  - rewrite lookup_map, linspace_first. reflexivity.
  - rewrite length_linspace, extract_days_count. reflexivity.
Qed.

(** C6 (amended): for a collection with at least one recorded quote, the
    strike axis is the 50-point linear partition of the strike range (the
    caller's, or else from the least to the greatest observed strike), the
    day axis is the linear partition of the range from the least to the
    greatest day to expiry into [min(50, 5 * n)] points, [n] the number of
    expirations still to come, and every node follows the nearest-neighbour
    rule over the days and the strikes in increasing order. *)
Theorem surface_reconstruction (today : datetime) (set_iter : list R -> list R)
    (data : options_data) (current_price : R) (strike_range : option (R * R)) :
  (forall l, Permutation (set_iter l) l) ->
  has_quote today strike_range data ->
  let ex := extract today set_iter data strike_range in
  exists (lo hi : R) (first_day last_day : Z) (V : list (list xreal)),
    let strikes := linspace lo hi 50 in
    let days := linspace (IZR first_day) (IZR last_day)
                  (Nat.min 50 (length (future_days today data) * 5)) in
    interpolate_volatility_surface today set_iter data current_price strike_range
      = Ok ((meshgrid days strikes).1, (meshgrid days strikes).2, V) /\
    match strike_range with
    | Some rg => rg = (lo, hi)
    | None => is_min id (all_strikes ex) lo /\ is_max id (all_strikes ex) hi
    end /\
    is_min IZR (all_days ex) first_day /\
    is_max IZR (all_days ex) last_day /\
    StronglySorted Z.le (all_days ex) /\
    StronglySorted Rle (all_strikes ex) /\
    forall (i j : nat) (d s : R),
      days !! i = Some d -> strikes !! j = Some s ->
      exists v : xreal,
        V !! j ≫= (fun r => r !! i) = Some v /\
        nearest_neighbour ex current_price d s v.
Proof.
  intros Hiter Hq ex.
  destruct (extract_nonempty today set_iter data strike_range Hiter Hq) as [Hd Hs].
  destruct (interpolate_cells today set_iter data current_price strike_range Hd Hs)
    as (lo & hi & first_day & last_day & Hrange & Hfirst & Hlast & Hrun).
  cbv zeta in Hrun. rewrite extract_days_count in Hrun.
  fold ex in Hrange, Hfirst, Hlast, Hrun.
  exists lo, hi, first_day, last_day. eexists. cbv zeta.
  split; [exact Hrun |]. split; [| split; [| split; [| split; [| split]]]].
  - destruct strike_range; [exact Hrange |]. destruct Hrange as [Hlo Hhi].
    split; [now apply min_by_is_min | now apply max_by_is_max].
  - now apply min_by_is_min.
  - now apply max_by_is_max.
  - apply sorted_Zleb_increasing.
  - apply sorted_Rleb_increasing.
  - intros i j d s Hi Hj. exists (node_cell ex current_price d s). split.
    + rewrite lookup_map, Hj. cbn [fmap option_fmap option_map mbind option_bind].
      rewrite lookup_map, Hi. reflexivity.
    + apply node_value_rule. now apply node_value_total.
Qed.

Lemma surface_reconstruction_witness :
  let ex := extract sample_today (fun l => l) one_expiration None in
  exists (lo hi : R) (first_day last_day : Z) (V : list (list xreal)),
    let strikes := linspace lo hi 50 in
    let days := linspace (IZR first_day) (IZR last_day) 5 in
    interpolate_volatility_surface sample_today (fun l => l) one_expiration 100 None
      = Ok ((meshgrid days strikes).1, (meshgrid days strikes).2, V) /\
    (is_min id (all_strikes ex) lo /\ is_max id (all_strikes ex) hi) /\
    is_min IZR (all_days ex) first_day /\
    is_max IZR (all_days ex) last_day /\
    StronglySorted Z.le (all_days ex) /\
    StronglySorted Rle (all_strikes ex) /\
    forall (i j : nat) (d s : R),
      days !! i = Some d -> strikes !! j = Some s ->
      exists v : xreal,
        V !! j ≫= (fun r => r !! i) = Some v /\
        nearest_neighbour ex 100 d s v.
Proof.
  apply (surface_reconstruction sample_today (fun l => l) one_expiration 100 None).
  - intros l. reflexivity.
  - apply one_expiration_has_quote. reflexivity.
Defined.

(** ** C7: determinism of the surface build *)

(** The first point of the day axis is the least day to expiry, which moves
    with the clock. *)
Lemma one_expiration_first_day (today : datetime) (n : Z) :
  days_until today 739030 = n -> (0 < n)%Z ->
  exists (Sm : list (list R)) (V : list (list xreal)) (lo hi : R),
    interpolate_volatility_surface today (fun l => l) one_expiration 100 None
    = Ok (map (fun _ => linspace (IZR n) (IZR n) 5) (linspace lo hi 50), Sm, V).
Proof.
  intros Hn Hpos.
  destruct (extract_nonempty today (fun l => l) one_expiration None) as [Hd Hs].
  { intros l. reflexivity. }
  { apply one_expiration_has_quote. now rewrite Hn. }
  destruct (interpolate_cells today (fun l => l) one_expiration 100 None Hd Hs)
    as (lo & hi & first_day & last_day & _ & Hfirst & Hlast & Hrun).
  cbv zeta in Hrun. rewrite extract_days_count in Hrun.
  rewrite extract_all_days in Hfirst, Hlast.
  assert (Hdays : future_days today one_expiration = [n]).
  { unfold future_days, one_expiration. cbn [map List.filter fst]. rewrite Hn.
    destruct (n <=? 0)%Z eqn:E; [apply Z.leb_le in E; lia | reflexivity]. }
  rewrite Hdays in Hfirst, Hlast, Hrun. cbn in Hfirst, Hlast.
  injection Hfirst as <-. injection Hlast as <-.
  rewrite Hrun. eexists _, _, lo, hi. reflexivity.
Qed.

(** C7, as stated, fails: the same collection, price and strike range give
    one grid today and another grid tomorrow. *)
Lemma surface_depends_on_clock :
  interpolate_volatility_surface sample_today (fun l => l) one_expiration 100 None
  <> interpolate_volatility_surface sample_next_day (fun l => l) one_expiration 100 None.
Proof.
  destruct (one_expiration_first_day sample_today 30 eq_refl eq_refl)
    as (Sm1 & V1 & lo1 & hi1 & H1).
  destruct (one_expiration_first_day sample_next_day 29 eq_refl eq_refl)
    as (Sm2 & V2 & lo2 & hi2 & H2).
  rewrite H1, H2. intros Heq.
  apply (f_equal (fun res : result (list (list R) * list (list R) * list (list xreal)) =>
                    match res with
                    | Ok (Dm, _, _) => Dm !! 0%nat ≫= (fun day_axis => day_axis !! 0%nat)
                    | Raise _ => None
                    end)) in Heq.
  rewrite !lookup_map, !linspace_first in Heq.
  cbn [fmap option_fmap option_map mbind option_bind] in Heq.
  rewrite !linspace_first in Heq. injection Heq as Heq. lra.
Qed.

(** C7 (amended): with the clock reading fixed, the grid is a function of the
    collection, the price and the strike range alone: the order in which the
    set of strikes is iterated does not show in the result. *)
Theorem surface_independent_of_set_order (today : datetime)
    (iter1 iter2 : list R -> list R) (data : options_data)
    (current_price : R) (strike_range : option (R * R)) :
  (forall l, Permutation (iter1 l) l) ->
  (forall l, Permutation (iter2 l) l) ->
  interpolate_volatility_surface today iter1 data current_price strike_range
  = interpolate_volatility_surface today iter2 data current_price strike_range.
Proof.
  intros H1 H2.
  assert (Hex : extract today iter1 data strike_range = extract today iter2 data strike_range).
  { unfold extract. f_equal. apply sorted_order_irrelevant.
    rewrite H1, H2. reflexivity. }
  unfold interpolate_volatility_surface. now rewrite Hex.
Qed.

Lemma surface_independent_of_set_order_witness :
  interpolate_volatility_surface sample_today (fun l => l) one_expiration 100 None
  = interpolate_volatility_surface sample_today (@rev R) one_expiration 100 None.
Proof.
  apply (surface_independent_of_set_order sample_today (fun l => l) (@rev R)).
  - intros l. reflexivity.
  - intros l. symmetry. apply Permutation_rev.
Defined.

(** ** C8: the day group of the final fallback *)

(** A collection whose second expiration has no usable quote: its only row
    carries a NaN implied volatility. *)
Definition stale_expiration : options_data :=
  [(739030%Z, {| calls := [mk_row 100 (Fin (2 / 10))]; puts := [] |});
   (739060%Z, {| calls := [mk_row 100 NaN]; puts := [] |})].

(** The day of the second expiration is recorded although no quote is. *)
Lemma stale_expiration_extract :
  extract sample_today (fun l => l) stale_expiration None
  = {| all_strikes := [100]; all_days := [30%Z; 60%Z];
       iv_data := [((30%Z, 100), Fin (2 / 10))] |}.
Proof.
  unfold extract, stale_expiration. cbn [fold_left].
  rewrite !add_expiration_unfold. cbv zeta. cbn [fst snd calls puts app].
  change (days_until sample_today 739030) with 30%Z.
  change (days_until sample_today 739060) with 60%Z.
  cbn [Z.leb Z.compare Pos.compare Pos.compare_cont fold_left].
  unfold add_row. cbn [outside_range strike impliedVolatility].
  rewrite valid_iv_fin by lra.
  cbn [valid_iv XReal.isnan negb andb all_strikes all_days iv_data app set_add
       existsb dict_set].
  reflexivity.
Qed.

Lemma np_mean_empty : np_mean [] = NaN.
Proof.
  unfold np_mean. cbn. destruct (Req_dec_T 0 0); [| lra].
  unfold XReal.signed_inf. destruct (Rlt_dec 0 0); [lra | reflexivity].
Qed.

(** At the node (60 days, strike 100) both lookups miss and the mean is taken
    over an empty group. *)
Lemma stale_node_value :
  let ex := extract sample_today (fun l => l) stale_expiration None in
  day_group ex 60 = [] /\ node_value ex 100 60 100 = Ok NaN.
Proof.
  cbv zeta. rewrite stale_expiration_extract. split; [reflexivity |].
  unfold node_value. cbn [all_days all_strikes iv_data min_by fold_left].
  rewrite Rltb_true by (unfold Rabs; repeat destruct Rcase_abs; lra).
  cbn [mbind result_bind dict_get key_eqb fst snd Z.eqb Pos.eqb andb List.filter map].
  now rewrite np_mean_empty.
Qed.

(** C8 (the code departs from the claim): the builder returns a grid whose
    node at the last day is the mean of an empty day group, that is NaN. *)
Theorem empty_day_group_reached :
  exists (Dm Sm : list (list R)) (V : list (list xreal)),
    interpolate_volatility_surface sample_today (fun l => l) stale_expiration 100 None
      = Ok (Dm, Sm, V) /\
    V !! 0%nat ≫= (fun r => r !! 9%nat) = Some NaN /\
    day_group (extract sample_today (fun l => l) stale_expiration None) 60 = [].
Proof.
  destruct stale_node_value as [Hgroup Hnode].
  set (ex := extract sample_today (fun l => l) stale_expiration None) in *.
  assert (Hex : ex = {| all_strikes := [100]; all_days := [30%Z; 60%Z];
                        iv_data := [((30%Z, 100), Fin (2 / 10))] |})
    by apply stale_expiration_extract.
  destruct (interpolate_cells sample_today (fun l => l) stale_expiration 100 None)
    as (lo & hi & first_day & last_day & Hrange & Hfirst & Hlast & Hrun).
  { fold ex. rewrite Hex. discriminate. }
  { fold ex. rewrite Hex. discriminate. }
  fold ex in Hrange, Hfirst, Hlast, Hrun. cbv zeta in Hrun.
  rewrite Hex in Hrange, Hfirst, Hlast. cbn in Hrange, Hfirst, Hlast.
  destruct Hrange as [[= <-] _].
  rewrite Rltb_false in Hfirst by lra. rewrite Rltb_true in Hlast by lra.
  injection Hfirst as <-. injection Hlast as <-.
  rewrite Hrun. eexists _, _, _. split; [reflexivity |]. split; [| exact Hgroup].
  rewrite lookup_map, linspace_first.
  cbn [fmap option_fmap option_map mbind option_bind].
  rewrite lookup_map.
  replace (Nat.min 50 (length (all_days ex) * 5)) with 10%nat by (rewrite Hex; reflexivity).
  rewrite (linspace_last 30 60 8).
  cbn [fmap option_fmap option_map]. f_equal.
  unfold node_cell. now rewrite Hnode.
Qed.

(** Where every expiration still to come holds a recorded quote, the day
    group of every recorded day has a member. *)
Lemma last_quote_some (strike_range : option (R * R)) (k : R)
    (rows : list row) (acc : option xreal) :
  acc <> None \/ (exists rw, In rw rows /\ quote_at strike_range k rw = true) ->
  last_quote strike_range k rows acc <> None.
Proof.
  revert acc. induction rows as [| r rows IH]; intros acc H.
  - destruct H as [H | (rw & [] & _)]. exact H.
  - unfold last_quote in *. cbn [fold_left]. apply IH.
    destruct H as [H | (rw & [<- | Hin] & Hq)].
    + left. now destruct (quote_at strike_range k r).
    + left. now rewrite Hq.
    + right. now exists rw.
Qed.

Lemma day_group_member (ex : extraction) (d : Z) (k : R) (v : xreal) :
  dict_get (d, k) (iv_data ex) = Some v -> day_group ex d <> [].
Proof.
  unfold day_group. induction (iv_data ex) as [| [[d0 k0] v0] dict IH];
    cbn [dict_get List.filter map fst snd]; [discriminate |].
  unfold key_eqb. cbn [fst snd]. rewrite (Z.eqb_sym d0 d).
  destruct (d =? d0)%Z; cbn [andb map]; [discriminate | exact IH].
Qed.

Lemma day_groups_inhabited (today : datetime) (set_iter : list R -> list R)
    (data : options_data) (strike_range : option (R * R)) :
  List.NoDup (map fst data) ->
  (forall e, In e data -> (0 < days_until today e.1)%Z ->
     exists rw, In rw (calls e.2 ++ puts e.2) /\
                outside_range strike_range (strike rw) = false /\
                valid_iv (impliedVolatility rw) = true) ->
  let ex := extract today set_iter data strike_range in
  forall d, In d (all_days ex) -> day_group ex d <> [].
Proof.
  intros Hnd Hquoted ex d Hd.
  unfold ex in Hd. rewrite extract_all_days in Hd.
  apply (Permutation_in _ (sorted_perm _ _)) in Hd.
  unfold future_days in Hd. apply filter_In in Hd. destruct Hd as [Hd Hpos].
  apply in_map_iff in Hd. destruct Hd as (e & <- & He).
  assert (Hpos' : (0 < days_until today e.1)%Z).
  { destruct (_ <=? 0)%Z eqn:E; [discriminate | apply Z.leb_gt in E; lia]. }
  destruct (Hquoted e He Hpos') as (rw & Hrw & Hrange & Hvalid).
  destruct (dict_get (days_until today e.1, strike rw) (iv_data ex)) as [v |] eqn:Hget.
  - now apply (day_group_member ex _ (strike rw) v).
  - exfalso. unfold ex, extract in Hget. cbn [iv_data] in Hget.
    rewrite (extraction_dict_get today strike_range (strike rw) data _ e Hnd He Hpos') in Hget.
    revert Hget. apply last_quote_some. right. exists rw. split; [exact Hrw |].
    unfold quote_at. rewrite Hrange, Hvalid. cbn. now apply Reqb_eq.
Qed.

(** ** C10: a put and a call quoted at the same key *)

(** A call and a put at strike 200, both with a valid implied volatility. *)
Definition far_strike_quotes : options_data :=
  [(739030%Z, {| calls := [mk_row 200 (Fin (2 / 10))];
                 puts := [mk_row 200 (Fin (3 / 10))] |})].

(** C10, as stated, fails for a strike outside the strike range: neither the
    call nor the put is recorded, and the dictionary has no entry at the key. *)
Lemma out_of_range_collision_not_stored :
  dict_get (30%Z, 200)
    (iv_data (extract sample_today (fun l => l) far_strike_quotes (Some (50, 150))))
  = None.
Proof.
  unfold extract, far_strike_quotes. cbn [fold_left iv_data].
  rewrite add_expiration_unfold. cbv zeta. cbn [fst snd calls puts app].
  change (days_until sample_today 739030) with 30%Z.
  cbn [Z.leb Z.compare Pos.compare Pos.compare_cont fold_left].
  unfold add_row. cbn [outside_range strike].
  rewrite (Rltb_true 150 200), orb_true_r by lra.
  reflexivity.
Qed.

(** C10 (amended): in an expiration still to come, the last put row at a
    strike that is recorded (strike inside the range, valid implied
    volatility) is the entry of the dictionary for that day and strike,
    whatever the call table holds (a call quote with another implied
    volatility is never the entry), and a node resolved through that key,
    directly or as the at-the-money fallback, takes the put's implied
    volatility. *)
Theorem put_quote_wins_collision (today : datetime) (set_iter : list R -> list R)
    (data : options_data) (strike_range : option (R * R))
    (e : Z * chain) (before after : list row) (rw : row) :
  List.NoDup (map fst data) -> In e data -> (0 < days_until today e.1)%Z ->
  puts e.2 = before ++ rw :: after ->
  outside_range strike_range (strike rw) = false ->
  valid_iv (impliedVolatility rw) = true ->
  (forall r, In r after -> quote_at strike_range (strike rw) r = false) ->
  let ex := extract today set_iter data strike_range in
  let day := days_until today e.1 in
  dict_get (day, strike rw) (iv_data ex) = Some (impliedVolatility rw) /\
  (forall c : row,
     In c (calls e.2) -> impliedVolatility c <> impliedVolatility rw ->
     dict_get (day, strike rw) (iv_data ex) <> Some (impliedVolatility c)) /\
  (forall current_price d s : R,
     min_by (fun x => Rabs (IZR x - d)) (all_days ex) = Ok day ->
     min_by (fun x => Rabs (x - s)) (all_strikes ex) = Ok (strike rw) ->
     node_value ex current_price d s = Ok (impliedVolatility rw)) /\
  (forall (current_price d s s' : R),
     min_by (fun x => Rabs (IZR x - d)) (all_days ex) = Ok day ->
     min_by (fun x => Rabs (x - s)) (all_strikes ex) = Ok s' ->
     dict_get (day, s') (iv_data ex) = None ->
     min_by (fun x => Rabs (x - current_price)) (all_strikes ex) = Ok (strike rw) ->
     node_value ex current_price d s = Ok (impliedVolatility rw)).
Proof.
  intros Hnd Hin Hpos Hputs Hrange Hvalid Hafter ex day.
  assert (Hget : dict_get (day, strike rw) (iv_data ex) = Some (impliedVolatility rw)).
  { unfold ex, extract. cbn [iv_data]. unfold day.
    rewrite (extraction_dict_get today strike_range (strike rw) data _ e Hnd Hin Hpos).
    rewrite Hputs, app_assoc. now apply last_quote_found. }
  split; [exact Hget |]. split; [| split].
  - intros c _ Hne. rewrite Hget. congruence.
  - intros current_price d s Hd Hs. unfold node_value.
    rewrite Hd, Hs. cbn [mbind result_bind]. now rewrite Hget.
  - intros current_price d s s' Hd Hs Hmiss Hatm. unfold node_value.
    rewrite Hd, Hs. cbn [mbind result_bind]. rewrite Hmiss, Hatm.
    cbn [mbind result_bind]. now rewrite Hget.
Qed.

(** A call at 20% and a put at 30%, both at strike 100 of the same expiration. *)
Definition colliding_quotes : options_data :=
  [(739030%Z, {| calls := [mk_row 100 (Fin (2 / 10))];
                 puts := [mk_row 100 (Fin (3 / 10))] |})].

Lemma put_quote_wins_collision_witness :
  dict_get (30%Z, 100)
    (iv_data (extract sample_today (fun l => l) colliding_quotes None))
  = Some (Fin (3 / 10)).
Proof.
  apply (put_quote_wins_collision sample_today (fun l => l) colliding_quotes None
           (739030%Z, {| calls := [mk_row 100 (Fin (2 / 10))];
                         puts := [mk_row 100 (Fin (3 / 10))] |})
           [] [] (mk_row 100 (Fin (3 / 10)))).
  - cbn. constructor; [intros [] | constructor].
  - now left.
  - reflexivity.
  - reflexivity.
  - reflexivity.
  - apply valid_iv_fin. lra.
  - intros r [].
Defined.

(** * Further properties *)

Import SurfaceHelpers FetchData PriceSurface.

(** ** The distribution function: derivative and a tilting inequality *)

(** A derivative known up to an equation on its value. *)
Lemma derivable_pt_lim_value (f : R -> R) (x l l' : R) :
  l' = l -> derivable_pt_lim f x l' -> derivable_pt_lim f x l.
Proof. intros <- H. exact H. Qed.

(** The distribution function has the normalised kernel as its derivative. *)
Lemma Phi_derivative (x : R) :
  derivable_pt_lim Phi x (gauss x / (2 * gauss_half_mass)).
Proof.
  replace (gauss x / (2 * gauss_half_mass)) with (0 + gauss x / (2 * gauss_half_mass)) by ring.
  apply (derivable_pt_lim_plus (fct_cte (/ 2)) (fun y => gauss_int 0 y / (2 * gauss_half_mass))).
  - apply derivable_pt_lim_const.
  - apply derivable_pt_lim_div_scal. apply gauss_int_derivative.
Qed.

(** For [b >= 0] the function [x |-> Phi (x + b) - exp (- b * x - b^2 / 2) * Phi x]
    is increasing and vanishes at minus infinity: it is non-negative.  This
    is the inequality behind the sign of both prices. *)
Section Tilt.
Variable b : R.
Hypothesis b_nonneg : 0 <= b.

Definition tilt (x : R) : R := exp (- (b * x) - b * b / 2).

Definition tilt_gap (x : R) : R := Phi (x + b) - tilt x * Phi x.

(** The kernel at a shifted point. *)
Lemma gauss_shift (x : R) : gauss (x + b) = tilt x * gauss x.
Proof.
  unfold gauss, tilt. rewrite <- exp_plus. f_equal. field.
Qed.

Lemma tilt_gap_derivative (x : R) :
  derivable_pt_lim tilt_gap x (b * tilt x * Phi x).
Proof.
  replace (b * tilt x * Phi x)
    with (gauss (x + b) / (2 * gauss_half_mass) * (1 + 0)
          - ((tilt x * (- (b * 1) - 0)) * Phi x
             + tilt x * (gauss x / (2 * gauss_half_mass)))).
  2:{ rewrite gauss_shift. pose proof gauss_half_mass_pos. field. lra. }
  apply (derivable_pt_lim_minus (fun y => Phi (y + b)) (fun y => tilt y * Phi y)).
  - apply (derivable_pt_lim_comp (fun y => y + b) Phi).
    + apply (derivable_pt_lim_plus id (fct_cte b)).
      * apply derivable_pt_lim_id.
      * apply derivable_pt_lim_const.
    + apply Phi_derivative.
  - apply (derivable_pt_lim_mult tilt Phi).
    + unfold tilt.
      apply (derivable_pt_lim_comp (fun y => - (b * y) - b * b / 2) exp).
      * apply (derivable_pt_lim_minus (fun y => - (b * y)) (fct_cte (b * b / 2))).
        -- apply (derivable_pt_lim_opp (fun y => b * y)).
           apply (derivable_pt_lim_scal id). apply derivable_pt_lim_id.
        -- apply derivable_pt_lim_const.
      * apply derivable_pt_lim_exp.
    + apply Phi_derivative.
Qed.

Lemma tilt_gap_increasing : increasing tilt_gap.
Proof.
  assert (pr : derivable tilt_gap)
    by (intros x; eexists; apply tilt_gap_derivative).
  apply (nonneg_derivative_1 tilt_gap pr). intros x.
  rewrite (derive_pt_eq_0 _ _ _ (pr x) (tilt_gap_derivative x)).
  pose proof (Phi_range x). pose proof (exp_pos (- (b * x) - b * b / 2)).
  unfold tilt. apply Rmult_le_pos; [apply Rmult_le_pos |]; lra.
Qed.

(** Far to the left the gap is small: the tail of [Phi] decays as the kernel. *)
Lemma tilt_gap_far_left (x : R) :
  x < 0 -> - / (2 * gauss_half_mass * - x) <= tilt_gap x.
Proof.
  intros Hx. unfold tilt_gap.
  pose proof gauss_half_mass_pos as HG.
  pose proof (Phi_range (x + b)) as Hr.
  pose proof (Phi_lower_tail (- x) ltac:(lra)) as Ht.
  rewrite Ropp_involutive in Ht.
  assert (Htilt : 0 < tilt x) by apply exp_pos.
  assert (Hprod : tilt x * exp (- (- x * - x) / 2) <= 1).
  { unfold tilt. rewrite <- exp_plus, <- exp_0. apply exp_le_mono.
    pose proof (Rle_0_sqr (x + b)) as Hsq. unfold Rsqr in Hsq. nra. }
  assert (Hinv : 0 < / (2 * gauss_half_mass * - x))
    by (apply Rinv_0_lt_compat; nra).
  assert (tilt x * Phi x <= / (2 * gauss_half_mass * - x)).
  { apply Rle_trans with (tilt x * (exp (- (- x * - x) / 2) / - x / (2 * gauss_half_mass))).
    - apply Rmult_le_compat_l; lra.
    - replace (tilt x * (exp (- (- x * - x) / 2) / - x / (2 * gauss_half_mass)))
        with ((tilt x * exp (- (- x * - x) / 2)) * / (2 * gauss_half_mass * - x))
        by (field; lra).
      rewrite <- (Rmult_1_l (/ (2 * gauss_half_mass * - x))) at 2.
      apply Rmult_le_compat_r; lra. }
  lra.
Qed.

Lemma tilt_gap_nonneg (x : R) : 0 <= tilt_gap x.
Proof.
  apply Rge_le, Rle_ge. apply Rle_plus_epsilon. intros eps Heps.
  pose proof gauss_half_mass_pos as HG.
  set (y := Rmin x (- / (2 * gauss_half_mass * eps)) - 1).
  assert (Hy : y <= x /\ y < - / (2 * gauss_half_mass * eps)).
  { unfold y. pose proof (Rmin_l x (- / (2 * gauss_half_mass * eps))).
    pose proof (Rmin_r x (- / (2 * gauss_half_mass * eps))). lra. }
  assert (Hpos : 0 < / (2 * gauss_half_mass * eps))
    by (apply Rinv_0_lt_compat; nra).
  pose proof (tilt_gap_increasing y x (proj1 Hy)) as Hinc.
  pose proof (tilt_gap_far_left y ltac:(lra)) as Hfar.
  assert (/ (2 * gauss_half_mass * - y) <= eps).
  { apply Rmult_le_reg_r with (2 * gauss_half_mass * - y); [nra |].
    rewrite Rinv_l by nra.
    assert (/ (2 * gauss_half_mass * eps) * (2 * gauss_half_mass * eps) = 1)
      by (apply Rinv_l; nra).
    nra. }
  lra.
Qed.

End Tilt.

(** ** The mass of the Gaussian kernel *)

(** A primitive with a continuous derivative computes the integral. *)
Lemma integral_of_derivative (f F : R -> R) (a b : R) (pr : Riemann_integrable f a b) :
  a <= b -> continuity f -> (forall x, derivable_pt_lim F x (f x)) ->
  RiemannInt pr = F b - F a.
Proof.
  intros Hab Hc HF.
  assert (dF : derivable F) by (intros x; exists (f x); apply HF).
  assert (Hder : forall x, derive F dF x = f x)
    by (intros x; unfold derive; apply derive_pt_eq_0, HF).
  assert (cF : continuity (derive F dF)).
  { intros x. apply (continuity_pt_locally_ext f _ 1 x); [lra | | apply Hc].
    intros u _. symmetry. apply Hder. }
  set (C := mkC1 cF).
  assert (pr' : Riemann_integrable (derive C (diff0 C)) a b).
  { apply continuity_implies_RiemannInt; [exact Hab |]. intros x _. apply (cont1 C). }
  change (F b - F a) with (C b - C a).
  rewrite <- (FTC_Riemann C pr').
  apply RiemannInt_P18; [exact Hab |]. intros x _. symmetry. apply Hder.
Qed.

(** A function whose derivative vanishes everywhere is constant. *)
Lemma zero_derivative_constant (H : R -> R) :
  (forall t, derivable_pt_lim H t 0) -> forall x y, H x = H y.
Proof.
  intros Hlim.
  assert (pr : derivable H) by (intros t; exists 0; apply Hlim).
  assert (Hder : forall t, derive_pt H t (pr t) = 0)
    by (intros t; apply derive_pt_eq_0, Hlim).
  assert (Hinc : increasing H)
    by (apply (nonneg_derivative_1 H pr); intros t; rewrite Hder; lra).
  assert (Hdec : decreasing H)
    by (apply (nonpos_derivative_1 H pr); intros t; rewrite Hder; lra).
  intros x y. destruct (Rle_dec x y) as [Hle | Hgt].
  - pose proof (Hinc x y Hle). pose proof (Hdec x y Hle). lra.
  - pose proof (Hinc y x ltac:(lra)). pose proof (Hdec y x ltac:(lra)). lra.
Qed.

(** The exponential below a parabola. *)
Lemma exp_quadratic (u : R) : u <= 1 / 2 -> exp u <= 1 + u + 2 * (u * u).
Proof.
  intros Hu.
  pose proof (exp_ineq1_le (- u)) as Hm. pose proof (exp_pos u) as Hp.
  assert (Hinv : exp u * exp (- u) = 1) by (rewrite <- exp_plus, <- exp_0; f_equal; lra).
  assert (H1 : exp u * (1 - u) <= 1) by nra.
  assert (H2 : 1 <= (1 + u + 2 * (u * u)) * (1 - u)) by nra.
  assert (H3 : 0 < 1 - u) by lra.
  apply Rmult_le_reg_r with (1 - u); [exact H3 | lra].
Qed.

(** The function [t |-> exp (- x^2 * (1 + t^2) / 2) / (1 + t^2)] and its
    derivative in [x]. *)
Definition slice (x t : R) : R := exp (- (x * x * (1 + t * t)) / 2) / (1 + t * t).

Definition slice_dx (x t : R) : R := - x * exp (- (x * x * (1 + t * t)) / 2).

Lemma slice_continuity (x : R) : continuity (slice x).
Proof.
  unfold slice. intros t. reg. pose proof (Rle_0_sqr t) as H. unfold Rsqr in H. lra.
Qed.

Lemma slice_dx_continuity (x : R) : continuity (slice_dx x).
Proof. unfold slice_dx. reg. Qed.

Lemma slice_integrable (x : R) : Riemann_integrable (slice x) 0 1.
Proof.
  apply continuity_implies_RiemannInt; [lra |]. intros t _. apply slice_continuity.
Qed.

Lemma slice_dx_integrable (x : R) : Riemann_integrable (slice_dx x) 0 1.
Proof.
  apply continuity_implies_RiemannInt; [lra |]. intros t _. apply slice_dx_continuity.
Qed.

Definition slice_int (x : R) : R := RiemannInt (slice_integrable x).

Definition slice_dx_int (x : R) : R := RiemannInt (slice_dx_integrable x).

Lemma Rabs_bounds (x : R) : - Rabs x <= x <= Rabs x.
Proof.
  split; [| apply Rle_abs]. pose proof (Rle_abs (- x)) as H. rewrite Rabs_Ropp in H. lra.
Qed.

(** The increment of [slice] in [x], up to the second order. *)
Lemma slice_increment (x h t : R) :
  Rabs h <= / (4 * (Rabs x + 1)) -> 0 <= t <= 1 ->
  - (h * h) <= slice (x + h) t - slice x t - h * slice_dx x t
            <= 8 * ((Rabs x + 1) * (Rabs x + 1)) * (h * h).
Proof.
  intros Hh Ht.
  set (X := Rabs x + 1) in *.
  assert (HX : 1 <= X) by (unfold X; pose proof (Rabs_pos x); lra).
  assert (Hx : - X <= x - 1 /\ x + 1 <= X)
    by (unfold X; pose proof (Rabs_bounds x); lra).
  pose proof (Rabs_bounds h) as Hh1.
  pose proof (Rabs_pos h) as Hh0.
  assert (HhX : Rabs h * (4 * X) <= 1).
  { apply Rmult_le_reg_r with (/ (4 * X)); [apply Rinv_0_lt_compat; lra |].
    rewrite Rmult_assoc, Rinv_r by lra. lra. }
  assert (Hsmall : Rabs h <= / 4) by nra.
  set (a := 1 + t * t).
  assert (Ha : 1 <= a <= 2) by (unfold a; nra).
  set (y := x + h / 2).
  assert (Hy : - X <= y <= X) by (unfold y; lra).
  assert (Hy2 : y * y <= X * X) by nra.
  assert (Hhh : h * h = Rabs h * Rabs h).
  { unfold Rabs. destruct (Rcase_abs h); ring. }
  set (u := - (a * (h * y))).
  assert (Hu2 : u * u <= 4 * (X * X) * (h * h)).
  { replace (u * u) with ((a * a) * ((h * h) * (y * y))) by (unfold u; ring).
    assert (a * a <= 4) by nra.
    assert (0 <= h * h) by nra.
    assert ((h * h) * (y * y) <= (h * h) * (X * X)) by (apply Rmult_le_compat_l; lra).
    assert (0 <= (h * h) * (y * y)) by (apply Rmult_le_pos; nra).
    nra. }
  assert (Hu : u <= 1 / 2).
  { assert (u * u <= / 4).
    { apply Rle_trans with (4 * (X * X) * (h * h)); [exact Hu2 |].
      rewrite Hhh.
      replace (4 * (X * X) * (Rabs h * Rabs h)) with (4 * ((Rabs h * X) * (Rabs h * X)))
        by ring.
      assert (0 <= Rabs h * X <= / 4) by nra.
      nra. }
    nra. }
  pose proof (exp_quadratic u Hu) as Hup. pose proof (exp_ineq1_le u) as Hlo.
  set (p := exp (- (x * x * a) / 2)).
  assert (Hp : 0 < p <= 1).
  { split; [apply exp_pos |]. unfold p. rewrite <- exp_0. apply exp_le_mono. nra. }
  assert (Hshift : exp (- ((x + h) * (x + h) * a) / 2) = p * exp u).
  { unfold p. rewrite <- exp_plus. f_equal. unfold u, y. field. }
  assert (Hval : slice (x + h) t - slice x t - h * slice_dx x t
                 = p * (exp u - 1 - u - a * (h * h) / 2) / a).
  { unfold slice, slice_dx. fold a. rewrite Hshift. fold p. unfold u, y. field. lra. }
  rewrite Hval.
  set (E := exp u - 1 - u) in *.
  assert (HE : 0 <= E <= 2 * (u * u)) by (unfold E; lra).
  replace (p * (E - a * (h * h) / 2) / a)
    with (p * E / a - p * (h * h) / 2) by (field; lra).
  assert (Hq : 0 <= p * E / a <= E).
  { split.
    - apply Rdiv_nonneg; [apply Rmult_le_pos |]; lra.
    - apply Rmult_le_reg_r with a; [lra |].
      unfold Rdiv. rewrite Rmult_assoc, Rinv_l by lra. nra. }
  assert (Hph : 0 <= p * (h * h) / 2 <= h * h) by nra.
  split; [lra |].
  apply Rle_trans with (2 * (u * u)); [lra |]. nra.
Qed.

(** The integral of a function shifted by a constant. *)
Lemma integral_shift (f g : R -> R) (l c : R)
    (pf : Riemann_integrable f 0 1) (pg : Riemann_integrable g 0 1) :
  exists pr : Riemann_integrable (fun t => f t + l * g t + c * fct_cte 1 t) 0 1,
    RiemannInt pr = RiemannInt pf + l * RiemannInt pg + c.
Proof.
  set (pfg := RiemannInt_P10 l pf pg).
  exists (RiemannInt_P10 c pfg (RiemannInt_P14 0 1 1)).
  rewrite (RiemannInt_P13 pfg (RiemannInt_P14 0 1 1)).
  rewrite (RiemannInt_P13 pf pg), RiemannInt_P15. ring.
Qed.

(** The increment of the integral of [slice], up to the second order. *)
Lemma slice_int_increment (x h : R) :
  Rabs h <= / (4 * (Rabs x + 1)) ->
  - (h * h) <= slice_int (x + h) - slice_int x - h * slice_dx_int x
            <= 8 * ((Rabs x + 1) * (Rabs x + 1)) * (h * h).
Proof.
  intros Hh. unfold slice_int, slice_dx_int. split.
  - destruct (integral_shift (slice x) (slice_dx x) h (- (h * h))
                (slice_integrable x) (slice_dx_integrable x)) as [pr Hpr].
    assert (RiemannInt pr <= RiemannInt (slice_integrable (x + h))); [| lra].
    apply RiemannInt_P19; [lra |]. intros t Ht. unfold fct_cte.
    pose proof (slice_increment x h t Hh ltac:(lra)). lra.
  - destruct (integral_shift (slice x) (slice_dx x) h
                (8 * ((Rabs x + 1) * (Rabs x + 1)) * (h * h))
                (slice_integrable x) (slice_dx_integrable x)) as [pr Hpr].
    assert (RiemannInt (slice_integrable (x + h)) <= RiemannInt pr); [| lra].
    apply RiemannInt_P19; [lra |]. intros t Ht. unfold fct_cte.
    pose proof (slice_increment x h t Hh ltac:(lra)). lra.
Qed.

(** Differentiation under the integral sign. *)
Lemma slice_int_derivative (x : R) : derivable_pt_lim slice_int x (slice_dx_int x).
Proof.
  intros eps Heps.
  set (X := Rabs x + 1).
  assert (HX : 1 <= X) by (unfold X; pose proof (Rabs_pos x); lra).
  set (C := 8 * (X * X)).
  assert (HC : 1 <= C) by (unfold C; nra).
  assert (Hd : 0 < Rmin (/ (4 * X)) (eps / (2 * C))).
  { apply Rmin_pos; [apply Rinv_0_lt_compat; lra | apply Rdiv_lt_0_compat; lra]. }
  exists (mkposreal _ Hd). cbn [pos]. intros h Hh0 Hh.
  assert (Hh1 : Rabs h <= / (4 * X))
    by (pose proof (Rmin_l (/ (4 * X)) (eps / (2 * C))); lra).
  assert (Hh2 : Rabs h < eps / (2 * C))
    by (pose proof (Rmin_r (/ (4 * X)) (eps / (2 * C))); lra).
  pose proof (slice_int_increment x h Hh1) as Hinc. fold X in Hinc. fold C in Hinc.
  set (D := slice_int (x + h) - slice_int x - h * slice_dx_int x) in *.
  replace ((slice_int (x + h) - slice_int x) / h - slice_dx_int x) with (D / h)
    by (unfold D; field; exact Hh0).
  assert (Hhh : h * h = Rabs h * Rabs h).
  { unfold Rabs. destruct (Rcase_abs h); ring. }
  assert (HhP : 0 < Rabs h) by now apply Rabs_pos_lt.
  assert (HD : Rabs D <= C * (Rabs h * Rabs h)).
  { rewrite <- Hhh. apply Rabs_le. nra. }
  unfold Rdiv. rewrite Rabs_mult, Rabs_inv.
  apply Rle_lt_trans with (C * Rabs h).
  - apply Rmult_le_reg_r with (Rabs h); [exact HhP |].
    rewrite Rmult_assoc, Rinv_l by lra. nra.
  - assert (C * (eps / (2 * C)) = eps / 2) by (field; lra).
    assert (C * Rabs h < C * (eps / (2 * C))) by (apply Rmult_lt_compat_l; lra).
    lra.
Qed.

(** The derivative is minus the kernel times its integral: the substitution
    [u = x * t]. *)
Lemma slice_dx_int_value (x : R) : slice_dx_int x = - (gauss x * gauss_int 0 x).
Proof.
  unfold slice_dx_int.
  rewrite (integral_of_derivative (slice_dx x)
             (fun t => - (gauss x * gauss_int 0 (x * t))) 0 1).
  - rewrite Rmult_1_r, Rmult_0_r, gauss_int_refl. ring.
  - lra.
  - apply slice_dx_continuity.
  - intros t.
    apply (derivable_pt_lim_value _ _ _ (- (gauss x * (gauss (x * t) * (x * 1))))).
    { unfold slice_dx, gauss.
      replace (- (x * x * (1 + t * t)) / 2)
        with (- (x * x) / 2 + - (x * t * (x * t)) / 2) by field.
      rewrite exp_plus. ring. }
    apply (derivable_pt_lim_opp (fun t => gauss x * gauss_int 0 (x * t))).
    apply (derivable_pt_lim_scal (fun t => gauss_int 0 (x * t))).
    apply (derivable_pt_lim_comp (fun t => x * t) (gauss_int 0)).
    + apply (derivable_pt_lim_scal id). apply derivable_pt_lim_id.
    + apply gauss_int_derivative.
Qed.

(** At the origin the integral is that of [1 / (1 + t^2)]. *)
Lemma slice_int_0 : slice_int 0 = PI / 4.
Proof.
  unfold slice_int.
  rewrite (integral_of_derivative (slice 0) atan 0 1).
  - rewrite atan_1, atan_0. ring.
  - lra.
  - apply slice_continuity.
  - intros t. apply (derivable_pt_lim_value _ _ _ (/ (1 + t ^ 2)));
      [| apply derivable_pt_lim_atan].
    unfold slice. replace (- (0 * 0 * (1 + t * t)) / 2) with 0 by field.
    rewrite exp_0. cbn [pow]. rewrite Rmult_1_r. unfold Rdiv. ring.
Qed.

Lemma slice_int_bounds (x : R) : 0 <= slice_int x <= gauss x.
Proof.
  unfold slice_int. split.
  - assert (H : RiemannInt (RiemannInt_P14 0 1 0) <= RiemannInt (slice_integrable x)).
    { apply RiemannInt_P19; [lra |]. intros t Ht. unfold fct_cte, slice.
      apply Rdiv_nonneg; [left; apply exp_pos | nra]. }
    rewrite RiemannInt_P15 in H. lra.
  - assert (H : RiemannInt (slice_integrable x) <= RiemannInt (RiemannInt_P14 0 1 (gauss x))).
    { apply RiemannInt_P19; [lra |]. intros t Ht. unfold fct_cte, slice, gauss.
      assert (Ha : 1 <= 1 + t * t) by nra.
      assert (He : exp (- (x * x * (1 + t * t)) / 2) <= exp (- (x * x) / 2)).
      { apply exp_le_mono. nra. }
      pose proof (exp_pos (- (x * x * (1 + t * t)) / 2)) as Hp.
      apply Rmult_le_reg_r with (1 + t * t); [lra |].
      unfold Rdiv. rewrite Rmult_assoc, Rinv_l by lra. nra. }
    rewrite RiemannInt_P15 in H. lra.
Qed.

(** The square of the mass over a segment, plus twice the integral of
    [slice], is [PI / 2]. *)
Lemma gauss_int_square (x : R) :
  gauss_int 0 x * gauss_int 0 x + 2 * slice_int x = PI / 2.
Proof.
  set (H := fun x => gauss_int 0 x * gauss_int 0 x + 2 * slice_int x).
  assert (Hlim : forall t, derivable_pt_lim H t 0).
  { intros t.
    apply (derivable_pt_lim_value _ _ _
             ((gauss t * gauss_int 0 t + gauss_int 0 t * gauss t) + 2 * slice_dx_int t));
      [rewrite slice_dx_int_value; ring |].
    apply (derivable_pt_lim_plus (fun x => gauss_int 0 x * gauss_int 0 x)
             (fun x => 2 * slice_int x)).
    - apply (derivable_pt_lim_mult (gauss_int 0) (gauss_int 0));
        apply gauss_int_derivative.
    - apply (derivable_pt_lim_scal slice_int). apply slice_int_derivative. }
  change (H x = PI / 2). rewrite (zero_derivative_constant H Hlim x 0).
  unfold H. rewrite gauss_int_refl, slice_int_0. field.
Qed.

(** The kernel is small far from the origin. *)
Lemma gauss_small (eps : R) : 0 < eps -> exists x : R, 0 <= x /\ gauss x < eps.
Proof.
  intros Heps. exists (2 / eps + 1).
  assert (Hx : 0 < 2 / eps) by (apply Rdiv_lt_0_compat; lra).
  split; [lra |]. unfold gauss.
  set (v := (2 / eps + 1) * (2 / eps + 1) / 2).
  replace (- ((2 / eps + 1) * (2 / eps + 1)) / 2) with (- v) by (unfold v; field; lra).
  assert (Hv : / eps < v).
  { unfold v. replace (/ eps) with (2 / eps / 2) by (field; lra). nra. }
  pose proof (exp_ineq1_le v) as Hexp. rewrite exp_Ropp.
  assert (0 < / eps) by (apply Rinv_0_lt_compat; lra).
  rewrite <- (Rinv_inv eps).
  apply Rinv_lt_contravar; [apply Rmult_lt_0_compat; lra | lra].
Qed.

(** The Gaussian integral. *)
Lemma gauss_half_mass_square : gauss_half_mass * gauss_half_mass = PI / 2.
Proof.
  pose proof gauss_half_mass_pos as HG. pose proof PI_RGT_0 as Hpi.
  apply Rle_antisym.
  - (* every mass over a segment has a square below [PI / 2] *)
    assert (Hub : gauss_half_mass <= sqrt (PI / 2)).
    { apply (proj2 gauss_half_mass_lub). intros m [x [Hx ->]].
      pose proof (gauss_int_square x) as Hsq. pose proof (slice_int_bounds x) as Hb.
      pose proof (gauss_int_nonneg 0 x Hx) as Hnn.
      apply Rsqr_incr_0_var; [| apply sqrt_pos].
      rewrite Rsqr_sqrt by lra. unfold Rsqr. lra. }
    assert (Hs : sqrt (PI / 2) * sqrt (PI / 2) = PI / 2) by (apply sqrt_sqrt; lra).
    pose proof (sqrt_pos (PI / 2)). nra.
  - apply Rle_plus_epsilon. intros eps Heps.
    destruct (gauss_small (eps / 2) ltac:(lra)) as (x & Hx & Hsmall).
    pose proof (gauss_int_square x) as Hsq. pose proof (slice_int_bounds x) as Hb.
    pose proof (gauss_int_nonneg 0 x Hx) as Hnn.
    pose proof (gauss_int_le_half_mass x Hx) as Hle.
    assert (gauss_int 0 x * gauss_int 0 x <= gauss_half_mass * gauss_half_mass) by nra.
    lra.
Qed.

Lemma gauss_half_mass_value : 2 * gauss_half_mass = sqrt (2 * PI).
Proof.
  pose proof gauss_half_mass_pos as HG. pose proof PI_RGT_0 as Hpi.
  symmetry. apply sqrt_lem_1; [lra | lra |].
  pose proof gauss_half_mass_square. nra.
Qed.

(** The density is the derivative of the distribution function. *)
Lemma Phi_derivative_phi (x : R) : derivable_pt_lim Phi x (phi x).
Proof.
  unfold phi. rewrite <- gauss_half_mass_value. apply Phi_derivative.
Qed.

(** ** Bounds on the Black-Scholes prices *)

(** The total standard deviation [b = sigma * sqrt T] links [d1] and [d2]:
    [d2 + b = d1] and [b * d2 + b^2 / 2 = ln (S / K) + r * T]. *)
Lemma d2_tilt (S K T r sigma : R) :
  0 < T -> 0 < sigma ->
  let b := sigma * sqrt T in
  d2_of S K T r sigma + b = d1_of S K T r sigma /\
  b * d2_of S K T r sigma + b * b / 2 = ln (S / K) + r * T.
Proof.
  intros HT Hsig b.
  assert (Hs : 0 < sqrt T) by now apply sqrt_lt_R0.
  assert (Hss : sqrt T * sqrt T = T) by (apply sqrt_sqrt; lra).
  assert (Hb : d1_of S K T r sigma * b = ln (S / K) + (r + 1 / 2 * (sigma * sigma)) * T).
  { unfold d1_of, b. field. split; lra. }
  unfold d2_of. fold b. split; [lra |]. unfold b in *. nra.
Qed.

(** The discounted strike over the spot is [exp (- (ln (S / K) + r * T))]. *)
Lemma forward_ratio (S K T r : R) :
  0 < S -> 0 < K ->
  S * exp (- (ln (S / K) + r * T)) = K * exp (- r * T).
Proof.
  intros HS HK.
  assert (HSK : 0 < S / K) by now apply Rdiv_lt_0_compat.
  replace (- (ln (S / K) + r * T)) with (- ln (S / K) + - r * T) by lra.
  rewrite exp_plus, exp_Ropp, exp_ln by exact HSK. field. lra.
Qed.

(** Neither price is negative on the live branch. *)
Lemma live_values_nonneg (S K T r sigma : R) :
  0 < S -> 0 < K -> 0 < T -> 0 < sigma ->
  0 <= S * Phi (d1_of S K T r sigma) - K * exp (- r * T) * Phi (d2_of S K T r sigma) /\
  0 <= K * exp (- r * T) * Phi (- d2_of S K T r sigma) - S * Phi (- d1_of S K T r sigma).
Proof.
  intros HS HK HT Hsig.
  destruct (d2_tilt S K T r sigma HT Hsig) as [Hd1 Hm]. cbv zeta in Hd1, Hm.
  pose proof (forward_ratio S K T r HS HK) as HF.
  set (b := sigma * sqrt T) in *.
  set (d1 := d1_of S K T r sigma) in *. set (d2 := d2_of S K T r sigma) in *.
  set (m := ln (S / K) + r * T) in *.
  assert (Hb : 0 <= b).
  { unfold b. apply Rmult_le_pos; [lra | apply sqrt_pos]. }
  assert (Hem : exp (- m) * exp m = 1) by (rewrite <- exp_plus, <- exp_0; f_equal; lra).
  pose proof (exp_pos m) as Hpm. pose proof (exp_pos (- m)) as Hpm'.
  split.
  - pose proof (tilt_gap_nonneg b Hb d2) as Hg. unfold tilt_gap, tilt in Hg.
    replace (d2 + b) with d1 in Hg by lra.
    replace (- (b * d2) - b * b / 2) with (- m) in Hg by lra.
    rewrite <- HF. pose proof (Phi_range d2). nra.
  - pose proof (tilt_gap_nonneg b Hb (- d1)) as Hg. unfold tilt_gap, tilt in Hg.
    replace (- d1 + b) with (- d2) in Hg by lra.
    replace (- (b * - d1) - b * b / 2) with m in Hg by (rewrite <- Hm, <- Hd1; field).
    rewrite <- HF. pose proof (Phi_range (- d1)).
    assert (0 <= S * (exp (- m) * (Phi (- d2) - exp m * Phi (- d1)))).
    { apply Rmult_le_pos; [lra |]. apply Rmult_le_pos; lra. }
    replace (S * Phi (- d1)) with (S * (exp (- m) * exp m) * Phi (- d1))
      by (rewrite Hem; ring).
    lra.
Qed.

(** X1: for spot, strike and volatility positive and [T >= 0], both prices
    are finite and lie within the arbitrage bounds: the call between
    [max(0, S - K * exp (- r * T))] and [S], the put between
    [max(0, K * exp (- r * T) - S)] and [K * exp (- r * T)]. *)
Theorem price_within_arbitrage_bounds (S K T r sigma : R) :
  0 < S -> 0 < K -> 0 < sigma -> 0 <= T ->
  exists c p : R,
    black_scholes_price (Fin S) (Fin K) (Fin T) (Fin r) (Fin sigma) "call" = Ok (Fin c) /\
    black_scholes_price (Fin S) (Fin K) (Fin T) (Fin r) (Fin sigma) "put" = Ok (Fin p) /\
    Rmax 0 (S - K * exp (- r * T)) <= c <= S /\
    Rmax 0 (K * exp (- r * T) - S) <= p <= K * exp (- r * T).
Proof.
  intros HS HK Hsig HT.
  destruct (Rlt_dec 0 T) as [Hlive | Hdead].
  - rewrite (price_live S K T r sigma "call"), (price_live S K T r sigma "put")
      by assumption.
    cbn [String.eqb Ascii.eqb Bool.eqb].
    eexists _, _. split; [reflexivity | split; [reflexivity |]].
    destruct (live_values_nonneg S K T r sigma HS HK Hlive Hsig) as [Hc Hp].
    pose proof (Phi_symmetry (d1_of S K T r sigma)) as H1.
    pose proof (Phi_symmetry (d2_of S K T r sigma)) as H2.
    pose proof (Phi_range (d1_of S K T r sigma)) as R1.
    pose proof (Phi_range (d2_of S K T r sigma)) as R2.
    pose proof (Phi_range (- d1_of S K T r sigma)) as R3.
    pose proof (Phi_range (- d2_of S K T r sigma)) as R4.
    assert (HF : 0 < K * exp (- r * T))
      by (apply Rmult_lt_0_compat; [exact HK | apply exp_pos]).
    set (F := K * exp (- r * T)) in *.
    repeat split.
    + apply Rmax_lub; [exact Hc | nra].
    + nra.
    + apply Rmax_lub; [exact Hp | nra].
    + nra.
  - assert (T = 0) by lra. subst T.
    exists (Rmax 0 (S - K)), (Rmax 0 (K - S)).
    split; [| split].
    + apply (price_expired S K). cbn. apply Rleb_true. lra.
    + apply (price_expired S K). cbn. apply Rleb_true. lra.
    + replace (- r * 0) with 0 by ring. rewrite exp_0, Rmult_1_r.
      unfold Rmax. destruct (Rle_dec 0 (S - K)), (Rle_dec 0 (K - S)); lra.
Qed.

Lemma price_within_arbitrage_bounds_witness :
  exists c p : R,
    black_scholes_price (Fin 150) (Fin 160) (Fin (1 / 2)) (Fin (2 / 100)) (Fin (25 / 100)) "call"
      = Ok (Fin c) /\
    black_scholes_price (Fin 150) (Fin 160) (Fin (1 / 2)) (Fin (2 / 100)) (Fin (25 / 100)) "put"
      = Ok (Fin p) /\
    Rmax 0 (150 - 160 * exp (- (2 / 100) * (1 / 2))) <= c <= 150 /\
    Rmax 0 (160 * exp (- (2 / 100) * (1 / 2)) - 150) <= p <= 160 * exp (- (2 / 100) * (1 / 2)).
Proof.
  apply (price_within_arbitrage_bounds 150 160 (1 / 2) (2 / 100) (25 / 100)); lra.
Defined.

(** ** Sensitivities of the prices *)

(** The chain rule for [Phi]. *)
Lemma Phi_comp_derivative (u : R -> R) (x l : R) :
  derivable_pt_lim u x l ->
  derivable_pt_lim (fun y => Phi (u y)) x (gauss (u x) / (2 * gauss_half_mass) * l).
Proof.
  intros H. apply (derivable_pt_lim_comp u Phi); [exact H | apply Phi_derivative].
Qed.

(** Derivative of [A * Phi u - B * Phi v], the shape of both prices. *)
Lemma option_form_derivative (A B u v : R -> R) (x A' B' u' v' : R) :
  derivable_pt_lim A x A' -> derivable_pt_lim B x B' ->
  derivable_pt_lim u x u' -> derivable_pt_lim v x v' ->
  derivable_pt_lim (fun y => A y * Phi (u y) - B y * Phi (v y)) x
    (A' * Phi (u x) - B' * Phi (v x)
     + (A x * gauss (u x) * u' - B x * gauss (v x) * v') / (2 * gauss_half_mass)).
Proof.
  intros HA HB Hu Hv.
  replace (A' * Phi (u x) - B' * Phi (v x)
           + (A x * gauss (u x) * u' - B x * gauss (v x) * v') / (2 * gauss_half_mass))
    with ((A' * Phi (u x) + A x * (gauss (u x) / (2 * gauss_half_mass) * u'))
          - (B' * Phi (v x) + B x * (gauss (v x) / (2 * gauss_half_mass) * v'))).
  2:{ pose proof gauss_half_mass_pos. field. lra. }
  apply (derivable_pt_lim_minus (fun y => A y * Phi (u y)) (fun y => B y * Phi (v y))).
  - apply (derivable_pt_lim_mult A (fun y => Phi (u y))); [exact HA |].
    now apply Phi_comp_derivative.
  - apply (derivable_pt_lim_mult B (fun y => Phi (v y))); [exact HB |].
    now apply Phi_comp_derivative.
Qed.

(** The kernel at [d1] and [d2]: [S * gauss d1 = K * exp (- r * T) * gauss d2]. *)
Lemma spot_strike_kernels (S K T r sigma : R) :
  0 < S -> 0 < K -> 0 < T -> 0 < sigma ->
  S * gauss (d1_of S K T r sigma) = K * exp (- r * T) * gauss (d2_of S K T r sigma).
Proof.
  intros HS HK HT Hsig.
  pose proof (d1_d2_squares S K T r sigma HT Hsig) as Hsq. cbv zeta in Hsq.
  assert (HSK : 0 < S / K) by now apply Rdiv_lt_0_compat.
  unfold gauss.
  replace (- (d1_of S K T r sigma * d1_of S K T r sigma) / 2)
    with (- (d2_of S K T r sigma * d2_of S K T r sigma) / 2 + (- ln (S / K) + - r * T))
    by lra.
  rewrite !exp_plus, exp_Ropp, exp_ln by exact HSK. field. lra.
Qed.

(** The real-valued functions computed on the live branch. *)
Definition call_value (S K T r sigma : R) : R :=
  S * Phi (d1_of S K T r sigma) - K * exp (- r * T) * Phi (d2_of S K T r sigma).

Definition put_value (S K T r sigma : R) : R :=
  K * exp (- r * T) * Phi (- d2_of S K T r sigma) - S * Phi (- d1_of S K T r sigma).

(** Put-call parity, for every real input. *)
Lemma put_value_parity (S K T r sigma : R) :
  put_value S K T r sigma = call_value S K T r sigma - S + K * exp (- r * T).
Proof.
  unfold put_value, call_value.
  pose proof (Phi_symmetry (d1_of S K T r sigma)).
  pose proof (Phi_symmetry (d2_of S K T r sigma)).
  nra.
Qed.

(** *** Sensitivity to the spot *)

Lemma d1_spot_derivative (S K T r sigma : R) :
  0 < S -> 0 < K ->
  derivable_pt_lim (fun s => d1_of s K T r sigma) S (/ S / (sigma * sqrt T)).
Proof.
  intros HS HK. unfold d1_of.
  apply (derivable_pt_lim_div_scal
           (fun s => ln (s / K) + (r + 1 / 2 * (sigma * sigma)) * T)).
  replace (/ S) with (/ (S / K) * (1 / K) + 0) by (field; lra).
  apply (derivable_pt_lim_plus (fun s => ln (s / K))
           (fct_cte ((r + 1 / 2 * (sigma * sigma)) * T))).
  - apply (derivable_pt_lim_comp (fun s => s / K) ln).
    + apply (derivable_pt_lim_div_scal id). apply derivable_pt_lim_id.
    + apply derivable_pt_lim_ln. now apply Rdiv_lt_0_compat.
  - apply derivable_pt_lim_const.
Qed.

Lemma d2_spot_derivative (S K T r sigma : R) :
  0 < S -> 0 < K ->
  derivable_pt_lim (fun s => d2_of s K T r sigma) S (/ S / (sigma * sqrt T)).
Proof.
  intros HS HK. unfold d2_of.
  replace (/ S / (sigma * sqrt T)) with (/ S / (sigma * sqrt T) - 0) by ring.
  apply (derivable_pt_lim_minus (fun s => d1_of s K T r sigma)
           (fct_cte (sigma * sqrt T))).
  - now apply d1_spot_derivative.
  - apply derivable_pt_lim_const.
Qed.

(** The two kernel terms cancel: the derivative of the call is [Phi d1]. *)
Lemma call_value_spot_derivative (S K T r sigma : R) :
  0 < S -> 0 < K -> 0 < T -> 0 < sigma ->
  derivable_pt_lim (fun s => call_value s K T r sigma) S (Phi (d1_of S K T r sigma)).
Proof.
  intros HS HK HT Hsig.
  pose proof (option_form_derivative id (fct_cte (K * exp (- r * T)))
                (fun s => d1_of s K T r sigma) (fun s => d2_of s K T r sigma)
                S 1 0 _ _
                (derivable_pt_lim_id S) (derivable_pt_lim_const _ S)
                (d1_spot_derivative S K T r sigma HS HK)
                (d2_spot_derivative S K T r sigma HS HK)) as H.
  unfold id, fct_cte in H.
  rewrite <- (spot_strike_kernels S K T r sigma HS HK HT Hsig) in H.
  replace (Phi (d1_of S K T r sigma))
    with (1 * Phi (d1_of S K T r sigma) - 0 * Phi (d2_of S K T r sigma)
          + (S * gauss (d1_of S K T r sigma) * (/ S / (sigma * sqrt T))
             - S * gauss (d1_of S K T r sigma) * (/ S / (sigma * sqrt T)))
            / (2 * gauss_half_mass)).
  - exact H.
  - pose proof gauss_half_mass_pos. assert (0 < sqrt T) by now apply sqrt_lt_R0.
    field. repeat split; lra.
Qed.

Lemma put_value_spot_derivative (S K T r sigma : R) :
  0 < S -> 0 < K -> 0 < T -> 0 < sigma ->
  derivable_pt_lim (fun s => put_value s K T r sigma) S (Phi (d1_of S K T r sigma) - 1).
Proof.
  intros HS HK HT Hsig.
  apply (derivable_pt_lim_ext
           (fun s => call_value s K T r sigma - s + K * exp (- r * T))).
  { intros s. symmetry. apply put_value_parity. }
  replace (Phi (d1_of S K T r sigma) - 1) with (Phi (d1_of S K T r sigma) - 1 + 0) by ring.
  apply (derivable_pt_lim_plus (fun s => call_value s K T r sigma - s)
           (fct_cte (K * exp (- r * T)))); [| apply derivable_pt_lim_const].
  apply (derivable_pt_lim_minus (fun s => call_value s K T r sigma) id).
  - now apply call_value_spot_derivative.
  - apply derivable_pt_lim_id.
Qed.

(** The prices of the live branch are these two functions. *)
Lemma price_live_values (S K T r sigma : R) :
  0 < S -> 0 < K -> 0 < T -> 0 < sigma ->
  black_scholes_price (Fin S) (Fin K) (Fin T) (Fin r) (Fin sigma) "call"
    = Ok (Fin (call_value S K T r sigma)) /\
  black_scholes_price (Fin S) (Fin K) (Fin T) (Fin r) (Fin sigma) "put"
    = Ok (Fin (put_value S K T r sigma)).
Proof.
  intros HS HK HT Hsig.
  rewrite (price_live S K T r sigma "call"), (price_live S K T r sigma "put")
    by assumption.
  split; reflexivity.
Qed.

(** X2: on the live branch the [Delta] that [black_scholes_greeks] returns
    is the derivative, in the spot, of the price that [black_scholes_price]
    returns, for a call and for a put. *)
Theorem delta_is_spot_derivative (S K T r sigma : R) (option_type : string) :
  0 < S -> 0 < K -> 0 < T -> 0 < sigma ->
  option_type = "call"%string \/ option_type = "put"%string ->
  exists (g : greeks) (delta : R) (price : R -> R),
    black_scholes_greeks (Fin S) (Fin K) (Fin T) (Fin r) (Fin sigma) option_type = Ok g /\
    Delta g = Fin delta /\
    (forall s : R, 0 < s ->
       black_scholes_price (Fin s) (Fin K) (Fin T) (Fin r) (Fin sigma) option_type
       = Ok (Fin (price s))) /\
    derivable_pt_lim price S delta.
Proof.
  intros HS HK HT Hsig Hkind.
  rewrite (greeks_live S K T r sigma option_type) by assumption.
  destruct Hkind; subst option_type; cbn [String.eqb Ascii.eqb Bool.eqb].
  - eexists _, _, (fun s => call_value s K T r sigma).
    split; [reflexivity |]. split; [reflexivity |]. split.
    + intros s Hs. now apply price_live_values.
    + now apply call_value_spot_derivative.
  - eexists _, _, (fun s => put_value s K T r sigma).
    split; [reflexivity |]. split; [reflexivity |]. split.
    + intros s Hs. now apply price_live_values.
    + now apply put_value_spot_derivative.
Qed.

Lemma delta_is_spot_derivative_witness :
  exists (g : greeks) (delta : R) (price : R -> R),
    black_scholes_greeks (Fin 150) (Fin 160) (Fin (1 / 2)) (Fin (2 / 100)) (Fin (25 / 100))
      "put" = Ok g /\
    Delta g = Fin delta /\
    (forall s : R, 0 < s ->
       black_scholes_price (Fin s) (Fin 160) (Fin (1 / 2)) (Fin (2 / 100)) (Fin (25 / 100))
         "put"
       = Ok (Fin (price s))) /\
    derivable_pt_lim price 150 delta.
Proof.
  apply (delta_is_spot_derivative 150 160 (1 / 2) (2 / 100) (25 / 100) "put"); try lra.
  right. reflexivity.
Defined.

(** *** Sensitivity to the rate *)

Lemma d1_rate_derivative (S K T r sigma : R) :
  derivable_pt_lim (fun x => d1_of S K T x sigma) r (T / (sigma * sqrt T)).
Proof.
  unfold d1_of.
  apply (derivable_pt_lim_div_scal
           (fun x => ln (S / K) + (x + 1 / 2 * (sigma * sigma)) * T)).
  apply (derivable_pt_lim_value _ _ _ (0 + (1 + 0) * T)); [ring |].
  apply (derivable_pt_lim_plus (fct_cte (ln (S / K)))
           (fun x => (x + 1 / 2 * (sigma * sigma)) * T)).
  - apply derivable_pt_lim_const.
  - apply (derivable_pt_lim_scal_right (fun x => x + 1 / 2 * (sigma * sigma))).
    apply (derivable_pt_lim_plus id (fct_cte (1 / 2 * (sigma * sigma)))).
    + apply derivable_pt_lim_id.
    + apply derivable_pt_lim_const.
Qed.

Lemma d2_rate_derivative (S K T r sigma : R) :
  derivable_pt_lim (fun x => d2_of S K T x sigma) r (T / (sigma * sqrt T)).
Proof.
  unfold d2_of.
  replace (T / (sigma * sqrt T)) with (T / (sigma * sqrt T) - 0) by ring.
  apply (derivable_pt_lim_minus (fun x => d1_of S K T x sigma)
           (fct_cte (sigma * sqrt T))).
  - apply d1_rate_derivative.
  - apply derivable_pt_lim_const.
Qed.

(** The discounted strike as a function of the rate. *)
Lemma discount_derivative (K T r : R) :
  derivable_pt_lim (fun x => K * exp (- x * T)) r (- (K * T * exp (- r * T))).
Proof.
  replace (- (K * T * exp (- r * T))) with (K * (exp (- r * T) * (- 1 * T))) by ring.
  apply (derivable_pt_lim_scal (fun x => exp (- x * T))).
  apply (derivable_pt_lim_comp (fun x => - x * T) exp).
  - apply (derivable_pt_lim_scal_right (fun x => - x)).
    apply (derivable_pt_lim_opp id). apply derivable_pt_lim_id.
  - apply derivable_pt_lim_exp.
Qed.

Lemma call_value_rate_derivative (S K T r sigma : R) :
  0 < S -> 0 < K -> 0 < T -> 0 < sigma ->
  derivable_pt_lim (fun x => call_value S K T x sigma) r
    (K * T * exp (- r * T) * Phi (d2_of S K T r sigma)).
Proof.
  intros HS HK HT Hsig.
  pose proof (option_form_derivative (fct_cte S) (fun x => K * exp (- x * T))
                (fun x => d1_of S K T x sigma) (fun x => d2_of S K T x sigma)
                r 0 _ _ _
                (derivable_pt_lim_const _ r) (discount_derivative K T r)
                (d1_rate_derivative S K T r sigma)
                (d2_rate_derivative S K T r sigma)) as H.
  unfold fct_cte in H.
  rewrite <- (spot_strike_kernels S K T r sigma HS HK HT Hsig) in H.
  match type of H with
  | derivable_pt_lim _ _ ?l =>
      replace (K * T * exp (- r * T) * Phi (d2_of S K T r sigma)) with l; [exact H |]
  end.
  pose proof gauss_half_mass_pos. assert (0 < sqrt T) by now apply sqrt_lt_R0.
  field. repeat split; lra.
Qed.

Lemma put_value_rate_derivative (S K T r sigma : R) :
  0 < S -> 0 < K -> 0 < T -> 0 < sigma ->
  derivable_pt_lim (fun x => put_value S K T x sigma) r
    (- (K * T * exp (- r * T) * Phi (- d2_of S K T r sigma))).
Proof.
  intros HS HK HT Hsig.
  apply (derivable_pt_lim_ext
           (fun x => call_value S K T x sigma - S + K * exp (- x * T))).
  { intros x. symmetry. apply put_value_parity. }
  replace (- (K * T * exp (- r * T) * Phi (- d2_of S K T r sigma)))
    with (K * T * exp (- r * T) * Phi (d2_of S K T r sigma) - 0
          + - (K * T * exp (- r * T)))
    by (pose proof (Phi_symmetry (d2_of S K T r sigma)); nra).
  apply (derivable_pt_lim_plus (fun x => call_value S K T x sigma - S)
           (fun x => K * exp (- x * T))); [| apply discount_derivative].
  apply (derivable_pt_lim_minus (fun x => call_value S K T x sigma) (fct_cte S)).
  - now apply call_value_rate_derivative.
  - apply derivable_pt_lim_const.
Qed.

(** X3: the [Rho] returned for a call is the derivative of the call price in
    the rate; the [Rho] returned for a put is the opposite of the derivative
    of the put price in the rate.  Both are non-negative. *)
Theorem rho_is_rate_derivative_up_to_sign (S K T r sigma : R) :
  0 < S -> 0 < K -> 0 < T -> 0 < sigma ->
  exists (gc gp : greeks) (rho_c rho_p : R) (call put : R -> R),
    black_scholes_greeks (Fin S) (Fin K) (Fin T) (Fin r) (Fin sigma) "call" = Ok gc /\
    black_scholes_greeks (Fin S) (Fin K) (Fin T) (Fin r) (Fin sigma) "put" = Ok gp /\
    Rho gc = Fin rho_c /\ Rho gp = Fin rho_p /\
    (forall x : R,
       black_scholes_price (Fin S) (Fin K) (Fin T) (Fin x) (Fin sigma) "call"
         = Ok (Fin (call x)) /\
       black_scholes_price (Fin S) (Fin K) (Fin T) (Fin x) (Fin sigma) "put"
         = Ok (Fin (put x))) /\
    derivable_pt_lim call r rho_c /\
    derivable_pt_lim put r (- rho_p) /\
    0 <= rho_c /\ 0 <= rho_p.
Proof.
  intros HS HK HT Hsig.
  rewrite (greeks_live S K T r sigma "call"), (greeks_live S K T r sigma "put")
    by assumption.
  cbn [String.eqb Ascii.eqb Bool.eqb].
  eexists _, _, _, _, (fun x => call_value S K T x sigma), (fun x => put_value S K T x sigma).
  split; [reflexivity |]. split; [reflexivity |].
  split; [reflexivity |]. split; [reflexivity |].
  assert (HF : 0 <= K * T * exp (- r * T)).
  { pose proof (exp_pos (- r * T)). apply Rmult_le_pos; [nra | lra]. }
  repeat split.
  - now apply price_live_values.
  - now apply price_live_values.
  - now apply call_value_rate_derivative.
  - now apply put_value_rate_derivative.
  - apply Rmult_le_pos; [exact HF | apply Phi_range].
  - apply Rmult_le_pos; [exact HF | apply Phi_range].
Qed.

Lemma rho_is_rate_derivative_up_to_sign_witness :
  exists (gc gp : greeks) (rho_c rho_p : R) (call put : R -> R),
    black_scholes_greeks (Fin 150) (Fin 160) (Fin (1 / 2)) (Fin (2 / 100)) (Fin (25 / 100))
      "call" = Ok gc /\
    black_scholes_greeks (Fin 150) (Fin 160) (Fin (1 / 2)) (Fin (2 / 100)) (Fin (25 / 100))
      "put" = Ok gp /\
    Rho gc = Fin rho_c /\ Rho gp = Fin rho_p /\
    (forall x : R,
       black_scholes_price (Fin 150) (Fin 160) (Fin (1 / 2)) (Fin x) (Fin (25 / 100)) "call"
         = Ok (Fin (call x)) /\
       black_scholes_price (Fin 150) (Fin 160) (Fin (1 / 2)) (Fin x) (Fin (25 / 100)) "put"
         = Ok (Fin (put x))) /\
    derivable_pt_lim call (2 / 100) rho_c /\
    derivable_pt_lim put (2 / 100) (- rho_p) /\
    0 <= rho_c /\ 0 <= rho_p.
Proof.
  apply (rho_is_rate_derivative_up_to_sign 150 160 (1 / 2) (2 / 100) (25 / 100)); lra.
Defined.

(** *** Monotonicity in the spot *)

Lemma call_value_spot_lipschitz (S1 S2 K T r sigma : R) :
  0 < S1 -> S1 <= S2 -> 0 < K -> 0 < T -> 0 < sigma ->
  0 <= call_value S2 K T r sigma - call_value S1 K T r sigma <= S2 - S1.
Proof.
  intros HS1 HS HK HT Hsig.
  destruct (Req_dec S1 S2) as [-> | Hne]; [lra |].
  destruct (MVT_cor2 (fun s => call_value s K T r sigma)
              (fun s => Phi (d1_of s K T r sigma)) S1 S2 ltac:(lra)) as (c & Hc & Hin).
  { intros c Hc. apply call_value_spot_derivative; lra. }
  rewrite Hc. pose proof (Phi_range (d1_of c K T r sigma)). nra.
Qed.

(** *** Sensitivity to the volatility *)

Lemma d1_vol_derivative (S K T r sigma : R) :
  0 < T -> 0 < sigma ->
  derivable_pt_lim (fun x => d1_of S K T r x) sigma
    (sqrt T - d1_of S K T r sigma / sigma).
Proof.
  intros HT Hsig.
  assert (Hs : 0 < sqrt T) by now apply sqrt_lt_R0.
  assert (Hss : sqrt T * sqrt T = T) by (apply sqrt_sqrt; lra).
  unfold d1_of.
  apply (derivable_pt_lim_value _ _ _
           (((0 + (0 + 1 / 2 * (1 * sigma + sigma * 1)) * T) * (sigma * sqrt T)
             - 1 * sqrt T * (ln (S / K) + (r + 1 / 2 * (sigma * sigma)) * T))
            / Rsqr (sigma * sqrt T))).
  { unfold Rsqr. rewrite <- Hss at 1. field. split; lra. }
  apply (derivable_pt_lim_div
           (fun x => ln (S / K) + (r + 1 / 2 * (x * x)) * T)
           (fun x => x * sqrt T)).
  - apply (derivable_pt_lim_plus (fct_cte (ln (S / K)))
             (fun x => (r + 1 / 2 * (x * x)) * T)).
    + apply derivable_pt_lim_const.
    + apply (derivable_pt_lim_scal_right (fun x => r + 1 / 2 * (x * x))).
      apply (derivable_pt_lim_plus (fct_cte r) (fun x => 1 / 2 * (x * x))).
      * apply derivable_pt_lim_const.
      * apply (derivable_pt_lim_scal (fun x => x * x)).
        apply (derivable_pt_lim_mult id id); apply derivable_pt_lim_id.
  - apply (derivable_pt_lim_scal_right id). apply derivable_pt_lim_id.
  - nra.
Qed.

Lemma d2_vol_derivative (S K T r sigma : R) :
  0 < T -> 0 < sigma ->
  derivable_pt_lim (fun x => d2_of S K T r x) sigma
    (sqrt T - d1_of S K T r sigma / sigma - sqrt T).
Proof.
  intros HT Hsig. unfold d2_of.
  apply (derivable_pt_lim_value _ _ _
           (sqrt T - d1_of S K T r sigma / sigma - 1 * sqrt T)); [ring |].
  apply (derivable_pt_lim_minus (fun x => d1_of S K T r x) (fun x => x * sqrt T)).
  - now apply d1_vol_derivative.
  - apply (derivable_pt_lim_scal_right id). apply derivable_pt_lim_id.
Qed.

(** The derivative of the call in the volatility: a positive multiple of the
    kernel at [d1]. *)
Lemma call_value_vol_derivative (S K T r sigma : R) :
  0 < S -> 0 < K -> 0 < T -> 0 < sigma ->
  derivable_pt_lim (fun x => call_value S K T r x) sigma
    (S * gauss (d1_of S K T r sigma) * sqrt T / (2 * gauss_half_mass)).
Proof.
  intros HS HK HT Hsig.
  pose proof (option_form_derivative (fct_cte S) (fct_cte (K * exp (- r * T)))
                (fun x => d1_of S K T r x) (fun x => d2_of S K T r x)
                sigma 0 0 _ _
                (derivable_pt_lim_const _ sigma) (derivable_pt_lim_const _ sigma)
                (d1_vol_derivative S K T r sigma HT Hsig)
                (d2_vol_derivative S K T r sigma HT Hsig)) as H.
  unfold fct_cte in H.
  rewrite <- (spot_strike_kernels S K T r sigma HS HK HT Hsig) in H.
  eapply derivable_pt_lim_value; [| exact H].
  pose proof gauss_half_mass_pos. field. lra.
Qed.

Lemma gauss_pos (x : R) : 0 < gauss x.
Proof. apply exp_pos. Qed.

Lemma call_value_vol_increasing (S K T r s1 s2 : R) :
  0 < S -> 0 < K -> 0 < T -> 0 < s1 -> s1 < s2 ->
  call_value S K T r s1 < call_value S K T r s2.
Proof.
  intros HS HK HT H1 H12.
  destruct (MVT_cor2 (fun x => call_value S K T r x)
              (fun x => S * gauss (d1_of S K T r x) * sqrt T / (2 * gauss_half_mass))
              s1 s2 H12) as (c & Hc & Hin).
  { intros c Hc. apply call_value_vol_derivative; lra. }
  assert (0 < S * gauss (d1_of S K T r c) * sqrt T / (2 * gauss_half_mass)).
  { pose proof gauss_half_mass_pos. pose proof (gauss_pos (d1_of S K T r c)).
    assert (0 < sqrt T) by now apply sqrt_lt_R0.
    apply Rdiv_lt_0_compat; [| lra].
    apply Rmult_lt_0_compat; [now apply Rmult_lt_0_compat | assumption]. }
  assert (0 < S * gauss (d1_of S K T r c) * sqrt T / (2 * gauss_half_mass) * (s2 - s1))
    by (apply Rmult_lt_0_compat; lra).
  lra.
Qed.

(** *** Sensitivity to the time to expiry *)

Lemma d1_time_derivative (S K T r sigma : R) :
  0 < T -> 0 < sigma ->
  derivable_pt_lim (fun x => d1_of S K x r sigma) T
    (((r + 1 / 2 * (sigma * sigma)) * (sigma * sqrt T)
      - sigma * / (2 * sqrt T) * (ln (S / K) + (r + 1 / 2 * (sigma * sigma)) * T))
     / Rsqr (sigma * sqrt T)).
Proof.
  intros HT Hsig.
  assert (Hs : 0 < sqrt T) by now apply sqrt_lt_R0.
  unfold d1_of.
  apply (derivable_pt_lim_value _ _ _
           (((0 + (r + 1 / 2 * (sigma * sigma)) * 1) * (sigma * sqrt T)
             - sigma * / (2 * sqrt T) * (ln (S / K) + (r + 1 / 2 * (sigma * sigma)) * T))
            / Rsqr (sigma * sqrt T))).
  { f_equal. ring. }
  apply (derivable_pt_lim_div
           (fun x => ln (S / K) + (r + 1 / 2 * (sigma * sigma)) * x)
           (fun x => sigma * sqrt x)).
  - apply (derivable_pt_lim_plus (fct_cte (ln (S / K)))
             (fun x => (r + 1 / 2 * (sigma * sigma)) * x)).
    + apply derivable_pt_lim_const.
    + apply (derivable_pt_lim_scal id). apply derivable_pt_lim_id.
  - apply (derivable_pt_lim_scal sqrt). now apply derivable_pt_lim_sqrt.
  - nra.
Qed.

Lemma d2_time_derivative (S K T r sigma : R) :
  0 < T -> 0 < sigma ->
  derivable_pt_lim (fun x => d2_of S K x r sigma) T
    (((r + 1 / 2 * (sigma * sigma)) * (sigma * sqrt T)
      - sigma * / (2 * sqrt T) * (ln (S / K) + (r + 1 / 2 * (sigma * sigma)) * T))
     / Rsqr (sigma * sqrt T) - sigma * / (2 * sqrt T)).
Proof.
  intros HT Hsig. unfold d2_of.
  apply (derivable_pt_lim_minus (fun x => d1_of S K x r sigma) (fun x => sigma * sqrt x)).
  - now apply d1_time_derivative.
  - apply (derivable_pt_lim_scal sqrt). now apply derivable_pt_lim_sqrt.
Qed.

(** The discounted strike as a function of the time to expiry. *)
Lemma discount_time_derivative (K T r : R) :
  derivable_pt_lim (fun x => K * exp (- r * x)) T (- (r * K * exp (- r * T))).
Proof.
  apply (derivable_pt_lim_value _ _ _ (K * (exp (- r * T) * (- r * 1)))); [ring |].
  apply (derivable_pt_lim_scal (fun x => exp (- r * x))).
  apply (derivable_pt_lim_comp (fun x => - r * x) exp).
  - apply (derivable_pt_lim_scal id). apply derivable_pt_lim_id.
  - apply derivable_pt_lim_exp.
Qed.

(** The derivative of the call in the time to expiry: the carry of the
    strike plus a positive multiple of the kernel at [d1]. *)
Lemma call_value_time_derivative (S K T r sigma : R) :
  0 < S -> 0 < K -> 0 < T -> 0 < sigma ->
  derivable_pt_lim (fun x => call_value S K x r sigma) T
    (r * K * exp (- r * T) * Phi (d2_of S K T r sigma)
     + S * gauss (d1_of S K T r sigma) * sigma / (2 * sqrt T) / (2 * gauss_half_mass)).
Proof.
  intros HS HK HT Hsig.
  pose proof (option_form_derivative (fct_cte S) (fun x => K * exp (- r * x))
                (fun x => d1_of S K x r sigma) (fun x => d2_of S K x r sigma)
                T 0 _ _ _
                (derivable_pt_lim_const _ T) (discount_time_derivative K T r)
                (d1_time_derivative S K T r sigma HT Hsig)
                (d2_time_derivative S K T r sigma HT Hsig)) as H.
  unfold fct_cte in H.
  rewrite <- (spot_strike_kernels S K T r sigma HS HK HT Hsig) in H.
  eapply derivable_pt_lim_value; [| exact H].
  pose proof gauss_half_mass_pos. assert (0 < sqrt T) by now apply sqrt_lt_R0.
  unfold Rsqr. field. repeat split; lra.
Qed.

Lemma call_value_time_monotone (S K T1 T2 r sigma : R) :
  0 < S -> 0 < K -> 0 < sigma -> 0 <= r -> 0 < T1 -> T1 <= T2 ->
  call_value S K T1 r sigma <= call_value S K T2 r sigma.
Proof.
  intros HS HK Hsig Hr HT1 HT.
  destruct (Req_dec T1 T2) as [-> | Hne]; [lra |].
  destruct (MVT_cor2 (fun x => call_value S K x r sigma)
              (fun x => r * K * exp (- r * x) * Phi (d2_of S K x r sigma)
                        + S * gauss (d1_of S K x r sigma) * sigma / (2 * sqrt x)
                          / (2 * gauss_half_mass))
              T1 T2 ltac:(lra)) as (c & Hc & Hin).
  { intros c Hc. apply call_value_time_derivative; lra. }
  assert (0 <= r * K * exp (- r * c) * Phi (d2_of S K c r sigma)).
  { pose proof (exp_pos (- r * c)). pose proof (Phi_range (d2_of S K c r sigma)).
    apply Rmult_le_pos; [| lra]. apply Rmult_le_pos; [nra | lra]. }
  assert (0 <= S * gauss (d1_of S K c r sigma) * sigma / (2 * sqrt c)
               / (2 * gauss_half_mass)).
  { pose proof gauss_half_mass_pos. pose proof (gauss_pos (d1_of S K c r sigma)).
    assert (0 < sqrt c) by (apply sqrt_lt_R0; lra).
    apply Rdiv_nonneg; [| lra]. apply Rdiv_nonneg; [| lra].
    apply Rmult_le_pos; [apply Rmult_le_pos |]; lra. }
  nra.
Qed.

(** *** Gamma, Vega and Theta *)

(** The kernel over its mass is the density. *)
Lemma gauss_over_mass (x : R) : gauss x / (2 * gauss_half_mass) = phi x.
Proof. unfold phi. now rewrite gauss_half_mass_value. Qed.

(** X4: on the live branch the [Gamma] that [black_scholes_greeks] returns is
    the derivative, in the spot, of the [Delta] that it returns, for every
    kind. *)
Theorem gamma_is_spot_derivative_of_delta (S K T r sigma : R) (option_type : string) :
  0 < S -> 0 < K -> 0 < T -> 0 < sigma ->
  exists (g : greeks) (gamma : R) (delta : R -> R),
    black_scholes_greeks (Fin S) (Fin K) (Fin T) (Fin r) (Fin sigma) option_type = Ok g /\
    Gamma g = Fin gamma /\
    (forall s : R, 0 < s ->
       exists g' : greeks,
         black_scholes_greeks (Fin s) (Fin K) (Fin T) (Fin r) (Fin sigma) option_type
           = Ok g' /\
         Delta g' = Fin (delta s)) /\
    derivable_pt_lim delta S gamma.
Proof.
  intros HS HK HT Hsig.
  rewrite (greeks_live S K T r sigma option_type) by assumption. cbv zeta.
  eexists _, _,
    (fun s => if String.eqb option_type "call"
              then Phi (d1_of s K T r sigma) else Phi (d1_of s K T r sigma) - 1).
  split; [reflexivity |]. split; [reflexivity |]. split.
  - intros s Hs. rewrite (greeks_live s K T r sigma option_type) by assumption.
    eexists. split; reflexivity.
  - assert (Hs : 0 < sqrt T) by now apply sqrt_lt_R0.
    assert (Hd : derivable_pt_lim (fun s => Phi (d1_of s K T r sigma)) S
                   (phi (d1_of S K T r sigma) / (S * sigma * sqrt T))).
    { apply (derivable_pt_lim_value _ _ _
               (gauss (d1_of S K T r sigma) / (2 * gauss_half_mass)
                * (/ S / (sigma * sqrt T)))).
      - rewrite gauss_over_mass. field. repeat split; lra.
      - apply (Phi_comp_derivative (fun s => d1_of s K T r sigma)).
        now apply d1_spot_derivative. }
    destruct (String.eqb option_type "call"); [exact Hd |].
    apply (derivable_pt_lim_value _ _ _
             (phi (d1_of S K T r sigma) / (S * sigma * sqrt T) - 0)); [ring |].
    apply (derivable_pt_lim_minus (fun s => Phi (d1_of s K T r sigma)) (fct_cte 1));
      [exact Hd | apply derivable_pt_lim_const].
Qed.

Lemma gamma_is_spot_derivative_of_delta_witness :
  exists (g : greeks) (gamma : R) (delta : R -> R),
    black_scholes_greeks (Fin 150) (Fin 160) (Fin (1 / 2)) (Fin (2 / 100)) (Fin (25 / 100))
      "call" = Ok g /\
    Gamma g = Fin gamma /\
    (forall s : R, 0 < s ->
       exists g' : greeks,
         black_scholes_greeks (Fin s) (Fin 160) (Fin (1 / 2)) (Fin (2 / 100))
           (Fin (25 / 100)) "call"
           = Ok g' /\
         Delta g' = Fin (delta s)) /\
    derivable_pt_lim delta 150 gamma.
Proof.
  apply (gamma_is_spot_derivative_of_delta 150 160 (1 / 2) (2 / 100) (25 / 100) "call"); lra.
Defined.

Lemma put_value_vol_derivative (S K T r sigma : R) :
  0 < S -> 0 < K -> 0 < T -> 0 < sigma ->
  derivable_pt_lim (fun x => put_value S K T r x) sigma
    (S * gauss (d1_of S K T r sigma) * sqrt T / (2 * gauss_half_mass)).
Proof.
  intros HS HK HT Hsig.
  apply (derivable_pt_lim_ext
           (fun x => call_value S K T r x - S + K * exp (- r * T))).
  { intros x. symmetry. apply put_value_parity. }
  apply (derivable_pt_lim_value _ _ _
           (S * gauss (d1_of S K T r sigma) * sqrt T / (2 * gauss_half_mass) - 0 + 0));
    [ring |].
  apply (derivable_pt_lim_plus (fun x => call_value S K T r x - S)
           (fct_cte (K * exp (- r * T)))); [| apply derivable_pt_lim_const].
  apply (derivable_pt_lim_minus (fun x => call_value S K T r x) (fct_cte S)).
  - now apply call_value_vol_derivative.
  - apply derivable_pt_lim_const.
Qed.

(** X5: on the live branch the [Vega] that [black_scholes_greeks] returns is
    the derivative, in the volatility, of the price that
    [black_scholes_price] returns, for a call and for a put. *)
Theorem vega_is_volatility_derivative (S K T r sigma : R) (option_type : string) :
  0 < S -> 0 < K -> 0 < T -> 0 < sigma ->
  option_type = "call"%string \/ option_type = "put"%string ->
  exists (g : greeks) (vega : R) (price : R -> R),
    black_scholes_greeks (Fin S) (Fin K) (Fin T) (Fin r) (Fin sigma) option_type = Ok g /\
    Vega g = Fin vega /\
    (forall v : R, 0 < v ->
       black_scholes_price (Fin S) (Fin K) (Fin T) (Fin r) (Fin v) option_type
       = Ok (Fin (price v))) /\
    derivable_pt_lim price sigma vega.
Proof.
  intros HS HK HT Hsig Hkind.
  rewrite (greeks_live S K T r sigma option_type) by assumption. cbv zeta.
  assert (Hvega : S * gauss (d1_of S K T r sigma) * sqrt T / (2 * gauss_half_mass)
                  = S * phi (d1_of S K T r sigma) * sqrt T).
  { rewrite <- gauss_over_mass. pose proof gauss_half_mass_pos. field. lra. }
  destruct Hkind; subst option_type.
  - eexists _, _, (fun v => call_value S K T r v).
    split; [reflexivity |]. split; [reflexivity |]. split.
    + intros v Hv. now apply price_live_values.
    + cbn [Vega]. rewrite <- Hvega. now apply call_value_vol_derivative.
  - eexists _, _, (fun v => put_value S K T r v).
    split; [reflexivity |]. split; [reflexivity |]. split.
    + intros v Hv. now apply price_live_values.
    + cbn [Vega]. rewrite <- Hvega. now apply put_value_vol_derivative.
Qed.

Lemma vega_is_volatility_derivative_witness :
  exists (g : greeks) (vega : R) (price : R -> R),
    black_scholes_greeks (Fin 150) (Fin 160) (Fin (1 / 2)) (Fin (2 / 100)) (Fin (25 / 100))
      "put" = Ok g /\
    Vega g = Fin vega /\
    (forall v : R, 0 < v ->
       black_scholes_price (Fin 150) (Fin 160) (Fin (1 / 2)) (Fin (2 / 100)) (Fin v) "put"
       = Ok (Fin (price v))) /\
    derivable_pt_lim price (25 / 100) vega.
Proof.
  apply (vega_is_volatility_derivative 150 160 (1 / 2) (2 / 100) (25 / 100) "put"); try lra.
  right. reflexivity.
Defined.

Lemma put_value_time_derivative (S K T r sigma : R) :
  0 < S -> 0 < K -> 0 < T -> 0 < sigma ->
  derivable_pt_lim (fun x => put_value S K x r sigma) T
    (- (r * K * exp (- r * T) * Phi (- d2_of S K T r sigma))
     + S * gauss (d1_of S K T r sigma) * sigma / (2 * sqrt T) / (2 * gauss_half_mass)).
Proof.
  intros HS HK HT Hsig.
  apply (derivable_pt_lim_ext
           (fun x => call_value S K x r sigma - S + K * exp (- r * x))).
  { intros x. symmetry. apply put_value_parity. }
  apply (derivable_pt_lim_value _ _ _
           (r * K * exp (- r * T) * Phi (d2_of S K T r sigma)
            + S * gauss (d1_of S K T r sigma) * sigma / (2 * sqrt T)
              / (2 * gauss_half_mass) - 0
            + - (r * K * exp (- r * T)))).
  { pose proof (Phi_symmetry (d2_of S K T r sigma)). nra. }
  apply (derivable_pt_lim_plus (fun x => call_value S K x r sigma - S)
           (fun x => K * exp (- r * x))); [| apply discount_time_derivative].
  apply (derivable_pt_lim_minus (fun x => call_value S K x r sigma) (fct_cte S)).
  - now apply call_value_time_derivative.
  - apply derivable_pt_lim_const.
Qed.

(** X6: the [Theta] returned for a call is the opposite of the derivative of
    the call price in the time to expiry.  The [Theta] returned for a put is
    not: the derivative of the put price is [- Theta - 2 * r * Rho / T], where
    [Rho] is the value returned for the put. *)
Theorem theta_is_time_decay_of_call (S K T r sigma : R) :
  0 < S -> 0 < K -> 0 < T -> 0 < sigma ->
  exists (gc gp : greeks) (theta_c theta_p rho_p : R) (call put : R -> R),
    black_scholes_greeks (Fin S) (Fin K) (Fin T) (Fin r) (Fin sigma) "call" = Ok gc /\
    black_scholes_greeks (Fin S) (Fin K) (Fin T) (Fin r) (Fin sigma) "put" = Ok gp /\
    Theta gc = Fin theta_c /\ Theta gp = Fin theta_p /\ Rho gp = Fin rho_p /\
    (forall t : R, 0 < t ->
       black_scholes_price (Fin S) (Fin K) (Fin t) (Fin r) (Fin sigma) "call"
         = Ok (Fin (call t)) /\
       black_scholes_price (Fin S) (Fin K) (Fin t) (Fin r) (Fin sigma) "put"
         = Ok (Fin (put t))) /\
    derivable_pt_lim call T (- theta_c) /\
    derivable_pt_lim put T (- theta_p - 2 * r * rho_p / T).
Proof.
  intros HS HK HT Hsig.
  rewrite (greeks_live S K T r sigma "call"), (greeks_live S K T r sigma "put")
    by assumption.
  cbn [String.eqb Ascii.eqb Bool.eqb].
  eexists _, _, _, _, _, (fun t => call_value S K t r sigma),
    (fun t => put_value S K t r sigma).
  do 5 (split; [reflexivity |]).
  assert (Hs : 0 < sqrt T) by now apply sqrt_lt_R0.
  pose proof gauss_half_mass_pos as HG.
  split; [intros t Ht; now apply price_live_values |]. split.
  - eapply derivable_pt_lim_value; [| now apply call_value_time_derivative].
    rewrite <- gauss_over_mass. field. split; lra.
  - eapply derivable_pt_lim_value; [| now apply put_value_time_derivative].
    rewrite <- gauss_over_mass. field. repeat split; lra.
Qed.

Lemma theta_is_time_decay_of_call_witness :
  exists (gc gp : greeks) (theta_c theta_p rho_p : R) (call put : R -> R),
    black_scholes_greeks (Fin 150) (Fin 160) (Fin (1 / 2)) (Fin (2 / 100)) (Fin (25 / 100))
      "call" = Ok gc /\
    black_scholes_greeks (Fin 150) (Fin 160) (Fin (1 / 2)) (Fin (2 / 100)) (Fin (25 / 100))
      "put" = Ok gp /\
    Theta gc = Fin theta_c /\ Theta gp = Fin theta_p /\ Rho gp = Fin rho_p /\
    (forall t : R, 0 < t ->
       black_scholes_price (Fin 150) (Fin 160) (Fin t) (Fin (2 / 100)) (Fin (25 / 100)) "call"
         = Ok (Fin (call t)) /\
       black_scholes_price (Fin 150) (Fin 160) (Fin t) (Fin (2 / 100)) (Fin (25 / 100)) "put"
         = Ok (Fin (put t))) /\
    derivable_pt_lim call (1 / 2) (- theta_c) /\
    derivable_pt_lim put (1 / 2) (- theta_p - 2 * (2 / 100) * rho_p / (1 / 2)).
Proof.
  apply (theta_is_time_decay_of_call 150 160 (1 / 2) (2 / 100) (25 / 100)); lra.
Defined.





(** X8: the call price does not decrease and the put price does not
    increase with the spot, and neither moves by more than the spot does;
    this holds on both branches of [black_scholes_price]. *)
Theorem price_monotone_in_spot (S1 S2 K T r sigma : R) :
  0 < S1 -> S1 <= S2 -> 0 < K -> 0 < sigma ->
  exists c1 c2 p1 p2 : R,
    black_scholes_price (Fin S1) (Fin K) (Fin T) (Fin r) (Fin sigma) "call" = Ok (Fin c1) /\
    black_scholes_price (Fin S2) (Fin K) (Fin T) (Fin r) (Fin sigma) "call" = Ok (Fin c2) /\
    black_scholes_price (Fin S1) (Fin K) (Fin T) (Fin r) (Fin sigma) "put" = Ok (Fin p1) /\
    black_scholes_price (Fin S2) (Fin K) (Fin T) (Fin r) (Fin sigma) "put" = Ok (Fin p2) /\
    0 <= c2 - c1 <= S2 - S1 /\
    0 <= p1 - p2 <= S2 - S1.
Proof.
  intros HS1 HS HK Hsig.
  destruct (Rlt_dec 0 T) as [Hlive | Hdead].
  - destruct (price_live_values S1 K T r sigma) as [Hc1 Hp1]; try lra.
    destruct (price_live_values S2 K T r sigma) as [Hc2 Hp2]; try lra.
    eexists _, _, _, _. repeat (split; [eassumption |]).
    pose proof (call_value_spot_lipschitz S1 S2 K T r sigma HS1 HS HK Hlive Hsig).
    rewrite !put_value_parity. split; lra.
  - exists (Rmax 0 (S1 - K)), (Rmax 0 (S2 - K)), (Rmax 0 (K - S1)), (Rmax 0 (K - S2)).
    split; [apply (price_expired S1 K); cbn; apply Rleb_true; lra |].
    split; [apply (price_expired S2 K); cbn; apply Rleb_true; lra |].
    split; [apply (price_expired S1 K); cbn; apply Rleb_true; lra |].
    split; [apply (price_expired S2 K); cbn; apply Rleb_true; lra |].
    unfold Rmax.
    destruct (Rle_dec 0 (S1 - K)), (Rle_dec 0 (S2 - K)),
      (Rle_dec 0 (K - S1)), (Rle_dec 0 (K - S2)); split; lra.
Qed.

Lemma price_monotone_in_spot_witness :
  exists c1 c2 p1 p2 : R,
    black_scholes_price (Fin 140) (Fin 160) (Fin (1 / 2)) (Fin (2 / 100)) (Fin (25 / 100)) "call"
      = Ok (Fin c1) /\
    black_scholes_price (Fin 150) (Fin 160) (Fin (1 / 2)) (Fin (2 / 100)) (Fin (25 / 100)) "call"
      = Ok (Fin c2) /\
    black_scholes_price (Fin 140) (Fin 160) (Fin (1 / 2)) (Fin (2 / 100)) (Fin (25 / 100)) "put"
      = Ok (Fin p1) /\
    black_scholes_price (Fin 150) (Fin 160) (Fin (1 / 2)) (Fin (2 / 100)) (Fin (25 / 100)) "put"
      = Ok (Fin p2) /\
    0 <= c2 - c1 <= 150 - 140 /\
    0 <= p1 - p2 <= 150 - 140.
Proof.
  apply (price_monotone_in_spot 140 150 160 (1 / 2) (2 / 100) (25 / 100)); lra.
Defined.

(** X9: before expiry a higher volatility never gives a lower price, for a
    call and for a put. *)
Theorem price_monotone_in_volatility (S K T r sigma1 sigma2 : R) :
  0 < S -> 0 < K -> 0 < T -> 0 < sigma1 -> sigma1 <= sigma2 ->
  exists c1 c2 p1 p2 : R,
    black_scholes_price (Fin S) (Fin K) (Fin T) (Fin r) (Fin sigma1) "call" = Ok (Fin c1) /\
    black_scholes_price (Fin S) (Fin K) (Fin T) (Fin r) (Fin sigma2) "call" = Ok (Fin c2) /\
    black_scholes_price (Fin S) (Fin K) (Fin T) (Fin r) (Fin sigma1) "put" = Ok (Fin p1) /\
    black_scholes_price (Fin S) (Fin K) (Fin T) (Fin r) (Fin sigma2) "put" = Ok (Fin p2) /\
    c1 <= c2 /\ p1 <= p2.
Proof.
  intros HS HK HT H1 H12.
  destruct (price_live_values S K T r sigma1) as [Hc1 Hp1]; try lra.
  destruct (price_live_values S K T r sigma2) as [Hc2 Hp2]; try lra.
  eexists _, _, _, _. repeat (split; [eassumption |]).
  rewrite !put_value_parity.
  destruct H12 as [H12 | <-]; [| lra].
  pose proof (call_value_vol_increasing S K T r sigma1 sigma2 HS HK HT H1 H12). lra.
Qed.

Lemma price_monotone_in_volatility_witness :
  exists c1 c2 p1 p2 : R,
    black_scholes_price (Fin 150) (Fin 160) (Fin (1 / 2)) (Fin (2 / 100)) (Fin (25 / 100)) "call"
      = Ok (Fin c1) /\
    black_scholes_price (Fin 150) (Fin 160) (Fin (1 / 2)) (Fin (2 / 100)) (Fin (30 / 100)) "call"
      = Ok (Fin c2) /\
    black_scholes_price (Fin 150) (Fin 160) (Fin (1 / 2)) (Fin (2 / 100)) (Fin (25 / 100)) "put"
      = Ok (Fin p1) /\
    black_scholes_price (Fin 150) (Fin 160) (Fin (1 / 2)) (Fin (2 / 100)) (Fin (30 / 100)) "put"
      = Ok (Fin p2) /\
    c1 <= c2 /\ p1 <= p2.
Proof.
  apply (price_monotone_in_volatility 150 160 (1 / 2) (2 / 100) (25 / 100) (30 / 100)); lra.
Defined.

(** X10: with a non-negative rate the price of a call does not decrease with
    the time to expiry, across the boundary [T = 0] included. *)
Theorem call_price_monotone_in_time (S K T1 T2 r sigma : R) :
  0 < S -> 0 < K -> 0 < sigma -> 0 <= r -> T1 <= T2 ->
  exists c1 c2 : R,
    black_scholes_price (Fin S) (Fin K) (Fin T1) (Fin r) (Fin sigma) "call" = Ok (Fin c1) /\
    black_scholes_price (Fin S) (Fin K) (Fin T2) (Fin r) (Fin sigma) "call" = Ok (Fin c2) /\
    c1 <= c2.
Proof.
  intros HS HK Hsig Hr HT.
  destruct (Rlt_dec 0 T1) as [Hlive1 | Hdead1].
  - destruct (price_live_values S K T1 r sigma) as [Hc1 _]; try lra.
    destruct (price_live_values S K T2 r sigma) as [Hc2 _]; try lra.
    eexists _, _. repeat (split; [eassumption |]).
    now apply call_value_time_monotone.
  - destruct (Rlt_dec 0 T2) as [Hlive2 | Hdead2].
    + destruct (price_live_values S K T2 r sigma) as [Hc2 _]; try lra.
      exists (Rmax 0 (S - K)). eexists.
      split; [apply (price_expired S K); cbn; apply Rleb_true; lra |].
      split; [eassumption |].
      destruct (live_values_nonneg S K T2 r sigma HS HK Hlive2 Hsig) as [Hc Hp].
      fold (call_value S K T2 r sigma) in Hc. fold (put_value S K T2 r sigma) in Hp.
      rewrite put_value_parity in Hp.
      assert (exp (- r * T2) <= 1) by (rewrite <- exp_0; apply exp_le_mono; nra).
      apply Rmax_lub; nra.
    + exists (Rmax 0 (S - K)), (Rmax 0 (S - K)).
      split; [apply (price_expired S K); cbn; apply Rleb_true; lra |].
      split; [apply (price_expired S K); cbn; apply Rleb_true; lra |]. lra.
Qed.

Lemma call_price_monotone_in_time_witness :
  exists c1 c2 : R,
    black_scholes_price (Fin 150) (Fin 160) (Fin (1 / 4)) (Fin (2 / 100)) (Fin (25 / 100)) "call"
      = Ok (Fin c1) /\
    black_scholes_price (Fin 150) (Fin 160) (Fin (1 / 2)) (Fin (2 / 100)) (Fin (25 / 100)) "call"
      = Ok (Fin c2) /\
    c1 <= c2.
Proof.
  apply (call_price_monotone_in_time 150 160 (1 / 4) (1 / 2) (2 / 100) (25 / 100)); lra.
Defined.

(** [d1] depends on the spot and the strike through their ratio. *)
Lemma d1_of_scale (lam S K T r sigma : R) :
  0 < lam -> 0 < K ->
  d1_of (lam * S) (lam * K) T r sigma = d1_of S K T r sigma.
Proof.
  intros Hl HK. unfold d1_of. replace (lam * S / (lam * K)) with (S / K) by (field; lra).
  reflexivity.
Qed.

(** X11: the price is homogeneous of degree one in spot and strike: scaling
    both by [lam > 0] scales the price by [lam]. *)
Theorem price_homogeneous (lam S K T r sigma : R) (option_type : string) :
  0 < lam -> 0 < S -> 0 < K -> 0 < sigma ->
  option_type = "call"%string \/ option_type = "put"%string ->
  exists v : R,
    black_scholes_price (Fin S) (Fin K) (Fin T) (Fin r) (Fin sigma) option_type
      = Ok (Fin v) /\
    black_scholes_price (Fin (lam * S)) (Fin (lam * K)) (Fin T) (Fin r) (Fin sigma) option_type
      = Ok (Fin (lam * v)).
Proof.
  intros Hl HS HK Hsig Hkind.
  assert (HlS : 0 < lam * S) by now apply Rmult_lt_0_compat.
  assert (HlK : 0 < lam * K) by now apply Rmult_lt_0_compat.
  destruct (Rlt_dec 0 T) as [Hlive | Hdead].
  - rewrite (price_live S K T r sigma), (price_live (lam * S) (lam * K) T r sigma)
      by assumption.
    unfold d2_of. rewrite d1_of_scale by assumption.
    destruct Hkind; subst option_type; cbn [String.eqb Ascii.eqb Bool.eqb];
      eexists; (split; [reflexivity |]); do 2 f_equal; ring.
  - rewrite (price_expired S K), (price_expired (lam * S) (lam * K))
      by (cbn; apply Rleb_true; lra).
    eexists. split; [reflexivity |]. do 2 f_equal.
    rewrite <- !Rmult_minus_distr_l.
    destruct (String.eqb option_type "call");
      rewrite <- (Rmult_0_r lam) at 1; apply RmaxRmult; lra.
Qed.

Lemma price_homogeneous_witness :
  exists v : R,
    black_scholes_price (Fin 150) (Fin 160) (Fin (1 / 2)) (Fin (2 / 100)) (Fin (25 / 100)) "put"
      = Ok (Fin v) /\
    black_scholes_price (Fin (100 * 150)) (Fin (100 * 160)) (Fin (1 / 2)) (Fin (2 / 100))
      (Fin (25 / 100)) "put"
      = Ok (Fin (100 * v)).
Proof.
  apply (price_homogeneous 100 150 160 (1 / 2) (2 / 100) (25 / 100) "put"); try lra.
  right. reflexivity.
Defined.

(** ** Failures, NaN and the Greeks *)

(** Python's division raises on the zero divisor and is numpy's elsewhere. *)
Lemma py_div_cases (S K : xreal) :
  (K = Fin 0 /\ XReal.py_div S K = Raise ZeroDivisionError) \/
  (K <> Fin 0 /\ XReal.py_div S K = Ok (XReal.div S K)).
Proof.
  unfold XReal.py_div. destruct K as [y | | |]; try (right; split; [discriminate | reflexivity]).
  destruct (Req_dec_T y 0) as [-> | Hy].
  - left. split; reflexivity.
  - right. split; [intros [= ->]; contradiction | reflexivity].
Qed.

(** X13: on the live branch, with a strike that is not zero and a volatility
    whose square does not overflow, a NaN among the five numbers makes the
    price NaN; no exception is raised. *)
Theorem nan_propagates_when_live (A : F64.arithmetic) (S K T r sigma : F64.float)
    (option_type : string) :
  option_type = "call"%string \/ option_type = "put"%string ->
  F64.is_zero K = false ->
  F64.leb T (F64.Finite 0) = false ->
  F64.py_pow2 A sigma <> Raise OverflowError ->
  S = F64.NotANumber \/ K = F64.NotANumber \/ T = F64.NotANumber \/
    r = F64.NotANumber \/ sigma = F64.NotANumber ->
  F64.black_scholes_price A S K T r sigma option_type = Ok F64.NotANumber.
Proof.
  intros Hkind HK HT Hpow Hnan. unfold F64.black_scholes_price. rewrite HT.
  unfold F64.py_div. rewrite HK. cbn [mbind result_bind].
  destruct (F64Facts.py_pow2_cases A sigma) as [Ho | (v & -> & Hv)]; [contradiction |].
  cbn [mbind result_bind].
  set (sd := F64.mul A sigma (F64.sqrt A T)).
  set (num := F64.add A (F64.log A (F64.div A S K))
                (F64.mul A (F64.add A r (F64.mul A (F64.Finite (1 / 2)) v)) T)).
  assert (Hd1 : F64.div A num sd = F64.NotANumber).
  { assert (Hor : num = F64.NotANumber \/ sd = F64.NotANumber).
    { unfold num, sd. destruct Hnan as [-> | [-> | [-> | [-> | ->]]]].
      - left. reflexivity.
      - left. rewrite F64Facts.div_nan_r. reflexivity.
      - left. rewrite F64Facts.mul_nan_r. apply F64Facts.add_nan_r.
      - left. cbn [F64.add]. rewrite F64Facts.mul_nan_l. apply F64Facts.add_nan_r.
      - right. reflexivity. }
    destruct Hor as [-> | ->]; [reflexivity | apply F64Facts.div_nan_r]. }
  rewrite Hd1. rewrite F64Facts.sub_nan_l. cbn [F64.opp F64.norm_cdf].
  rewrite !F64Facts.mul_nan_r, F64Facts.sub_nan_r.
  destruct Hkind; subst option_type; cbn [String.eqb Ascii.eqb Bool.eqb]; reflexivity.
Qed.

Lemma nan_propagates_when_live_witness :
  F64.black_scholes_price F64.exact F64.NotANumber (F64.Finite 100) (F64.Finite 1)
    (F64.Finite 0) (F64.Finite (1 / 5)) "call" = Ok F64.NotANumber.
Proof.
  apply (nan_propagates_when_live F64.exact F64.NotANumber (F64.Finite 100) (F64.Finite 1)
           (F64.Finite 0) (F64.Finite (1 / 5)) "call").
  - left. reflexivity.
  - cbn. apply F64Facts.Reqb_false. lra.
  - cbn. apply Rleb_false. lra.
  - cbn. rewrite F64Facts.Reqb_false by lra. discriminate.
  - left. reflexivity.
Defined.

(** X14: at or after expiry a NaN spot or strike is priced [0], whatever the
    kind: [max(0, nan)] is [0]. *)
Theorem nan_priced_zero_when_expired (S K T r sigma : xreal) (option_type : string) :
  XReal.leb T (Fin 0) = true ->
  S = NaN \/ K = NaN ->
  black_scholes_price S K T r sigma option_type = Ok (Fin 0).
Proof.
  intros HT Hnan. unfold black_scholes_price. rewrite HT.
  assert (Hs1 : XReal.sub S K = NaN).
  { destruct Hnan as [-> | ->]; [reflexivity | destruct S; reflexivity]. }
  assert (Hs2 : XReal.sub K S = NaN).
  { destruct Hnan as [-> | ->]; [destruct K; reflexivity | reflexivity]. }
  rewrite Hs1, Hs2. destruct (String.eqb option_type "call"); reflexivity.
Qed.

Lemma nan_priced_zero_when_expired_witness :
  black_scholes_price NaN (Fin 100) (Fin 0) (Fin 0) (Fin (2 / 10)) "call" = Ok (Fin 0).
Proof.
  apply (nan_priced_zero_when_expired NaN (Fin 100) (Fin 0) (Fin 0) (Fin (2 / 10)) "call").
  - cbn. apply Rleb_true. lra.
  - left. reflexivity.
Defined.

(** X15: before expiry the Greeks of a call and of a put on the same inputs
    share [Gamma] and [Vega], their [Delta] differ by one, their [Rho] add up
    to [K * T * exp (- r * T)], and [Vega = S^2 * sigma * T * Gamma]. *)
Theorem greeks_call_put_relations (S K T r sigma : R) :
  0 < S -> 0 < K -> 0 < T -> 0 < sigma ->
  exists (gc gp : greeks) (delta_c delta_p gamma vega rho_c rho_p : R),
    black_scholes_greeks (Fin S) (Fin K) (Fin T) (Fin r) (Fin sigma) "call" = Ok gc /\
    black_scholes_greeks (Fin S) (Fin K) (Fin T) (Fin r) (Fin sigma) "put" = Ok gp /\
    Delta gc = Fin delta_c /\ Delta gp = Fin delta_p /\
    Gamma gc = Fin gamma /\ Gamma gp = Fin gamma /\
    Vega gc = Fin vega /\ Vega gp = Fin vega /\
    Rho gc = Fin rho_c /\ Rho gp = Fin rho_p /\
    delta_c - delta_p = 1 /\
    vega = S * S * sigma * T * gamma /\
    rho_c + rho_p = K * T * exp (- r * T).
Proof.
  intros HS HK HT Hsig.
  rewrite (greeks_live S K T r sigma "call"), (greeks_live S K T r sigma "put")
    by assumption.
  cbn [String.eqb Ascii.eqb Bool.eqb].
  eexists _, _, _, _, _, _, _, _.
  do 10 (split; [reflexivity |]).
  assert (Hs : 0 < sqrt T) by now apply sqrt_lt_R0.
  assert (Hss : sqrt T * sqrt T = T) by (apply sqrt_sqrt; lra).
  split; [lra |]. split.
  - transitivity (S * phi (d1_of S K T r sigma) * (sqrt T * sqrt T / sqrt T)).
    + field. lra.
    + rewrite Hss. field. repeat split; lra.
  - pose proof (Phi_symmetry (d2_of S K T r sigma)). nra.
Qed.

Lemma greeks_call_put_relations_witness :
  exists (gc gp : greeks) (delta_c delta_p gamma vega rho_c rho_p : R),
    black_scholes_greeks (Fin 150) (Fin 160) (Fin (1 / 2)) (Fin (2 / 100)) (Fin (25 / 100))
      "call" = Ok gc /\
    black_scholes_greeks (Fin 150) (Fin 160) (Fin (1 / 2)) (Fin (2 / 100)) (Fin (25 / 100))
      "put" = Ok gp /\
    Delta gc = Fin delta_c /\ Delta gp = Fin delta_p /\
    Gamma gc = Fin gamma /\ Gamma gp = Fin gamma /\
    Vega gc = Fin vega /\ Vega gp = Fin vega /\
    Rho gc = Fin rho_c /\ Rho gp = Fin rho_p /\
    delta_c - delta_p = 1 /\
    vega = 150 * 150 * (25 / 100) * (1 / 2) * gamma /\
    rho_c + rho_p = 160 * (1 / 2) * exp (- (2 / 100) * (1 / 2)).
Proof.
  apply (greeks_call_put_relations 150 160 (1 / 2) (2 / 100) (25 / 100)); lra.
Defined.

(** X16: for a non-negative rate the [Theta] that is returned is never
    positive, for a put as for a call. *)
Theorem theta_never_positive (S K T r sigma : R) (option_type : string) :
  0 < S -> 0 < K -> 0 < sigma -> 0 <= r ->
  exists (g : greeks) (theta : R),
    black_scholes_greeks (Fin S) (Fin K) (Fin T) (Fin r) (Fin sigma) option_type = Ok g /\
    Theta g = Fin theta /\ theta <= 0.
Proof.
  intros HS HK Hsig Hr.
  destruct (Rlt_dec 0 T) as [Hlive | Hdead].
  - rewrite (greeks_live S K T r sigma option_type) by assumption.
    eexists _, _. split; [reflexivity |]. split; [reflexivity |].
    assert (Hs : 0 < sqrt T) by now apply sqrt_lt_R0.
    pose proof (phi_nonneg (d1_of S K T r sigma)) as Hphi.
    pose proof (exp_pos (- r * T)) as He.
    assert (H1 : 0 <= S * phi (d1_of S K T r sigma) * sigma / (2 * sqrt T)).
    { apply Rdiv_nonneg; [| lra]. apply Rmult_le_pos; [apply Rmult_le_pos |]; lra. }
    assert (H2 : forall x, 0 <= r * K * exp (- r * T) * Phi x).
    { intros x. pose proof (Phi_range x).
      apply Rmult_le_pos; [| lra]. apply Rmult_le_pos; [nra | lra]. }
    specialize (H2 (if String.eqb option_type "call"
                    then d2_of S K T r sigma else - d2_of S K T r sigma)).
    replace (- S * phi (d1_of S K T r sigma) * sigma / (2 * sqrt T))
      with (- (S * phi (d1_of S K T r sigma) * sigma / (2 * sqrt T)))
      by (field; lra).
    lra.
  - rewrite greeks_expired by (cbn; apply Rleb_true; lra).
    eexists _, 0. split; [reflexivity |]. split; [reflexivity | lra].
Qed.

Lemma theta_never_positive_witness :
  exists (g : greeks) (theta : R),
    black_scholes_greeks (Fin 150) (Fin 160) (Fin (1 / 2)) (Fin (2 / 100)) (Fin (25 / 100))
      "put" = Ok g /\
    Theta g = Fin theta /\ theta <= 0.
Proof.
  apply (theta_never_positive 150 160 (1 / 2) (2 / 100) (25 / 100) "put"); lra.
Defined.

(** ** The surface builder: failure, pruning and range of the values *)

(** *** Collections without a usable quote *)

Section Unquoted.
Variable today : datetime.
Variable strike_range : option (R * R).

(** Rows that are all skipped add no strike. *)
Lemma rows_strikes_unquoted (d : Z) (rows : list row) (st : extraction) :
  (forall rw, In rw rows ->
     outside_range strike_range (strike rw) = false ->
     valid_iv (impliedVolatility rw) = true -> False) ->
  all_strikes (fold_left (add_row strike_range d) rows st) = all_strikes st.
Proof.
  revert st. induction rows as [| rw rows IH]; intros st Hnone; [reflexivity |].
  cbn [fold_left]. rewrite IH by (intros r Hr; apply Hnone; now right).
  unfold add_row.
  destruct (outside_range strike_range (strike rw)) eqn:Hrange; [reflexivity |].
  destruct (valid_iv (impliedVolatility rw)) eqn:Hvalid; [| reflexivity].
  exfalso. apply (Hnone rw); [now left | assumption | assumption].
Qed.

Lemma extraction_strikes_unquoted (data : options_data) (st : extraction) :
  ~ has_quote today strike_range data ->
  all_strikes (fold_left (add_expiration today strike_range) data st) = all_strikes st.
Proof.
  revert st. induction data as [| e data IH]; intros st Hnone; [reflexivity |].
  cbn [fold_left]. rewrite IH.
  - rewrite add_expiration_unfold. cbv zeta.
    destruct (days_until today e.1 <=? 0)%Z eqn:E; [reflexivity |].
    apply Z.leb_gt in E. rewrite rows_strikes_unquoted; [reflexivity |].
    intros rw Hrw Hrange Hvalid. apply Hnone.
    exists e, rw. split; [now left |]. split; [lia |]. now repeat split.
  - intros (e' & rw & Hin & Hrest). apply Hnone. exists e', rw. split; [now right | exact Hrest].
Qed.

End Unquoted.

(** Without a usable quote the extraction finds no strike. *)
Lemma extract_strikes_unquoted (today : datetime) (set_iter : list R -> list R)
    (data : options_data) (strike_range : option (R * R)) :
  (forall l, Permutation (set_iter l) l) ->
  ~ has_quote today strike_range data ->
  all_strikes (extract today set_iter data strike_range) = [].
Proof.
  intros Hiter Hnone. unfold extract. cbn [all_strikes].
  rewrite extraction_strikes_unquoted by exact Hnone. cbn [all_strikes].
  assert (Hnil : set_iter [] = []) by (apply Permutation_nil; symmetry; apply Hiter).
  now rewrite Hnil.
Qed.

(** A loop over a non-empty grid whose first node fails. *)
Lemma fill_surface_raises (ex : extraction) (current_price : R)
    (d : R) (days : list R) (s : R) (strikes : list R)
    (surface : list (list xreal)) (e : exn) :
  node_value ex current_price d s = Raise e ->
  fill_surface ex current_price (d :: days) (s :: strikes) surface = Raise e.
Proof.
  intros Hnode. unfold fill_surface, enumerate. cbn [length].
  rewrite !enumerate_from. cbn [for_each]. rewrite Hnode. reflexivity.
Qed.

(** A partition into at least one point starts with its first sample. *)
Lemma linspace_cons (a b : R) (n : nat) :
  exists rest, linspace a b (S n) = (a + INR 0 * ((b - a) / INR (S n - 1))) :: rest.
Proof. unfold linspace. cbn [seq map]. eexists. reflexivity. Qed.

(** Without strikes a [min] over the empty list of strikes is reached: in
    the computation of the strike range, or at the first node of the grid. *)
Lemma surface_raises_without_strikes (today : datetime) (set_iter : list R -> list R)
    (data : options_data) (current_price : R) (strike_range : option (R * R)) :
  all_strikes (extract today set_iter data strike_range) = [] ->
  interpolate_volatility_surface today set_iter data current_price strike_range
  = Raise ValueError.
Proof.
  intros Hnil. unfold interpolate_volatility_surface.
  set (ex := extract today set_iter data strike_range) in *.
  destruct strike_range as [rg |]; [| now rewrite Hnil].
  cbn [mbind result_bind].
  destruct (all_days ex) as [| d0 ds] eqn:Hdays; [reflexivity |].
  destruct (min_by_nonempty IZR (d0 :: ds) ltac:(discriminate)) as [first_day ->].
  destruct (max_by_nonempty IZR (d0 :: ds) ltac:(discriminate)) as [last_day ->].
  cbn [mbind result_bind].
  replace (Nat.min 50 (length (d0 :: ds) * 5)) with (S (Nat.min 49 (length ds * 5 + 4)))
    by (cbn [length]; lia).
  destruct (linspace_cons (IZR first_day) (IZR last_day) (Nat.min 49 (length ds * 5 + 4)))
    as [days ->].
  destruct (linspace_cons rg.1 rg.2 49) as [strikes ->].
  rewrite (fill_surface_raises _ _ _ _ _ _ _ ValueError); [reflexivity |].
  unfold node_value. rewrite Hdays.
  destruct (min_by_nonempty (fun x => Rabs (IZR x - (IZR first_day + INR 0 * ((IZR last_day - IZR first_day) / INR (S (Nat.min 49 (length ds * 5 + 4)) - 1))))) (d0 :: ds) ltac:(discriminate)) as [cd ->].
  cbn [mbind result_bind]. now rewrite Hnil.
Qed.

(** With a usable quote every node has a value. *)
Lemma surface_returns_with_quote (today : datetime) (set_iter : list R -> list R)
    (data : options_data) (current_price : R) (strike_range : option (R * R)) :
  (forall l, Permutation (set_iter l) l) ->
  has_quote today strike_range data ->
  exists (days strikes : list R),
    interpolate_volatility_surface today set_iter data current_price strike_range
    = Ok (map (fun _ => days) strikes,
          map (fun s => map (fun _ => s) days) strikes,
          map (fun s => map (fun d => node_cell (extract today set_iter data strike_range)
                                        current_price d s) days) strikes).
Proof.
  intros Hiter Hq.
  destruct (extract_nonempty today set_iter data strike_range Hiter Hq) as [Hd Hs].
  destruct (interpolate_cells today set_iter data current_price strike_range Hd Hs)
    as (lo & hi & first_day & last_day & _ & _ & _ & Hrun).
  cbv zeta in Hrun. eexists _, _. exact Hrun.
Qed.

(** X17: the surface builder returns when some expiration still to come
    holds a usable quote (strike inside the range, implied volatility
    neither NaN nor non-positive), and raises [ValueError] otherwise. *)
Theorem surface_fails_exactly_without_quote (today : datetime)
    (set_iter : list R -> list R) (data : options_data) (current_price : R)
    (strike_range : option (R * R)) :
  (forall l, Permutation (set_iter l) l) ->
  (has_quote today strike_range data ->
   exists grids,
     interpolate_volatility_surface today set_iter data current_price strike_range
     = Ok grids) /\
  (~ has_quote today strike_range data ->
   interpolate_volatility_surface today set_iter data current_price strike_range
   = Raise ValueError).
Proof.
  intros Hiter. split.
  - intros Hq.
    destruct (surface_returns_with_quote today set_iter data current_price strike_range
                Hiter Hq) as (days & strikes & Hrun).
    eexists. exact Hrun.
  - intros Hnone. apply surface_raises_without_strikes.
    now apply extract_strikes_unquoted.
Qed.

Lemma surface_fails_exactly_without_quote_witness :
  (exists grids,
     interpolate_volatility_surface sample_today (fun l => l) one_expiration 100 None
     = Ok grids) /\
  interpolate_volatility_surface sample_today (fun l => l) [] 100 (Some (50, 150))
  = Raise ValueError.
Proof.
  split.
  - apply (surface_fails_exactly_without_quote sample_today (fun l => l) one_expiration
             100 None).
    + intros l. reflexivity.
    + apply one_expiration_has_quote. reflexivity.
  - apply (surface_fails_exactly_without_quote sample_today (fun l => l) []
             100 (Some (50, 150))).
    + intros l. reflexivity.
    + intros (e & rw & [] & _).
Defined.

(** *** Rows and expirations that leave no trace *)

(** A row that the extraction loop records. *)
Definition usable (strike_range : option (R * R)) (rw : row) : bool :=
  negb (outside_range strike_range (strike rw)) && valid_iv (impliedVolatility rw).

(** The collection without its expirations of the past and without the rows
    that the loop skips. *)
Definition prune (today : datetime) (strike_range : option (R * R))
    (data : options_data) : options_data :=
  map (fun e => (e.1, {| calls := List.filter (usable strike_range) (calls e.2);
                         puts := List.filter (usable strike_range) (puts e.2) |}))
      (List.filter (fun e => negb (days_until today e.1 <=? 0)%Z) data).

(** A row that is not usable leaves the state as it is. *)
Lemma add_row_unusable (strike_range : option (R * R)) (d : Z) (st : extraction) (rw : row) :
  usable strike_range rw = false -> add_row strike_range d st rw = st.
Proof.
  unfold usable, add_row. destruct (outside_range _ _); [reflexivity |].
  destruct (valid_iv _); [discriminate | reflexivity].
Qed.

Lemma rows_prune (strike_range : option (R * R)) (d : Z) (rows : list row) (st : extraction) :
  fold_left (add_row strike_range d) (List.filter (usable strike_range) rows) st
  = fold_left (add_row strike_range d) rows st.
Proof.
  revert st. induction rows as [| rw rows IH]; intros st; [reflexivity |].
  cbn [List.filter fold_left].
  destruct (usable strike_range rw) eqn:E; cbn [fold_left].
  - apply IH.
  - rewrite add_row_unusable by exact E. apply IH.
Qed.

Lemma extraction_prune (today : datetime) (strike_range : option (R * R))
    (data : options_data) (st : extraction) :
  fold_left (add_expiration today strike_range) (prune today strike_range data) st
  = fold_left (add_expiration today strike_range) data st.
Proof.
  revert st. induction data as [| e data IH]; intros st; [reflexivity |].
  unfold prune in *. cbn [List.filter fold_left].
  destruct (days_until today e.1 <=? 0)%Z eqn:E; cbn [negb map fold_left].
  - rewrite IH. f_equal. unfold add_expiration. now rewrite E.
  - rewrite IH. f_equal. unfold add_expiration. cbn [fst snd calls puts fold_left].
    rewrite E. now rewrite !rows_prune.
Qed.

(** X18: the result of the surface builder does not change when the
    expirations of the past and the rows that are outside the strike range
    or carry an invalid implied volatility are removed from the input. *)
Theorem surface_ignores_unusable_rows (today : datetime) (set_iter : list R -> list R)
    (data : options_data) (current_price : R) (strike_range : option (R * R)) :
  interpolate_volatility_surface today set_iter (prune today strike_range data)
    current_price strike_range
  = interpolate_volatility_surface today set_iter data current_price strike_range.
Proof.
  unfold interpolate_volatility_surface, extract.
  now rewrite extraction_prune.
Qed.

(** *** The values of the surface *)

Section Values.
Variable P : xreal -> Prop.

Lemma dict_set_values (k : Z * R) (v : xreal) (d : iv_dict) :
  P v -> Forall (fun kv => P kv.2) d -> Forall (fun kv => P kv.2) (dict_set k v d).
Proof.
  intros Hv Hd. induction Hd as [| [k' v'] d Hkv Hd IH]; cbn [dict_set].
  - now repeat constructor.
  - destruct (key_eqb k k'); constructor; assumption.
Qed.

Lemma dict_get_value (k : Z * R) (v : xreal) (d : iv_dict) :
  Forall (fun kv => P kv.2) d -> dict_get k d = Some v -> P v.
Proof.
  intros Hd. induction Hd as [| [k' v'] d Hkv Hd IH]; cbn [dict_get]; [discriminate |].
  destruct (key_eqb k k'); [intros [= <-]; exact Hkv | exact IH].
Qed.

Variable today : datetime.
Variable strike_range : option (R * R).

Lemma rows_values (d : Z) (rows : list row) (st : extraction) :
  (forall rw, In rw rows -> valid_iv (impliedVolatility rw) = true ->
     P (impliedVolatility rw)) ->
  Forall (fun kv => P kv.2) (iv_data st) ->
  Forall (fun kv => P kv.2) (iv_data (fold_left (add_row strike_range d) rows st)).
Proof.
  revert st. induction rows as [| rw rows IH]; intros st Hrows Hst; [exact Hst |].
  cbn [fold_left]. apply IH; [intros r Hr; apply Hrows; now right |].
  unfold add_row. destruct (outside_range _ _); [exact Hst |].
  destruct (valid_iv (impliedVolatility rw)) eqn:Hvalid; [| exact Hst].
  cbn [iv_data]. apply dict_set_values; [| exact Hst].
  apply Hrows; [now left | exact Hvalid].
Qed.

Lemma extraction_values (data : options_data) (st : extraction) :
  (forall e rw, In e data -> In rw (calls e.2 ++ puts e.2) ->
     valid_iv (impliedVolatility rw) = true -> P (impliedVolatility rw)) ->
  Forall (fun kv => P kv.2) (iv_data st) ->
  Forall (fun kv => P kv.2)
    (iv_data (fold_left (add_expiration today strike_range) data st)).
Proof.
  revert st. induction data as [| e data IH]; intros st Hdata Hst; [exact Hst |].
  cbn [fold_left]. apply IH; [intros e' rw He'; apply Hdata; now right |].
  rewrite add_expiration_unfold. cbv zeta.
  destruct (_ <=? 0)%Z; [exact Hst |].
  apply rows_values; [| exact Hst].
  intros rw Hrw. apply (Hdata e); [now left | exact Hrw].
Qed.

End Values.

(** The sum and the mean of finite values between [a] and [b]. *)
Definition within (a b : R) (v : xreal) : Prop :=
  exists x : R, v = Fin x /\ 0 < x /\ a <= x <= b.

(** The sum computed by [np.mean]. *)
Lemma sum_within (a b : R) (l : list xreal) (acc : R) :
  Forall (within a b) l ->
  exists s : R,
    fold_left XReal.add l (Fin acc) = Fin (acc + s) /\
    INR (length l) * a <= s <= INR (length l) * b /\
    (l <> [] -> 0 < s).
Proof.
  intros Hl. revert acc. induction Hl as [| v l (x & -> & Hpos & Hx) Hl IH]; intros acc.
  - exists 0. cbn [fold_left length INR]. split; [f_equal; lra |]. split; [lra | congruence].
  - cbn [fold_left XReal.add]. destruct (IH (acc + x)) as (s & Hs & Hbounds & Hspos).
    exists (x + s). split; [rewrite Hs; f_equal; lra |].
    rewrite length_cons, S_INR.
    assert (0 <= s).
    { destruct l; [| left; apply Hspos; discriminate].
      cbn [fold_left] in Hs. injection Hs as Hs. lra. }
    split; [lra |]. intros _. lra.
Qed.

Lemma np_mean_within (a b : R) (l : list xreal) :
  Forall (within a b) l -> l <> [] -> within a b (np_mean l).
Proof.
  intros Hl Hne. unfold np_mean.
  destruct (sum_within a b l 0 Hl) as (s & -> & Hbounds & Hpos).
  assert (Hn : 0 < INR (length l)).
  { apply lt_0_INR. destruct l; [contradiction | cbn; lia]. }
  rewrite div_fin by lra. rewrite Rplus_0_l.
  exists (s / INR (length l)). split; [reflexivity |].
  specialize (Hpos Hne).
  split; [now apply Rdiv_lt_0_compat |].
  split.
  - apply Rmult_le_reg_r with (INR (length l)); [exact Hn |].
    unfold Rdiv. rewrite Rmult_assoc, Rinv_l by lra. lra.
  - apply Rmult_le_reg_r with (INR (length l)); [exact Hn |].
    unfold Rdiv. rewrite Rmult_assoc, Rinv_l by lra. lra.
Qed.

Lemma day_group_values (P : xreal -> Prop) (ex : extraction) (d : Z) :
  Forall (fun kv => P kv.2) (iv_data ex) -> Forall P (day_group ex d).
Proof.
  unfold day_group. intros H.
  induction H as [| kv l Hkv Hl IH]; cbn [List.filter map]; [constructor |].
  destruct (kv.1.1 =? d)%Z; cbn [map]; [constructor; assumption | exact IH].
Qed.

(** A node takes a recorded quote, or the mean of a day group. *)
Lemma node_cell_within (a b : R) (ex : extraction) (current_price d s : R) :
  all_days ex <> [] -> all_strikes ex <> [] ->
  Forall (fun kv => within a b kv.2) (iv_data ex) ->
  let v := node_cell ex current_price d s in
  (v = NaN \/ within a b v) /\
  ((forall d', In d' (all_days ex) -> day_group ex d' <> []) -> within a b v).
Proof.
  intros Hd Hs Hvals v.
  pose proof (node_value_rule ex current_price d s v
                (node_value_total ex current_price d s Hd Hs))
    as (d' & s' & Hd' & _ & Hrule).
  assert (Hmean : (np_mean (day_group ex d') = NaN \/ within a b (np_mean (day_group ex d')))
                  /\ (day_group ex d' <> [] -> within a b (np_mean (day_group ex d')))).
  { pose proof (day_group_values (within a b) ex d' Hvals) as Hg.
    destruct (day_group ex d') as [| q g] eqn:Hgroup.
    - split; [left; apply np_mean_empty | congruence].
    - assert (within a b (np_mean (q :: g))) by (apply np_mean_within; [exact Hg | discriminate]).
      split; [now right | now intros _]. }
  assert (Hin : In d' (all_days ex)) by (apply first_min_In in Hd'; apply Hd').
  destruct (dict_get (d', s') (iv_data ex)) as [q |] eqn:Hq.
  - rewrite Hrule.
    pose proof (dict_get_value (within a b) _ _ _ Hvals Hq). split; [now right | now intros _].
  - destruct Hrule as (atm & _ & Hrule).
    destruct (dict_get (d', atm) (iv_data ex)) as [q |] eqn:Hq'.
    + rewrite Hrule.
      pose proof (dict_get_value (within a b) _ _ _ Hvals Hq'). split; [now right | now intros _].
    + rewrite Hrule. split; [apply Hmean |]. intros Hgroups. apply Hmean. now apply Hgroups.
Qed.

(** A valid finite implied volatility is positive. *)
Lemma valid_iv_positive (x : R) : valid_iv (Fin x) = true -> 0 < x.
Proof.
  unfold valid_iv. cbn. unfold Rltb. destruct (Rlt_dec 0 x); [trivial | discriminate].
Qed.

Lemma extract_values (a b : R) (today : datetime) (set_iter : list R -> list R)
    (data : options_data) (strike_range : option (R * R)) :
  (forall e rw, In e data -> In rw (calls e.2 ++ puts e.2) ->
     valid_iv (impliedVolatility rw) = true ->
     exists x, impliedVolatility rw = Fin x /\ a <= x <= b) ->
  Forall (fun kv => within a b kv.2)
    (iv_data (extract today set_iter data strike_range)).
Proof.
  intros Hdata. unfold extract. cbn [iv_data].
  apply extraction_values; [| constructor].
  intros e rw He Hrw Hvalid.
  destruct (Hdata e rw He Hrw Hvalid) as (x & Hx & Hab).
  exists x. split; [exact Hx |]. split; [| exact Hab].
  rewrite Hx in Hvalid. now apply valid_iv_positive.
Qed.

(** X19: when the valid implied volatilities of the input are finite and
    lie between [a] and [b], every node of the surface is NaN or a positive
    number between [a] and [b]. *)
Theorem surface_within_quote_range (a b : R) (today : datetime)
    (set_iter : list R -> list R) (data : options_data) (current_price : R)
    (strike_range : option (R * R)) :
  (forall l, Permutation (set_iter l) l) ->
  has_quote today strike_range data ->
  (forall e rw, In e data -> In rw (calls e.2 ++ puts e.2) ->
     valid_iv (impliedVolatility rw) = true ->
     exists x, impliedVolatility rw = Fin x /\ a <= x <= b) ->
  exists (Dm Sm : list (list R)) (V : list (list xreal)),
    interpolate_volatility_surface today set_iter data current_price strike_range
      = Ok (Dm, Sm, V) /\
    forall (i j : nat) (v : xreal),
      V !! j ≫= (fun r => r !! i) = Some v ->
      v = NaN \/ exists x : R, v = Fin x /\ 0 < x /\ a <= x <= b.
Proof.
  intros Hiter Hq Hdata.
  destruct (extract_nonempty today set_iter data strike_range Hiter Hq) as [Hd Hs].
  destruct (surface_returns_with_quote today set_iter data current_price strike_range
              Hiter Hq) as (days & strikes & Hrun).
  eexists _, _, _. split; [exact Hrun |].
  intros i j v Hv. rewrite lookup_map in Hv.
  destruct (strikes !! j) as [s |]; [| discriminate].
  cbn [fmap option_fmap option_map mbind option_bind] in Hv.
  rewrite lookup_map in Hv. destruct (days !! i) as [d |]; [| discriminate].
  injection Hv as <-.
  apply node_cell_within; try assumption. now apply extract_values.
Qed.

Lemma surface_within_quote_range_witness :
  exists (Dm Sm : list (list R)) (V : list (list xreal)),
    interpolate_volatility_surface sample_today (fun l => l) one_expiration 100 None
      = Ok (Dm, Sm, V) /\
    forall (i j : nat) (v : xreal),
      V !! j ≫= (fun r => r !! i) = Some v ->
      v = NaN \/ exists x : R, v = Fin x /\ 0 < x /\ 2 / 10 <= x <= 2 / 10.
Proof.
  apply (surface_within_quote_range (2 / 10) (2 / 10) sample_today (fun l => l)
           one_expiration 100 None).
  - intros l. reflexivity.
  - apply one_expiration_has_quote. reflexivity.
  - intros e rw [<- | []] [<- | []] _. exists (2 / 10). split; [reflexivity | lra].
Defined.

(** X20: when moreover the expiration dates are distinct and every
    expiration still to come holds a usable quote, no node is NaN. *)
Theorem surface_finite_when_every_day_quoted (a b : R) (today : datetime)
    (set_iter : list R -> list R) (data : options_data) (current_price : R)
    (strike_range : option (R * R)) :
  (forall l, Permutation (set_iter l) l) ->
  has_quote today strike_range data ->
  List.NoDup (map fst data) ->
  (forall e, In e data -> (0 < days_until today e.1)%Z ->
     exists rw, In rw (calls e.2 ++ puts e.2) /\
                outside_range strike_range (strike rw) = false /\
                valid_iv (impliedVolatility rw) = true) ->
  (forall e rw, In e data -> In rw (calls e.2 ++ puts e.2) ->
     valid_iv (impliedVolatility rw) = true ->
     exists x, impliedVolatility rw = Fin x /\ a <= x <= b) ->
  exists (Dm Sm : list (list R)) (V : list (list xreal)),
    interpolate_volatility_surface today set_iter data current_price strike_range
      = Ok (Dm, Sm, V) /\
    forall (i j : nat) (v : xreal),
      V !! j ≫= (fun r => r !! i) = Some v ->
      exists x : R, v = Fin x /\ 0 < x /\ a <= x <= b.
Proof.
  intros Hiter Hq Hnd Hquoted Hdata.
  destruct (extract_nonempty today set_iter data strike_range Hiter Hq) as [Hd Hs].
  destruct (surface_returns_with_quote today set_iter data current_price strike_range
              Hiter Hq) as (days & strikes & Hrun).
  eexists _, _, _. split; [exact Hrun |].
  intros i j v Hv. rewrite lookup_map in Hv.
  destruct (strikes !! j) as [s |]; [| discriminate].
  cbn [fmap option_fmap option_map mbind option_bind] in Hv.
  rewrite lookup_map in Hv. destruct (days !! i) as [d |]; [| discriminate].
  injection Hv as <-.
  apply node_cell_within; try assumption.
  - now apply extract_values.
  - now apply day_groups_inhabited.
Qed.

Lemma surface_finite_when_every_day_quoted_witness :
  exists (Dm Sm : list (list R)) (V : list (list xreal)),
    interpolate_volatility_surface sample_today (fun l => l) one_expiration 100 None
      = Ok (Dm, Sm, V) /\
    forall (i j : nat) (v : xreal),
      V !! j ≫= (fun r => r !! i) = Some v ->
      exists x : R, v = Fin x /\ 0 < x /\ 2 / 10 <= x <= 2 / 10.
Proof.
  apply (surface_finite_when_every_day_quoted (2 / 10) (2 / 10) sample_today (fun l => l)
           one_expiration 100 None).
  - intros l. reflexivity.
  - apply one_expiration_has_quote. reflexivity.
  - cbn. constructor; [intros [] | constructor].
  - intros e [<- | []] _. eexists. split; [now left |]. split; [reflexivity |].
    apply valid_iv_fin. lra.
  - intros e rw [<- | []] [<- | []] _. exists (2 / 10). split; [reflexivity | lra].
Defined.

(** ** The helpers of the surfaces *)

(** The loop of [get_expiration_days] collects the days of the builder. *)
Lemma expiration_days_loop (today : datetime) (data : options_data) (acc : list Z) :
  fold_left (fun days_list e =>
               let days := days_until today e.1 in
               if (0 <? days)%Z then days_list ++ [days] else days_list)
            data acc
  = acc ++ future_days today data.
Proof.
  revert acc. induction data as [| e data IH]; intros acc; cbn [fold_left].
  - unfold future_days. cbn. now rewrite app_nil_r.
  - rewrite IH. unfold future_days. cbn [map List.filter]. cbv zeta.
    rewrite Z.leb_antisym. destruct (0 <? days_until today e.1)%Z; cbn [negb].
    + now rewrite <- app_assoc.
    + reflexivity.
Qed.

(** X21: for one reading of the clock [get_expiration_days] returns the day
    list of the surface builder: the positive days to expiry of the input,
    in increasing order. *)
Theorem expiration_days_of_builder (today : datetime) (set_iter : list R -> list R)
    (data : options_data) (strike_range : option (R * R)) :
  get_expiration_days today data = all_days (extract today set_iter data strike_range) /\
  StronglySorted Z.le (get_expiration_days today data) /\
  forall d : Z,
    In d (get_expiration_days today data) <->
    (0 < d)%Z /\ exists e, In e data /\ days_until today e.1 = d.
Proof.
  assert (Hdays : get_expiration_days today data = sorted Z.leb (future_days today data)).
  { unfold get_expiration_days. cbv zeta. now rewrite expiration_days_loop. }
  split; [now rewrite extract_all_days |]. split.
  - rewrite Hdays. apply sorted_Zleb_increasing.
  - intros d. rewrite Hdays. split.
    + intros Hd. apply (Permutation_in _ (sorted_perm _ _)) in Hd.
      unfold future_days in Hd. apply filter_In in Hd. destruct Hd as [Hd Hpos].
      apply in_map_iff in Hd. destruct Hd as (e & <- & He).
      split; [| now exists e].
      destruct (_ <=? 0)%Z eqn:E; [discriminate | apply Z.leb_gt in E; lia].
    + intros (Hpos & e & He & <-).
      apply (Permutation_in _ (Permutation_sym (sorted_perm _ _))).
      unfold future_days. apply filter_In. split.
      * apply (in_map (fun e => days_until today e.1)). exact He.
      * destruct (_ <=? 0)%Z eqn:E; [apply Z.leb_le in E; lia | reflexivity].
Qed.

(** The sample of index [i] of a partition. *)
Lemma lookup_linspace (a b : R) (n i : nat) :
  (i < n)%nat -> linspace a b n !! i = Some (a + INR i * ((b - a) / INR (n - 1))).
Proof.
  intros Hi. unfold linspace. rewrite lookup_map, lookup_seq_lt by exact Hi. reflexivity.
Qed.

(** X22: [create_mesh_grid] returns two arrays of [y_points] rows; the cell
    [(i, j)] of the first is the [j]-th sample of [x_range], the cell of the
    second the [i]-th sample of [y_range], and the end points of the two
    ranges are reached at the first and last indices. *)
Theorem mesh_grid_cells (x_range y_range : R * R) (x_points y_points i j : nat) :
  (2 <= x_points)%nat -> (2 <= y_points)%nat ->
  (i < y_points)%nat -> (j < x_points)%nat ->
  let X := (create_mesh_grid x_range y_range x_points y_points).1 in
  let Y := (create_mesh_grid x_range y_range x_points y_points).2 in
  length X = y_points /\ length Y = y_points /\
  X !! i ≫= (fun r => r !! j)
    = Some (x_range.1 + INR j * ((x_range.2 - x_range.1) / INR (x_points - 1))) /\
  Y !! i ≫= (fun r => r !! j)
    = Some (y_range.1 + INR i * ((y_range.2 - y_range.1) / INR (y_points - 1))) /\
  X !! i ≫= (fun r => r !! 0%nat) = Some x_range.1 /\
  X !! i ≫= (fun r => r !! (x_points - 1)%nat) = Some x_range.2 /\
  Y !! 0%nat ≫= (fun r => r !! j) = Some y_range.1 /\
  Y !! (y_points - 1)%nat ≫= (fun r => r !! j) = Some y_range.2.
Proof.
  intros Hx Hy Hi Hj. unfold create_mesh_grid, meshgrid. cbv zeta. cbn [fst snd].
  rewrite !length_map, !length_linspace.
  split; [reflexivity |]. split; [reflexivity |].
  destruct x_points as [| [| xn]]; [lia | lia |].
  destruct y_points as [| [| yn]]; [lia | lia |].
  replace (S (S xn) - 1)%nat with (S xn) by lia.
  replace (S (S yn) - 1)%nat with (S yn) by lia.
  rewrite !lookup_map, (lookup_linspace _ _ _ i) by exact Hi.
  rewrite linspace_first, linspace_last.
  cbn [fmap option_fmap option_map mbind option_bind].
  rewrite !lookup_map, linspace_first, linspace_last, (lookup_linspace _ _ _ j) by exact Hj.
  replace (S (S xn) - 1)%nat with (S xn) by lia.
  replace (S (S yn) - 1)%nat with (S yn) by lia.
  repeat split; reflexivity.
Qed.

Lemma mesh_grid_cells_witness :
  let X := (create_mesh_grid (70, 130) (1, 90) 50 50).1 in
  let Y := (create_mesh_grid (70, 130) (1, 90) 50 50).2 in
  length X = 50%nat /\ length Y = 50%nat /\
  X !! 3%nat ≫= (fun r => r !! 7%nat)
    = Some ((70, 130).1 + INR 7 * (((70, 130).2 - (70, 130).1) / INR (50 - 1))) /\
  Y !! 3%nat ≫= (fun r => r !! 7%nat)
    = Some ((1, 90).1 + INR 3 * (((1, 90).2 - (1, 90).1) / INR (50 - 1))) /\
  X !! 3%nat ≫= (fun r => r !! 0%nat) = Some (70, 130).1 /\
  X !! 3%nat ≫= (fun r => r !! (50 - 1)%nat) = Some (70, 130).2 /\
  Y !! 0%nat ≫= (fun r => r !! 7%nat) = Some (1, 90).1 /\
  Y !! (50 - 1)%nat ≫= (fun r => r !! 7%nat) = Some (1, 90).2.
Proof.
  apply (mesh_grid_cells (70, 130) (1, 90) 50 50 3 7); lia.
Defined.

(** *** The day count of an expiration *)

(** The days to expiry are whole days: the calendar difference, less one as
    soon as the clock is past midnight. *)
Lemma days_until_calendar (today : datetime) (e : Z) :
  (0 <= microsecond_of_day today < microseconds_per_day)%Z ->
  days_until today e
  = (e - ordinal today - (if (microsecond_of_day today =? 0)%Z then 0 else 1))%Z.
Proof.
  intros Hus. rewrite days_until_spec.
  destruct (microsecond_of_day today =? 0)%Z eqn:E.
  - apply Z.eqb_eq in E. rewrite E.
    change (- 0)%Z with 0%Z. rewrite Z.div_0_l by discriminate. lia.
  - apply Z.eqb_neq in E.
    assert (Hdiv : (- microsecond_of_day today / microseconds_per_day = -1)%Z).
    { symmetry. apply (Z.div_unique _ _ _ (microseconds_per_day - microsecond_of_day today)).
      - left. lia.
      - lia. }
    rewrite Hdiv. lia.
Qed.

(** X23: the days to expiry are counted in whole days from the reading of the
    clock: unless the clock reads midnight, an expiration is kept from the
    second calendar day after today only, and under one day less than the
    calendar difference.  The builder and [get_expiration_days] agree. *)
Theorem expiration_needs_a_full_day (today : datetime) (set_iter : list R -> list R)
    (data : options_data) (strike_range : option (R * R)) (d : Z) :
  (0 <= microsecond_of_day today < microseconds_per_day)%Z ->
  let late := if (microsecond_of_day today =? 0)%Z then 0%Z else 1%Z in
  (In d (all_days (extract today set_iter data strike_range)) <->
   exists e, In e data /\ (ordinal today + late < e.1)%Z /\
             d = (e.1 - ordinal today - late)%Z) /\
  (In d (get_expiration_days today data) <->
   exists e, In e data /\ (ordinal today + late < e.1)%Z /\
             d = (e.1 - ordinal today - late)%Z).
Proof.
  intros Hus late.
  assert (Hdays : In d (sorted Z.leb (future_days today data)) <->
                  exists e, In e data /\ (ordinal today + late < e.1)%Z /\
                            d = (e.1 - ordinal today - late)%Z).
  { split.
    - intros Hd. apply (Permutation_in _ (sorted_perm _ _)) in Hd.
      unfold future_days in Hd. apply filter_In in Hd. destruct Hd as [Hd Hpos].
      apply in_map_iff in Hd. destruct Hd as (e & <- & He).
      rewrite days_until_calendar in * by exact Hus. fold late in Hpos |- *.
      exists e. split; [exact He |]. split; [| reflexivity].
      destruct (_ <=? 0)%Z eqn:E; [discriminate | apply Z.leb_gt in E; lia].
    - intros (e & He & Hlate & ->).
      apply (Permutation_in _ (Permutation_sym (sorted_perm _ _))).
      unfold future_days. apply filter_In. split.
      + apply in_map_iff. exists e. split; [| exact He].
        rewrite days_until_calendar by exact Hus. reflexivity.
      + destruct (_ <=? 0)%Z eqn:E; [apply Z.leb_le in E; lia | reflexivity]. }
  split.
  - now rewrite extract_all_days.
  - unfold get_expiration_days. cbv zeta. now rewrite expiration_days_loop.
Qed.

(** A clock reading at noon. *)
Definition sample_noon : datetime :=
  {| ordinal := 739000; microsecond_of_day := 43200000000 |}.

Lemma expiration_needs_a_full_day_witness :
  (In 29%Z (all_days (extract sample_noon (fun l => l) one_expiration None)) <->
   exists e, In e one_expiration /\ (739000 + 1 < e.1)%Z /\ 29%Z = (e.1 - 739000 - 1)%Z) /\
  (In 29%Z (get_expiration_days sample_noon one_expiration) <->
   exists e, In e one_expiration /\ (739000 + 1 < e.1)%Z /\ 29%Z = (e.1 - 739000 - 1)%Z).
Proof.
  apply (expiration_needs_a_full_day sample_noon (fun l => l) one_expiration None 29).
  unfold microseconds_per_day. cbn. lia.
Defined.

(** ** The options chain fetched from the service *)

(** The keys after [options_data[exp] = c]. *)
Lemma chain_set_keys (exp k : Z) (c : chain) (d : options_data) :
  In k (map fst (chain_set exp c d)) <-> k = exp \/ In k (map fst d).
Proof.
  induction d as [| [exp' c'] d IH]; cbn [chain_set map fst In].
  - intuition congruence.
  - destruct (exp =? exp')%Z eqn:E; cbn [map fst In].
    + apply Z.eqb_eq in E. subst exp'. intuition congruence.
    + rewrite IH. intuition congruence.
Qed.

Lemma chain_set_nodup (exp : Z) (c : chain) (d : options_data) :
  List.NoDup (map fst d) -> List.NoDup (map fst (chain_set exp c d)).
Proof.
  induction d as [| [exp' c'] d IH]; cbn [chain_set map fst]; intros Hnd.
  - constructor; [intros [] | constructor].
  - apply NoDup_cons_iff in Hnd. destruct Hnd as [Hfresh Hnd].
    destruct (exp =? exp')%Z eqn:E; cbn [map fst].
    + now constructor.
    + constructor; [| now apply IH].
      rewrite chain_set_keys. intros [-> | Hin]; [| contradiction].
      rewrite Z.eqb_refl in E. discriminate.
Qed.

Section Fetched.
Variable world : Type.
Variable option_chain : string -> Z -> world -> result chain * world.
Variable ticker : string.

(** One expiration is stored under its own key or reported, and nothing
    else changes. *)
Lemma fetch_expiration_keys (st : fetched world) (exp : Z) :
  List.NoDup (map fst (options_data_of world st)) ->
  let st' := fetch_expiration world option_chain ticker st exp in
  List.NoDup (map fst (options_data_of world st')) /\
  forall k : Z,
    In k (map fst (options_data_of world st')) \/ In k (printed world st') <->
    k = exp \/ In k (map fst (options_data_of world st)) \/ In k (printed world st).
Proof using Type.
  intros Hnd. unfold FetchData.fetch_expiration.
  destruct (option_chain ticker exp (world_of world st)) as [[c1 | e1] w1].
  - destruct (option_chain ticker exp w1) as [[c2 | e2] w2]; cbn [options_data_of printed].
    + split; [now apply chain_set_nodup |]. intros k. rewrite chain_set_keys. tauto.
    + split; [exact Hnd |]. intros k. rewrite in_app_iff. cbn [In]. intuition congruence.
  - cbn [options_data_of printed].
    split; [exact Hnd |]. intros k. rewrite in_app_iff. cbn [In]. intuition congruence.
Qed.

(** The loop stores or reports every expiration, under distinct keys. *)
Lemma fetch_loop_keys (exps : list Z) (st : fetched world) :
  List.NoDup (map fst (options_data_of world st)) ->
  let st' := fold_left (fetch_expiration world option_chain ticker) exps st in
  List.NoDup (map fst (options_data_of world st')) /\
  forall k : Z,
    In k (map fst (options_data_of world st')) \/ In k (printed world st') <->
    In k exps \/ In k (map fst (options_data_of world st)) \/ In k (printed world st).
Proof using Type.
  revert st. induction exps as [| exp exps IH]; intros st Hnd; cbn [fold_left].
  - split; [exact Hnd |]. intros k. cbn [In]. tauto.
  - destruct (fetch_expiration_keys st exp Hnd) as [Hnd' Hkeys].
    destruct (IH (fetch_expiration world option_chain ticker st exp) Hnd') as [Hnd'' Hkeys''].
    split; [exact Hnd'' |]. intros k. rewrite Hkeys'', Hkeys. cbn [In].
    intuition congruence.
Qed.

(** Where every request fails, nothing is stored and every expiration is
    reported. *)
Lemma fetch_loop_all_fail (exps : list Z) (st : fetched world) :
  (forall exp w, exists e w', option_chain ticker exp w = (Raise e, w')) ->
  let st' := fold_left (fetch_expiration world option_chain ticker) exps st in
  options_data_of world st' = options_data_of world st /\
  printed world st' = printed world st ++ exps.
Proof using Type.
  intros Hfail. revert st. induction exps as [| exp exps IH]; intros st; cbn [fold_left].
  - now rewrite app_nil_r.
  - destruct (IH (fetch_expiration world option_chain ticker st exp)) as [Hdata Hlog].
    cbv zeta in Hdata, Hlog. rewrite Hdata, Hlog.
    unfold FetchData.fetch_expiration.
    destruct (Hfail exp (world_of world st)) as (e & w' & ->).
    cbn [options_data_of printed]. split; [reflexivity |].
    now rewrite <- app_assoc.
Qed.

End Fetched.

(** X24: when [get_options_chain] returns, the service listed at least one
    expiration, the keys of the dictionary are distinct, and the expirations
    are exactly the keys together with the expirations whose failure was
    printed: a failing request never reaches the caller. *)
Theorem fetched_chain_keys (world : Type)
    (options : string -> world -> result (list Z) * world)
    (option_chain : string -> Z -> world -> result chain * world)
    (ticker : string) (w w' : world) (st : fetched world) :
  get_options_chain world options option_chain ticker w = (Ok st, w') ->
  exists (exps : list Z) (w0 : world),
    options ticker w = (Ok exps, w0) /\ exps <> [] /\
    List.NoDup (map fst (options_data_of world st)) /\
    forall exp : Z,
      In exp exps <->
      In exp (map fst (options_data_of world st)) \/ In exp (printed world st).
Proof.
  unfold get_options_chain. destruct (options ticker w) as [[exps | e] w0]; [| discriminate].
  destruct exps as [| exp exps]; [discriminate |].
  intros [= <- <-]. exists (exp :: exps), w0.
  split; [reflexivity |]. split; [discriminate |].
  destruct (fetch_loop_keys world option_chain ticker (exp :: exps)
              {| options_data_of := []; printed := []; world_of := w0 |})
    as [Hnd Hkeys].
  { constructor. }
  split; [exact Hnd |]. intros k. rewrite Hkeys. cbn [options_data_of printed map In].
  tauto.
Qed.

(** A service that lists two expirations and fails on the first. *)
Definition sample_options (ticker : string) (w : unit) : result (list Z) * unit :=
  (Ok [739030%Z; 739060%Z], w).

Definition sample_option_chain (ticker : string) (exp : Z) (w : unit)
  : result chain * unit :=
  if (exp =? 739030)%Z then (Raise ValueError, w)
  else (Ok {| calls := []; puts := [] |}, w).

Lemma fetched_chain_keys_witness :
  exists (exps : list Z) (w0 : unit),
    sample_options "AAPL" tt = (Ok exps, w0) /\ exps <> [] /\
    List.NoDup (map fst [(739060%Z, {| calls := []; puts := [] |})]) /\
    forall exp : Z,
      In exp exps <->
      In exp (map fst [(739060%Z, {| calls := []; puts := [] |})]) \/ In exp [739030%Z].
Proof.
  apply (fetched_chain_keys unit sample_options sample_option_chain "AAPL" tt tt
           {| options_data_of := [(739060%Z, {| calls := []; puts := [] |})];
              printed := [739030%Z]; world_of := tt |}).
  reflexivity.
Defined.

(** X25: when the service lists expirations and every chain request fails,
    [get_options_chain] returns an empty dictionary after printing one line
    for each expiration, and the surface builder raises [ValueError] on it. *)
Theorem failed_fetches_leave_empty_chain (world : Type)
    (options : string -> world -> result (list Z) * world)
    (option_chain : string -> Z -> world -> result chain * world)
    (ticker : string) (w w0 : world) (exps : list Z)
    (today : datetime) (set_iter : list R -> list R) (current_price : R)
    (strike_range : option (R * R)) :
  options ticker w = (Ok exps, w0) -> exps <> [] ->
  (forall exp w1, exists e w2, option_chain ticker exp w1 = (Raise e, w2)) ->
  (forall l, Permutation (set_iter l) l) ->
  exists (st : fetched world) (w' : world),
    get_options_chain world options option_chain ticker w = (Ok st, w') /\
    options_data_of world st = [] /\
    printed world st = exps /\
    interpolate_volatility_surface today set_iter (options_data_of world st)
      current_price strike_range
    = Raise ValueError.
Proof.
  intros Hopt Hne Hfail Hiter. unfold get_options_chain. rewrite Hopt.
  destruct exps as [| exp exps]; [contradiction |].
  destruct (fetch_loop_all_fail world option_chain ticker (exp :: exps)
              {| options_data_of := []; printed := []; world_of := w0 |} Hfail)
    as [Hdata Hlog].
  cbv zeta in Hdata, Hlog. cbn [options_data_of printed app] in Hdata, Hlog.
  eexists _, _. split; [reflexivity |].
  split; [exact Hdata |]. split; [exact Hlog |].
  rewrite Hdata. apply surface_raises_without_strikes.
  apply extract_strikes_unquoted; [exact Hiter |].
  intros (e & rw & [] & _).
Qed.

(** A service whose chain requests all fail. *)
Definition failing_option_chain (ticker : string) (exp : Z) (w : unit)
  : result chain * unit :=
  (Raise ValueError, w).

Lemma failed_fetches_leave_empty_chain_witness :
  exists (st : fetched unit) (w' : unit),
    get_options_chain unit sample_options failing_option_chain "AAPL" tt = (Ok st, w') /\
    options_data_of unit st = [] /\
    printed unit st = [739030%Z; 739060%Z] /\
    interpolate_volatility_surface sample_today (fun l => l) (options_data_of unit st)
      100 None
    = Raise ValueError.
Proof.
  apply (failed_fetches_leave_empty_chain unit sample_options failing_option_chain
           "AAPL" tt tt [739030%Z; 739060%Z] sample_today (fun l => l) 100 None).
  - reflexivity.
  - discriminate.
  - intros exp w1. now exists ValueError, w1.
  - intros l. reflexivity.
Defined.

(** ** The option price surface *)

(** Away from a zero strike the two divisions agree. *)
Lemma black_scholes_price_np_eq (S K T r sigma : xreal) (option_type : string) :
  K <> Fin 0 ->
  black_scholes_price_np S K T r sigma option_type
  = black_scholes_price S K T r sigma option_type.
Proof.
  intros HK. unfold black_scholes_price_np, black_scholes_price.
  destruct (py_div_cases S K) as [[HK' _] | [_ ->]]; [contradiction | reflexivity].
Qed.

(** Two loops whose bodies agree on the items. *)
Lemma for_each_ext {A St : Type} (f g : St -> A -> result St) (l : list A) (st : St) :
  (forall st x, In x l -> f st x = g st x) -> for_each f l st = for_each g l st.
Proof.
  revert st. induction l as [| x l IH]; intros st H; [reflexivity |].
  cbn [for_each]. rewrite (H st x) by now left.
  destruct (g st x) as [st' | e]; cbn [mbind result_bind]; [| reflexivity].
  apply IH. intros st0 y Hy. apply H. now right.
Qed.

(** A constant map is a replication. *)
Lemma map_const_replicate {A B : Type} (c : B) (l : list A) :
  map (fun _ => c) l = replicate (length l) c.
Proof. induction l as [| x l IH]; cbn; [reflexivity | now rewrite IH]. Qed.

(** Two nested loops over the indices of an [n] by [m] array of zeros, whose
    node [(i, j)] is computed by [f] with the value [cell i j]. *)
Section IndexLoops.
Variable f : nat -> nat -> result xreal.
Variable cell : nat -> nat -> xreal.
Variable n m : nat.
Hypothesis f_cell : forall i j, (i < n)%nat -> (j < m)%nat -> f i j = Ok (cell i j).

(** The inner loop over the column indices [k, k + len). *)
Lemma index_row (i : nat) (len k : nat) (Zm : list (list xreal)) (r : list xreal) :
  (i < n)%nat -> Zm !! i = Some r -> (k + len <= m)%nat -> length r = m ->
  for_each (fun Zm' j => v ← f i j; set_cell Zm' i j v) (seq k len) Zm
  = Ok (<[i := take k r ++ map (cell i) (seq k len) ++ drop (k + len) r]> Zm).
Proof using f_cell.
  intros Hi. revert k Zm r. induction len as [| len IH]; intros k Zm r Hr Hlen Hm.
  - cbn [seq for_each map app]. rewrite Nat.add_0_r, take_drop.
    now rewrite list_insert_id.
  - cbn [seq for_each]. rewrite f_cell by lia. cbn [mbind result_bind].
    rewrite (set_cell_ok Zm i k (cell i k) r) by (assumption || lia).
    cbn [mbind result_bind].
    assert (Hi' : (i < length Zm)%nat) by (eapply lookup_lt_Some; eassumption).
    rewrite (IH (S k) _ (<[k := cell i k]> r)).
    + rewrite list_insert_insert_eq. do 2 f_equal.
      rewrite (take_S_r _ _ (cell i k)) by (apply list_lookup_insert_eq; lia).
      rewrite take_insert_ge by lia.
      rewrite drop_insert_lt by lia.
      cbn [map]. rewrite <- app_assoc. cbn [app].
      replace (k + S len)%nat with (S k + len)%nat by lia. reflexivity.
    + apply list_lookup_insert_eq. exact Hi'.
    + lia.
    + rewrite length_insert. exact Hm.
Qed.

(** The outer loop over the row indices [k, k + len). *)
Lemma index_rows (len k : nat) (Zm : list (list xreal)) :
  (forall i r, Zm !! i = Some r -> length r = m) ->
  (k + len <= n)%nat -> length Zm = n ->
  for_each
    (fun Zm0 i => for_each (fun Zm' j => v ← f i j; set_cell Zm' i j v) (seq 0 m) Zm0)
    (seq k len) Zm
  = Ok (take k Zm ++ map (fun i => map (cell i) (seq 0 m)) (seq k len)
          ++ drop (k + len) Zm).
Proof using f_cell.
  revert k Zm. induction len as [| len IH]; intros k Zm Hrows Hlen Hn.
  - cbn [seq for_each map app]. now rewrite Nat.add_0_r, take_drop.
  - cbn [seq for_each].
    destruct (lookup_lt_is_Some_2 Zm k ltac:(lia)) as [r Hr].
    pose proof (Hrows k r Hr) as Hlr.
    rewrite (index_row k m 0 Zm r) by (assumption || lia).
    cbn [mbind result_bind].
    rewrite take_0, Nat.add_0_l, (drop_ge r), app_nil_r by lia. cbn [app].
    rewrite (IH (S k)).
    + f_equal.
      rewrite (take_S_r _ _ (map (cell k) (seq 0 m))) by (apply list_lookup_insert_eq; lia).
      rewrite take_insert_ge by lia.
      rewrite drop_insert_lt by lia.
      cbn [map]. rewrite <- app_assoc. cbn [app].
      replace (k + S len)%nat with (S k + len)%nat by lia. reflexivity.
    + intros i r' Hr'. destruct (decide (i = k)) as [-> | Hne].
      * rewrite list_lookup_insert_eq in Hr' by lia. injection Hr' as <-.
        now rewrite length_map, length_seq.
      * rewrite list_lookup_insert_ne in Hr' by congruence. now apply (Hrows i).
    + lia.
    + rewrite length_insert. exact Hn.
Qed.

Lemma index_loops :
  for_each
    (fun Zm0 i => for_each (fun Zm' j => v ← f i j; set_cell Zm' i j v) (seq 0 m) Zm0)
    (seq 0 n) (replicate n (replicate m (Fin 0)))
  = Ok (map (fun i => map (cell i) (seq 0 m)) (seq 0 n)).
Proof using f_cell.
  rewrite (index_rows n 0).
  - rewrite take_0, Nat.add_0_l. cbn [app].
    rewrite drop_ge by (rewrite length_replicate; lia). now rewrite app_nil_r.
  - intros i r Hr. apply lookup_replicate in Hr. destruct Hr as [-> _].
    apply length_replicate.
  - lia.
  - apply length_replicate.
Qed.

End IndexLoops.


(** The two axes of the grid. *)
Definition spot_axis (current_price : R) (j : nat) : R :=
  current_price * (7 / 10)
  + INR j * ((current_price * (13 / 10) - current_price * (7 / 10)) / INR (50 - 1)).

Definition day_axis (days_range : R * R) (i : nat) : R :=
  days_range.1 + INR i * ((days_range.2 - days_range.1) / INR (50 - 1)).

Definition mid_strike (strike_range : R * R) : R :=
  strike_range.1 + (strike_range.2 - strike_range.1) / 2.

(** The step of a 50-point partition. *)
Lemma INR_49 : INR (50 - 1) = 49.
Proof. change (50 - 1)%nat with 49%nat. rewrite INR_IZR_INZ. reflexivity. Qed.

Lemma INR_index (i : nat) : (i < 50)%nat -> 0 <= INR i <= 49.
Proof.
  intros Hi. split; [apply pos_INR |].
  rewrite <- INR_49. apply le_INR. lia.
Qed.

(** The stock prices run from 70% to 130% of the current price. *)
Lemma spot_axis_bounds (current_price : R) (j : nat) :
  0 < current_price -> (j < 50)%nat ->
  current_price * (7 / 10) <= spot_axis current_price j <= current_price * (13 / 10).
Proof.
  intros Hp Hj. unfold spot_axis. rewrite INR_49.
  pose proof (INR_index j Hj). split; nra.
Qed.

Lemma spot_axis_increasing (current_price : R) (j : nat) :
  0 < current_price -> spot_axis current_price j <= spot_axis current_price (S j).
Proof.
  intros Hp. unfold spot_axis. rewrite INR_49, S_INR. nra.
Qed.

(** The days lie between the two ends of the range. *)
Lemma day_axis_nonneg (days_range : R * R) (i : nat) :
  0 <= days_range.1 -> 0 <= days_range.2 -> (i < 50)%nat -> 0 <= day_axis days_range i.
Proof.
  intros H1 H2 Hi. unfold day_axis. rewrite INR_49. pose proof (INR_index i Hi).
  replace (days_range.1 + INR i * ((days_range.2 - days_range.1) / 49))
    with ((49 - INR i) / 49 * days_range.1 + INR i / 49 * days_range.2) by field.
  apply Rplus_le_le_0_compat; apply Rmult_le_pos; try assumption;
    apply Rdiv_nonneg; lra.
Qed.


(** The loops of [create_option_price_surface] in closed form. *)
Section Grid.
Variable current_price : R.
Variable days_range strike_range : R * R.
Variable volatility risk_free_rate : R.
Variable option_type : string.

(** The pricing call of the node [(i, j)]. *)
Definition grid_price (i j : nat) : result xreal :=
  black_scholes_price_np (Fin (spot_axis current_price j)) (Fin (mid_strike strike_range))
    (Fin (day_axis days_range i / 365)) (Fin risk_free_rate) (Fin volatility) option_type.

(** The arrays [S] and [D]. *)
Definition spot_mesh : list (list R) :=
  map (fun _ => linspace (current_price * (7 / 10)) (current_price * (13 / 10)) 50)
      (linspace days_range.1 days_range.2 50).

Definition day_mesh : list (list R) :=
  map (fun y => map (fun _ => y)
                  (linspace (current_price * (7 / 10)) (current_price * (13 / 10)) 50))
      (linspace days_range.1 days_range.2 50).

Lemma spot_mesh_cell (i j : nat) :
  (i < 50)%nat -> (j < 50)%nat ->
  spot_mesh !! i ≫= (fun r => r !! j) = Some (spot_axis current_price j).
Proof.
  intros Hi Hj. unfold spot_mesh.
  rewrite lookup_map, (lookup_linspace _ _ _ i) by exact Hi.
  cbn [fmap option_fmap option_map mbind option_bind].
  now rewrite (lookup_linspace _ _ _ j) by exact Hj.
Qed.

Lemma day_mesh_cell (i j : nat) :
  (i < 50)%nat -> (j < 50)%nat ->
  day_mesh !! i ≫= (fun r => r !! j) = Some (day_axis days_range i).
Proof.
  intros Hi Hj. unfold day_mesh.
  rewrite lookup_map, (lookup_linspace _ _ _ i) by exact Hi.
  cbn [fmap option_fmap option_map mbind option_bind].
  now rewrite lookup_map, (lookup_linspace _ _ _ j) by exact Hj.
Qed.

(** The function as one pair of loops over the node indices. *)
Lemma price_surface_loops :
  create_option_price_surface current_price days_range strike_range
    volatility risk_free_rate option_type
  = Zm ← for_each
           (fun Zm0 i =>
              for_each (fun Zm' j => v ← grid_price i j; set_cell Zm' i j v) (seq 0 50) Zm0)
           (seq 0 50) (replicate 50 (replicate 50 (Fin 0)));
    Ok (spot_mesh, day_mesh, Zm).
Proof.
  unfold create_option_price_surface, meshgrid. cbv zeta.
  fold spot_mesh. fold day_mesh.
  assert (Hlen : length spot_mesh = 50%nat)
    by (unfold spot_mesh; now rewrite length_map, length_linspace).
  assert (Hshape : shape1 spot_mesh = 50%nat).
  { unfold spot_mesh. destruct (linspace_cons days_range.1 days_range.2 49) as [rest ->].
    cbn [map shape1]. apply length_linspace. }
  assert (Hzeros : zeros_like spot_mesh = replicate 50 (replicate 50 (Fin 0))).
  { unfold zeros_like, spot_mesh. rewrite map_map, !map_const_replicate.
    now rewrite !length_linspace. }
  rewrite Hlen, Hshape, Hzeros.
  rewrite (for_each_ext _
             (fun Zm0 i =>
                for_each (fun Zm' j => v ← grid_price i j; set_cell Zm' i j v)
                  (seq 0 50) Zm0)); [reflexivity |].
  intros Zm0 i Hi. apply for_each_ext. intros Zm' j Hj.
  apply in_seq in Hi, Hj.
  unfold get_cell. rewrite spot_mesh_cell, day_mesh_cell by lia.
  reflexivity.
Qed.

Lemma price_surface_cells (cell : nat -> nat -> xreal) :
  (forall i j, (i < 50)%nat -> (j < 50)%nat -> grid_price i j = Ok (cell i j)) ->
  create_option_price_surface current_price days_range strike_range
    volatility risk_free_rate option_type
  = Ok (spot_mesh, day_mesh, map (fun i => map (cell i) (seq 0 50)) (seq 0 50)).
Proof.
  intros Hcell. rewrite price_surface_loops.
  now rewrite (index_loops grid_price cell 50 50 Hcell).
Qed.


End Grid.

(** Reading the array that the loops compute. *)
Lemma lookup_cells (cell : nat -> nat -> xreal) (i j : nat) :
  (i < 50)%nat -> (j < 50)%nat ->
  map (fun i => map (cell i) (seq 0 50)) (seq 0 50) !! i ≫= (fun r => r !! j)
  = Some (cell i j).
Proof.
  intros Hi Hj. rewrite lookup_map, lookup_seq_lt by exact Hi.
  cbn [fmap option_fmap option_map mbind option_bind].
  now rewrite lookup_map, lookup_seq_lt by exact Hj.
Qed.

(** The price of a call or a put on positive inputs, as a real number. *)
Definition price_of (S K T r sigma : R) (option_type : string) : R :=
  if Rlt_dec 0 T then
    if String.eqb option_type "call"
    then call_value S K T r sigma else put_value S K T r sigma
  else
    if String.eqb option_type "call" then Rmax 0 (S - K) else Rmax 0 (K - S).

Lemma price_of_correct (S K T r sigma : R) (option_type : string) :
  0 < S -> 0 < K -> 0 < sigma ->
  option_type = "call"%string \/ option_type = "put"%string ->
  black_scholes_price (Fin S) (Fin K) (Fin T) (Fin r) (Fin sigma) option_type
  = Ok (Fin (price_of S K T r sigma option_type)).
Proof.
  intros HS HK Hsig Hkind. unfold price_of.
  destruct (Rlt_dec 0 T) as [Hlive | Hdead].
  - destruct (price_live_values S K T r sigma HS HK Hlive Hsig) as [Hc Hp].
    destruct Hkind; subst option_type; assumption.
  - apply (price_expired S K). cbn. apply Rleb_true. lra.
Qed.

(** The bounds of the price for [T >= 0]. *)
Lemma price_of_bounds (S K T r sigma : R) (option_type : string) :
  0 < S -> 0 < K -> 0 < sigma -> 0 <= T ->
  0 <= price_of S K T r sigma option_type /\
  (option_type = "call"%string -> price_of S K T r sigma option_type <= S) /\
  (option_type = "put"%string ->
   price_of S K T r sigma option_type <= K * exp (- r * T)).
Proof.
  intros HS HK Hsig HT. unfold price_of.
  destruct (Rlt_dec 0 T) as [Hlive | Hdead].
  - destruct (live_values_nonneg S K T r sigma HS HK Hlive Hsig) as [Hc Hp].
    fold (call_value S K T r sigma) in Hc. fold (put_value S K T r sigma) in Hp.
    assert (HF : 0 < K * exp (- r * T))
      by (apply Rmult_lt_0_compat; [exact HK | apply exp_pos]).
    pose proof (Phi_range (d1_of S K T r sigma)) as R1.
    pose proof (Phi_range (d2_of S K T r sigma)) as R2.
    pose proof (Phi_range (- d1_of S K T r sigma)) as R3.
    pose proof (Phi_range (- d2_of S K T r sigma)) as R4.
    split; [destruct (String.eqb option_type "call"); assumption |].
    split; intros ->; cbn [String.eqb Ascii.eqb Bool.eqb].
    + unfold call_value. nra.
    + unfold put_value. nra.
  - assert (T = 0) by lra. subst T.
    replace (- r * 0) with 0 by ring. rewrite exp_0, Rmult_1_r.
    split; [destruct (String.eqb option_type "call"); apply Rmax_l |].
    split; intros ->; cbn [String.eqb Ascii.eqb Bool.eqb]; apply Rmax_lub; lra.
Qed.

(** The price along the spot, on both branches. *)
Lemma price_of_spot_monotone (S1 S2 K T r sigma : R) :
  0 < S1 -> S1 <= S2 -> 0 < K -> 0 < sigma ->
  price_of S1 K T r sigma "call" <= price_of S2 K T r sigma "call" /\
  price_of S2 K T r sigma "put" <= price_of S1 K T r sigma "put".
Proof.
  intros HS1 HS HK Hsig. unfold price_of. cbn [String.eqb Ascii.eqb Bool.eqb].
  destruct (Rlt_dec 0 T) as [Hlive | Hdead].
  - pose proof (call_value_spot_lipschitz S1 S2 K T r sigma HS1 HS HK Hlive Hsig).
    rewrite !put_value_parity. split; lra.
  - unfold Rmax.
    destruct (Rle_dec 0 (S1 - K)), (Rle_dec 0 (S2 - K)),
      (Rle_dec 0 (K - S1)), (Rle_dec 0 (K - S2)); split; lra.
Qed.

(** The pricing call of a node returns the price. *)
Lemma grid_price_value (current_price : R) (days_range strike_range : R * R)
    (volatility risk_free_rate : R) (option_type : string) (i j : nat) :
  0 < current_price -> 0 < mid_strike strike_range -> 0 < volatility ->
  option_type = "call"%string \/ option_type = "put"%string ->
  (j < 50)%nat ->
  grid_price current_price days_range strike_range volatility risk_free_rate option_type i j
  = Ok (Fin (price_of (spot_axis current_price j) (mid_strike strike_range)
               (day_axis days_range i / 365) risk_free_rate volatility option_type)).
Proof.
  intros Hp HK Hvol Hkind Hj. unfold grid_price.
  rewrite black_scholes_price_np_eq by (intros [= H0]; lra).
  apply price_of_correct; try assumption.
  pose proof (spot_axis_bounds current_price j Hp Hj). lra.
Qed.

(** X26: for a positive current price, mid strike and volatility, days that
    are not negative and a kind that is a call or a put, the price surface
    is computed: the node [(i, j)] holds the finite price of
    [black_scholes_price] at the [j]-th stock price (between 70% and 130% of
    the current price), the mid strike and the [i]-th day over 365; it is not
    negative, at most the stock price for a call and at most the discounted
    strike for a put. *)
Theorem price_surface_values (current_price : R) (days_range strike_range : R * R)
    (volatility risk_free_rate : R) (option_type : string) :
  0 < current_price -> 0 < mid_strike strike_range -> 0 < volatility ->
  0 <= days_range.1 -> 0 <= days_range.2 ->
  option_type = "call"%string \/ option_type = "put"%string ->
  exists (Sm Dm : list (list R)) (Zm : list (list xreal)),
    create_option_price_surface current_price days_range strike_range
      volatility risk_free_rate option_type = Ok (Sm, Dm, Zm) /\
    forall i j : nat, (i < 50)%nat -> (j < 50)%nat ->
      exists s d v : R,
        Sm !! i ≫= (fun r => r !! j) = Some s /\
        Dm !! i ≫= (fun r => r !! j) = Some d /\
        Zm !! i ≫= (fun r => r !! j) = Some (Fin v) /\
        current_price * (7 / 10) <= s <= current_price * (13 / 10) /\
        0 <= d /\
        black_scholes_price (Fin s) (Fin (mid_strike strike_range)) (Fin (d / 365))
          (Fin risk_free_rate) (Fin volatility) option_type = Ok (Fin v) /\
        0 <= v /\
        (option_type = "call"%string -> v <= s) /\
        (option_type = "put"%string ->
         v <= mid_strike strike_range * exp (- risk_free_rate * (d / 365))).
Proof.
  intros Hp HK Hvol Hd1 Hd2 Hkind.
  rewrite (price_surface_cells current_price days_range strike_range volatility
             risk_free_rate option_type
             (fun i j => Fin (price_of (spot_axis current_price j) (mid_strike strike_range)
                                (day_axis days_range i / 365) risk_free_rate volatility
                                option_type)))
    by (intros i j _ Hj; now apply grid_price_value).
  eexists _, _, _. split; [reflexivity |].
  intros i j Hi Hj.
  pose proof (spot_axis_bounds current_price j Hp Hj) as Hs.
  pose proof (day_axis_nonneg days_range i Hd1 Hd2 Hi) as Hd.
  assert (HT : 0 <= day_axis days_range i / 365) by (apply Rdiv_nonneg; lra).
  eexists _, _, _.
  split; [now apply spot_mesh_cell |]. split; [now apply day_mesh_cell |].
  split; [now apply (lookup_cells (fun i j => Fin _)) |].
  split; [exact Hs |]. split; [exact Hd |].
  split; [apply price_of_correct; try assumption; lra |].
  apply price_of_bounds; try assumption. lra.
Qed.

Lemma price_surface_values_witness :
  exists (Sm Dm : list (list R)) (Zm : list (list xreal)),
    create_option_price_surface 100 (1, 90) (80, 120) (3 / 10) (5 / 100) "call"
      = Ok (Sm, Dm, Zm) /\
    forall i j : nat, (i < 50)%nat -> (j < 50)%nat ->
      exists s d v : R,
        Sm !! i ≫= (fun r => r !! j) = Some s /\
        Dm !! i ≫= (fun r => r !! j) = Some d /\
        Zm !! i ≫= (fun r => r !! j) = Some (Fin v) /\
        100 * (7 / 10) <= s <= 100 * (13 / 10) /\
        0 <= d /\
        black_scholes_price (Fin s) (Fin (mid_strike (80, 120))) (Fin (d / 365))
          (Fin (5 / 100)) (Fin (3 / 10)) "call" = Ok (Fin v) /\
        0 <= v /\
        ("call"%string = "call"%string -> v <= s) /\
        ("call"%string = "put"%string ->
         v <= mid_strike (80, 120) * exp (- (5 / 100) * (d / 365))).
Proof.
  apply (price_surface_values 100 (1, 90) (80, 120) (3 / 10) (5 / 100) "call");
    try (unfold mid_strike; cbn [fst snd]; lra).
  left. reflexivity.
Defined.

(** X27: along the stock price the surface of a call does not decrease and
    the surface of a put does not increase, whatever the days. *)
Theorem price_surface_slope (current_price : R) (days_range strike_range : R * R)
    (volatility risk_free_rate : R) (option_type : string) :
  0 < current_price -> 0 < mid_strike strike_range -> 0 < volatility ->
  option_type = "call"%string \/ option_type = "put"%string ->
  exists (Sm Dm : list (list R)) (Zm : list (list xreal)),
    create_option_price_surface current_price days_range strike_range
      volatility risk_free_rate option_type = Ok (Sm, Dm, Zm) /\
    forall i j : nat, (i < 50)%nat -> (S j < 50)%nat ->
      exists v1 v2 : R,
        Zm !! i ≫= (fun r => r !! j) = Some (Fin v1) /\
        Zm !! i ≫= (fun r => r !! S j) = Some (Fin v2) /\
        (option_type = "call"%string -> v1 <= v2) /\
        (option_type = "put"%string -> v2 <= v1).
Proof.
  intros Hp HK Hvol Hkind.
  rewrite (price_surface_cells current_price days_range strike_range volatility
             risk_free_rate option_type
             (fun i j => Fin (price_of (spot_axis current_price j) (mid_strike strike_range)
                                (day_axis days_range i / 365) risk_free_rate volatility
                                option_type)))
    by (intros i j _ Hj; now apply grid_price_value).
  eexists _, _, _. split; [reflexivity |].
  intros i j Hi Hj. eexists _, _.
  split; [apply (lookup_cells (fun i j => Fin _)); lia |].
  split; [apply (lookup_cells (fun i j => Fin _)); lia |].
  pose proof (spot_axis_bounds current_price j Hp ltac:(lia)) as Hs.
  pose proof (spot_axis_increasing current_price j Hp) as Hinc.
  destruct (price_of_spot_monotone (spot_axis current_price j) (spot_axis current_price (S j))
              (mid_strike strike_range) (day_axis days_range i / 365)
              risk_free_rate volatility ltac:(lra) Hinc HK Hvol) as [Hc Hput].
  split; intros ->; assumption.
Qed.

Lemma price_surface_slope_witness :
  exists (Sm Dm : list (list R)) (Zm : list (list xreal)),
    create_option_price_surface 100 (1, 90) (80, 120) (3 / 10) (5 / 100) "put"
      = Ok (Sm, Dm, Zm) /\
    forall i j : nat, (i < 50)%nat -> (S j < 50)%nat ->
      exists v1 v2 : R,
        Zm !! i ≫= (fun r => r !! j) = Some (Fin v1) /\
        Zm !! i ≫= (fun r => r !! S j) = Some (Fin v2) /\
        ("put"%string = "call"%string -> v1 <= v2) /\
        ("put"%string = "put"%string -> v2 <= v1).
Proof.
  apply (price_surface_slope 100 (1, 90) (80, 120) (3 / 10) (5 / 100) "put");
    try (unfold mid_strike; cbn [fst snd]; lra).
  right. reflexivity.
Defined.


